(** * ai-relationship-manager: preprocessing, chunking and map/reduce summarization

    A shallow embedding of [core/preprocess.py] and [core/summarizer.py].

    Text is a list of characters.  A character is a code point in the range
    U+0000..U+00FF (Rocq's 8-bit [ascii]); on that range the character classes
    of Python 3 ([str.isspace], line breaks, [str.lower], the [re] classes
    [\w], [\d], [\s]) are transcribed exactly.  Python integers are [Z]. *)

From Stdlib Require Import String Ascii DecimalString ZArith List Bool Lia Arith
  Sorted.
Import ListNotations.

Local Open Scope Z_scope.

(* ================================================================= *)
(** * Part I: definitions *)
(* ================================================================= *)

(** ** Python built-ins used by the source *)

Module Py.

Definition str := list ascii.

(** A string literal of the source. *)
Definition lit (s : string) : str := list_ascii_of_string s.

(** [len(s)] *)
Definition len {A} (s : list A) : Z := Z.of_nat (length s).

(** Index normalisation of [s[i:j]]: a negative index counts from the end,
    and the result is clamped to [0, len]. *)
Definition clamp (n i : Z) : Z :=
  if i <? 0 then Z.max 0 (i + n) else Z.min i n.

(** [s[i:j]] *)
Definition slice {A} (s : list A) (i j : Z) : list A :=
  let a := clamp (len s) i in
  let b := clamp (len s) j in
  firstn (Z.to_nat (b - a)) (skipn (Z.to_nat a) s).

(** [s[i:]] *)
Definition slice_from {A} (s : list A) (i : Z) : list A :=
  skipn (Z.to_nat (clamp (len s) i)) s.

Definition eqb_char (a b : ascii) : bool := Ascii.eqb a b.

(** [s.startswith(p)] *)
Fixpoint startswith (p s : str) : bool :=
  match p, s with
  | [], _ => true
  | _ :: _, [] => false
  | a :: p', b :: s' => eqb_char a b && startswith p' s'
  end.

(** [p in s] *)
Fixpoint contains (p s : str) : bool :=
  startswith p s ||
  match s with
  | [] => false
  | _ :: s' => contains p s'
  end.

(** Highest offset at which [sub] occurs in [s]. *)
Fixpoint last_occ (sub s : str) : option nat :=
  match s with
  | [] => if startswith sub [] then Some O else None
  | _ :: s' =>
      match last_occ sub s' with
      | Some k => Some (S k)
      | None => if startswith sub s then Some O else None
      end
  end.

(** Lowest offset at which [sub] occurs in [s]. *)
Fixpoint first_occ (sub s : str) : option nat :=
  if startswith sub s then Some O
  else
    match s with
    | [] => None
    | _ :: s' =>
        match first_occ sub s' with
        | Some k => Some (S k)
        | None => None
        end
    end.

(** Index adjustment of [find]/[rfind]: as for slices, except that the start
    is not clamped to the length. *)
Definition adjust_start (n i : Z) : Z :=
  if i <? 0 then Z.max 0 (i + n) else i.

Definition adjust_end (n j : Z) : Z :=
  if n <? j then n else if j <? 0 then Z.max 0 (j + n) else j.

(** [s.rfind(sub, start, end)]: the highest index in [s[start:end]] at which
    [sub] occurs, [-1] when there is none. *)
Definition rfind (s sub : str) (start end_ : Z) : Z :=
  let a := adjust_start (len s) start in
  let b := adjust_end (len s) end_ in
  if b - a <? len sub then -1
  else
    match last_occ sub (firstn (Z.to_nat (b - a)) (skipn (Z.to_nat a) s)) with
    | Some k => a + Z.of_nat k
    | None => -1
    end.

(** *** Characters *)

(** [ord(c)] and [chr(n)] on U+0000..U+00FF. *)
Definition ord (c : ascii) : Z := Z.of_N (N_of_ascii c).
Definition chr (n : Z) : ascii := ascii_of_N (Z.to_N n).

Definition in_range (lo hi : Z) (c : ascii) : bool :=
  (lo <=? ord c) && (ord c <=? hi).

(** [c.isspace()], which is also what [str.strip()] removes and what [\s]
    matches: TAB..CR, FS..US and space, NEL, NBSP. *)
Definition isspace (c : ascii) : bool :=
  in_range 9 13 c || in_range 28 32 c || (ord c =? 133) || (ord c =? 160).

(** The line boundaries of [str.splitlines()]: LF, VT, FF, CR, FS, GS, RS
    and NEL. *)
Definition islinebreak (c : ascii) : bool :=
  in_range 10 13 c || in_range 28 30 c || (ord c =? 133).

(** [c.isdecimal()], what [\d] matches. *)
Definition isdecimal (c : ascii) : bool := in_range 48 57 c.

(** [c.isalnum()]. *)
Definition isalnum (c : ascii) : bool :=
  in_range 48 57 c || in_range 65 90 c || in_range 97 122 c
  || (ord c =? 170) || in_range 178 179 c || (ord c =? 181)
  || in_range 185 186 c || in_range 188 190 c
  || in_range 192 214 c || in_range 216 246 c || in_range 248 255 c.

(** What [\w] matches: an alphanumeric character or the underscore. *)
Definition isword (c : ascii) : bool := isalnum c || (ord c =? 95).

Definition lower_char (c : ascii) : ascii :=
  if in_range 65 90 c || in_range 192 214 c || in_range 216 222 c
  then chr (ord c + 32) else c.

(** *** Strings *)

(** [s.lower()] *)
Definition lower (s : str) : str := map lower_char s.

(** [not s] *)
Definition is_empty {A} (s : list A) : bool :=
  match s with [] => true | _ :: _ => false end.

Fixpoint lstrip (s : str) : str :=
  match s with
  | c :: s' => if isspace c then lstrip s' else s
  | [] => []
  end.

Definition rstrip (s : str) : str := rev (lstrip (rev s)).

(** [s.strip()] *)
Definition strip (s : str) : str := rstrip (lstrip s).

(** [sep.join(parts)] *)
Fixpoint join (sep : str) (parts : list str) : str :=
  match parts with
  | [] => []
  | [p] => p
  | p :: rest => p ++ sep ++ join sep rest
  end.

(** The body of [splitlines]: [cur] holds, in reverse, the characters of the
    line being read; a CR directly followed by LF is one boundary, and a
    boundary at the very end of the text opens no further line. *)
Fixpoint splitlines_from (cur s : str) : list str :=
  match s with
  | [] => [rev cur]
  | c :: s' =>
      if islinebreak c then
        let rest :=
          if eqb_char c "013"%char then
            match s' with
            | d :: s'' => if eqb_char d "010"%char then s'' else s'
            | [] => s'
            end
          else s' in
        rev cur :: match rest with
                   | [] => []
                   | _ :: _ => splitlines_from [] rest
                   end
      else splitlines_from (c :: cur) s'
  end.

(** [s.splitlines()] *)
Definition splitlines (s : str) : list str :=
  match s with
  | [] => []
  | _ :: _ => splitlines_from [] s
  end.

End Py.

Import Py.

(** The newline, ["\n"]. *)
Definition NL : str := ["010"%char].

(** ** The fragment of Python's [re] the source uses

    Every pattern of the source is a sequence of single-character items (a
    literal, a class or the dot), each taken once or under one of the greedy
    quantifiers [?], [*], [+] and [{n,}]. *)

Module Re.

Inductive quant :=
| One                (* x *)
| Opt                (* x? *)
| AtLeast (n : nat). (* x{n,}; x* is x{0,} and x+ is x{1,} *)

Record item := mk_item
  { cls : ascii -> bool;
    qnt : quant }.

Definition pattern := list item.

(** [x{min,}] followed by the continuation [k]: the backtracking matcher
    takes as many characters as it can and gives them back one at a time
    until the rest of the pattern matches. *)
Fixpoint repeat_greedy (f : ascii -> bool) (k : str -> option nat)
  (min : nat) (s : str) : option nat :=
  let stop := match min with O => k s | S _ => None end in
  match s with
  | c :: s' =>
      if f c then
        match repeat_greedy f k (pred min) s' with
        | Some n => Some (S n)
        | None => stop
        end
      else stop
  | [] => stop
  end.

(** The pattern matched at the head of [s]: the length of the match the
    backtracking matcher finds first. *)
Fixpoint match_here (p : pattern) (s : str) {struct p} : option nat :=
  match p with
  | [] => Some O
  | it :: p' =>
      let take :=
        match s with
        | c :: s' =>
            if cls it c then option_map S (match_here p' s') else None
        | [] => None
        end in
      match qnt it with
      | One => take
      | Opt =>
          match take with
          | Some n => Some n
          | None => match_here p' s
          end
      | AtLeast n => repeat_greedy (cls it) (match_here p') n s
      end
  end.

(** [re.search(p, s)]: offset and length of the leftmost match. *)
Fixpoint search (p : pattern) (s : str) : option (nat * nat) :=
  match match_here p s with
  | Some n => Some (O, n)
  | None =>
      match s with
      | [] => None
      | _ :: s' =>
          match search p s' with
          | Some (i, n) => Some (S i, n)
          | None => None
          end
      end
  end.

(** The matched text, [m.group(0)]. *)
Definition group0 (s : str) (m : nat * nat) : str :=
  firstn (snd m) (skipn (fst m) s).

(** The scan of [re.sub(p, repl, s)], left to right; [skip] counts the
    characters of [s] that still belong to the match just replaced.  An
    empty match is replaced too and the scan then moves on by one
    character. *)
Fixpoint sub_scan (p : pattern) (repl s : str) (skip : nat) {struct s}
  : str :=
  match s with
  | [] =>
      match skip with
      | O => match match_here p [] with Some _ => repl | None => [] end
      | S _ => []
      end
  | c :: s' =>
      match skip with
      | S k => sub_scan p repl s' k
      | O =>
          match match_here p s with
          | Some (S n) => repl ++ sub_scan p repl s' n
          | Some O => repl ++ c :: sub_scan p repl s' O
          | None => c :: sub_scan p repl s' O
          end
      end
  end.

(** [re.sub(p, repl, s)] for a replacement without escapes or group
    references. *)
Definition sub (p : pattern) (repl s : str) : str := sub_scan p repl s O.

(** *** Pattern syntax *)

Definition chr_is (c : ascii) : ascii -> bool := eqb_char c.
Definition any_char : ascii -> bool := fun _ => true.
Definition one (f : ascii -> bool) : item := mk_item f One.
Definition opt (f : ascii -> bool) : item := mk_item f Opt.
Definition star (f : ascii -> bool) : item := mk_item f (AtLeast 0).
Definition plus (f : ascii -> bool) : item := mk_item f (AtLeast 1).
Definition at_least (n : nat) (f : ascii -> bool) : item :=
  mk_item f (AtLeast n).

(** *** What a pattern matches

    [matches p w]: the whole of [w] is matched by [p]. *)
Inductive matches : pattern -> str -> Prop :=
| matches_nil : matches [] []
| matches_one it p c w :
    qnt it = One -> cls it c = true -> matches p w ->
    matches (it :: p) (c :: w)
| matches_opt_take it p c w :
    qnt it = Opt -> cls it c = true -> matches p w ->
    matches (it :: p) (c :: w)
| matches_opt_skip it p w :
    qnt it = Opt -> matches p w ->
    matches (it :: p) w
| matches_rep it p n run w :
    qnt it = AtLeast n -> (n <= length run)%nat ->
    forallb (cls it) run = true -> matches p w ->
    matches (it :: p) (run ++ w).

(** [replaced p repl s t]: [t] is [s] with some disjoint, non-empty
    substrings that [p] matches replaced by [repl], and the rest copied. *)
Inductive replaced (p : pattern) (repl : str) : str -> str -> Prop :=
| replaced_nil : replaced p repl [] []
| replaced_copy c s t :
    replaced p repl s t -> replaced p repl (c :: s) (c :: t)
| replaced_match w s t :
    matches p w -> w <> [] -> replaced p repl s t ->
    replaced p repl (w ++ s) (repl ++ t).

End Re.

(** ** The part of Python's [json] the source uses: [json.loads]

    The decoder follows CPython's scanner.  Two limits of the interpreter
    are outside the model: the recursion limit on deeply nested documents and
    the digit limit of [int] on very long integer literals.  A float is kept
    as the text of its literal. *)

Module Json.

#[warnings="-register-all"]
Inductive value :=
| Null
| Bool (b : bool)
| Int (n : Z)
| Float (text : str)
| String (s : list Z)
| Array (items : list value)
| Object (members : list (list Z * value)).

(** [Fail] is a [JSONDecodeError]; [OutOfFuel] is the model's own and never
    comes out of [loads] (see [loads_fuel]). *)
Inductive result (A : Type) :=
| Ok (a : A)
| Fail
| OutOfFuel.

Arguments Ok {A} a.
Arguments Fail {A}.
Arguments OutOfFuel {A}.

(** The code points of a string. *)
Definition points (s : str) : list Z := map ord s.

Definition is_ws (c : ascii) : bool :=
  eqb_char c " " || eqb_char c "009" || eqb_char c "010" || eqb_char c "013".

Fixpoint skip_ws (s : str) : str :=
  match s with
  | c :: s' => if is_ws c then skip_ws s' else s
  | [] => []
  end.

Definition hexval (c : ascii) : option Z :=
  if in_range 48 57 c then Some (ord c - 48)
  else if in_range 97 102 c then Some (ord c - 87)
  else if in_range 65 70 c then Some (ord c - 55)
  else None.

Definition hex4 (a b c d : ascii) : option Z :=
  match hexval a, hexval b, hexval c, hexval d with
  | Some x, Some y, Some z, Some w => Some (((x * 16 + y) * 16 + z) * 16 + w)
  | _, _, _, _ => None
  end.

(** The character a one-letter escape stands for. *)
Definition unescape (e : ascii) : option Z :=
  if eqb_char e "034" then Some 34
  else if eqb_char e "\" then Some 92
  else if eqb_char e "/" then Some 47
  else if eqb_char e "b" then Some 8
  else if eqb_char e "f" then Some 12
  else if eqb_char e "n" then Some 10
  else if eqb_char e "r" then Some 13
  else if eqb_char e "t" then Some 9
  else None.

Definition is_high_surrogate (u : Z) : bool := (55296 <=? u) && (u <=? 56319).
Definition is_low_surrogate (u : Z) : bool := (56320 <=? u) && (u <=? 57343).
Definition join_surrogates (hi lo : Z) : Z :=
  65536 + ((hi - 55296) * 1024 + (lo - 56320)).

(** [scanstring], strict: the text after an opening quote, up to the closing
    quote; [acc] holds the code points read so far, in reverse. *)
Fixpoint scanstring (s : str) (acc : list Z) : option (list Z * str) :=
  match s with
  | [] => None
  | c :: s1 =>
      if eqb_char c "034" then Some (rev acc, s1)
      else if eqb_char c "\" then
        match s1 with
        | [] => None
        | e :: s2 =>
            if eqb_char e "u" then
              match s2 with
              | h1 :: h2 :: h3 :: h4 :: s3 =>
                  match hex4 h1 h2 h3 h4 with
                  | None => None
                  | Some uni =>
                      if is_high_surrogate uni then
                        match s3 with
                        | b :: u :: g1 :: g2 :: g3 :: g4 :: s4 =>
                            if eqb_char b "\" && eqb_char u "u" then
                              match hex4 g1 g2 g3 g4 with
                              | None => None
                              | Some uni2 =>
                                  if is_low_surrogate uni2
                                  then scanstring s4
                                         (join_surrogates uni uni2 :: acc)
                                  else scanstring s3 (uni :: acc)
                              end
                            else scanstring s3 (uni :: acc)
                        | _ => scanstring s3 (uni :: acc)
                        end
                      else scanstring s3 (uni :: acc)
                  end
              | _ => None
              end
            else
              match unescape e with
              | Some x => scanstring s2 (x :: acc)
              | None => None
              end
        end
      else if ord c <=? 31 then None
      else scanstring s1 (ord c :: acc)
  end.

(** The leading decimal digits of [s], and what follows them. *)
Fixpoint span_digits (s : str) : str * str :=
  match s with
  | c :: s' =>
      if isdecimal c then let '(ds, rest) := span_digits s' in (c :: ds, rest)
      else ([], s)
  | [] => ([], [])
  end.

Definition digits_value (ds : str) : Z :=
  fold_left (fun n c => n * 10 + (ord c - 48)) ds 0.

(** A number literal at the head of [s]: an optional minus sign; a zero, or
    a digit from 1 to 9 and further digits; an optional fraction, a dot and
    one or more digits; an optional exponent, [e] or [E], an optional sign and
    one or more digits. *)
Definition match_number (s : str) : option (value * str) :=
  let '(sign, s1) :=
    match s with
    | c :: s' => if eqb_char c "-" then ([c], s') else ([], s)
    | [] => ([], s)
    end in
  let int_part :=
    match s1 with
    | c :: s' =>
        if eqb_char c "0" then Some ([c], s')
        else if in_range 49 57 c then Some (span_digits s1)
        else None
    | [] => None
    end in
  match int_part with
  | None => None
  | Some (ds, s2) =>
      let '(frac, s3) :=
        match s2 with
        | dot :: ((d :: _) as s') =>
            if eqb_char dot "." && isdecimal d
            then let '(fs, rest) := span_digits s' in (dot :: fs, rest)
            else ([], s2)
        | _ => ([], s2)
        end in
      let '(expo, s4) :=
        match s3 with
        | e :: s' =>
            if eqb_char e "e" || eqb_char e "E" then
              let '(esign, s'') :=
                match s' with
                | c :: t =>
                    if eqb_char c "-" || eqb_char c "+" then ([c], t)
                    else ([], s')
                | [] => ([], s')
                end in
              match span_digits s'' with
              | ([], _) => ([], s3)
              | (es, rest) => (e :: esign ++ es, rest)
              end
            else ([], s3)
        | [] => ([], s3)
        end in
      if is_empty frac && is_empty expo then
        Some (Int (if is_empty sign then digits_value ds
                   else - digits_value ds), s4)
      else Some (Float (sign ++ ds ++ frac ++ expo), s4)
  end.

(** [d[key] = v] on a dictionary kept in insertion order. *)
Fixpoint dict_set (d : list (list Z * value)) (key : list Z) (v : value)
  : list (list Z * value) :=
  match d with
  | [] => [(key, v)]
  | (k, x) :: d' =>
      if list_eq_dec Z.eq_dec k key then (k, v) :: d'
      else (k, x) :: dict_set d' key v
  end.

(** A constant of the document at the head of [s]. *)
Definition keyword (word : string) (v : value) (s : str)
  : option (value * str) :=
  if startswith (lit word) s
  then Some (v, skipn (length (lit word)) s)
  else None.

(** [scan_once] with the loops of [JSONObject] and [JSONArray]: the value at
    the head of [s] and the text after it.  [members] starts at the quote of a
    key, [items] at an element. *)
Fixpoint scan_once (fuel : nat) (s : str) {struct fuel}
  : result (value * str) :=
  match fuel with
  | O => OutOfFuel
  | S fuel' =>
      match s with
      | [] => Fail
      | c :: s1 =>
          if eqb_char c "034" then
            match scanstring s1 [] with
            | Some (x, rest) => Ok (String x, rest)
            | None => Fail
            end
          else if eqb_char c "{" then
            match skip_ws s1 with
            | d :: rest =>
                if eqb_char d "}" then Ok (Object [], rest)
                else members fuel' (d :: rest) []
            | [] => Fail
            end
          else if eqb_char c "[" then
            match skip_ws s1 with
            | d :: rest =>
                if eqb_char d "]" then Ok (Array [], rest)
                else items fuel' (d :: rest) []
            | [] => Fail
            end
          else
            let first_of (l : list (option (value * str))) :=
              match
                find (fun o => match o with Some _ => true | None => false end)
                  l
              with
              | Some (Some r) => Ok r
              | _ => Fail
              end in
            first_of
              [ keyword "null" Null s;
                keyword "true" (Bool true) s;
                keyword "false" (Bool false) s;
                match_number s;
                keyword "NaN" (Float (lit "NaN")) s;
                keyword "Infinity" (Float (lit "Infinity")) s;
                keyword "-Infinity" (Float (lit "-Infinity")) s ]
      end
  end

with members (fuel : nat) (s : str) (acc : list (list Z * value))
  {struct fuel} : result (value * str) :=
  match fuel with
  | O => OutOfFuel
  | S fuel' =>
      match s with
      | q :: s1 =>
          if eqb_char q "034" then
            match scanstring s1 [] with
            | None => Fail
            | Some (key, s2) =>
                match skip_ws s2 with
                | colon :: s3 =>
                    if eqb_char colon ":" then
                      match scan_once fuel' (skip_ws s3) with
                      | Ok (v, s4) =>
                          let acc' := dict_set acc key v in
                          match skip_ws s4 with
                          | d :: s5 =>
                              if eqb_char d "}" then Ok (Object acc', s5)
                              else if eqb_char d ","
                              then members fuel' (skip_ws s5) acc'
                              else Fail
                          | [] => Fail
                          end
                      | Fail => Fail
                      | OutOfFuel => OutOfFuel
                      end
                    else Fail
                | [] => Fail
                end
            end
          else Fail
      | [] => Fail
      end
  end

with items (fuel : nat) (s : str) (acc : list value) {struct fuel}
  : result (value * str) :=
  match fuel with
  | O => OutOfFuel
  | S fuel' =>
      match scan_once fuel' s with
      | Ok (v, s1) =>
          let acc' := acc ++ [v] in
          match skip_ws s1 with
          | d :: s2 =>
              if eqb_char d "]" then Ok (Array acc', s2)
              else if eqb_char d "," then items fuel' (skip_ws s2) acc'
              else Fail
          | [] => Fail
          end
      | Fail => Fail
      | OutOfFuel => OutOfFuel
      end
  end.

(** [json.loads(s)]: one value, with whitespace allowed around it and nothing
    else after it.  Each level of nesting takes two units of fuel. *)
Definition loads (s : str) : result value :=
  match scan_once (S (2 * length s)) (skip_ws s) with
  | Ok (v, rest) => if is_empty (skip_ws rest) then Ok v else Fail
  | Fail => Fail
  | OutOfFuel => OutOfFuel
  end.

End Json.

(** ** core/preprocess.py *)

Definition SYSTEM_NOISE_PHRASES : list str :=
  [ lit "Messages and calls are end-to-end encrypted";
    lit "You changed your phone number";
    lit "joined using this group's invite link";
    lit "created group";
    lit "added";
    lit "left";
    lit "changed the subject";
    lit "changed this group's icon";
    lit "This message was deleted";
    lit "Missed voice call";
    lit "Missed video call" ].

Definition ATTACHMENT_MARKERS : list str :=
  [ lit "<Media omitted>";
    lit "image omitted";
    lit "video omitted";
    lit "GIF omitted";
    lit "audio omitted";
    lit "document omitted";
    lit "sticker omitted";
    lit "attached" ].

(** [[\w\.-]] *)
Definition email_char (c : ascii) : bool :=
  isword c || Re.chr_is "." c || Re.chr_is "-" c.

(** [[\d\s\-\(\)]] *)
Definition phone_char (c : ascii) : bool :=
  isdecimal c || isspace c || Re.chr_is "-" c || Re.chr_is "(" c
  || Re.chr_is ")" c.

(** [r"[\w\.-]+@[\w\.-]+\.\w+"] *)
Definition EMAIL_RE : Re.pattern :=
  [ Re.plus email_char; Re.one (Re.chr_is "@"); Re.plus email_char;
    Re.one (Re.chr_is "."); Re.plus isword ].

(** [r"\+?\d[\d\s\-\(\)]{7,}\d"] *)
Definition PHONE_RE : Re.pattern :=
  [ Re.opt (Re.chr_is "+"); Re.one isdecimal; Re.at_least 7 phone_char;
    Re.one isdecimal ].

Definition EMAIL : str := lit "[EMAIL]".
Definition PHONE : str := lit "[PHONE]".

Definition mask_pii (text : str) : str :=
  let text := Re.sub EMAIL_RE EMAIL text in
  let text := Re.sub PHONE_RE PHONE text in
  text.

(** An email-like token: [local@domain.tld]. *)
Definition email_token (w : str) : Prop :=
  exists local domain tld : str,
    w = local ++ lit "@" ++ domain ++ lit "." ++ tld
    /\ local <> [] /\ forallb email_char local = true
    /\ domain <> [] /\ forallb email_char domain = true
    /\ tld <> [] /\ forallb isword tld = true.

(** A phone-like token: an optional [+], a digit, seven or more digits,
    whitespace characters, dashes or parentheses, and a digit. *)
Definition phone_token (w : str) : Prop :=
  exists (sign : str) (first : ascii) (interior : str) (last : ascii),
    w = sign ++ [first] ++ interior ++ [last]
    /\ (sign = [] \/ sign = lit "+")
    /\ isdecimal first = true
    /\ (7 <= length interior)%nat /\ forallb phone_char interior = true
    /\ isdecimal last = true.

(** The square brackets of the placeholders. *)
Definition bracket (c : ascii) : bool :=
  eqb_char "[" c || eqb_char "]" c.

(** The [stats] dictionary of [clean_whatsapp_text]. *)
Record stats := mk_stats
  { original_lines : Z;
    kept_lines_window : Z;
    removed_noise_lines : Z;
    final_chars : Z }.

(** [any(p.lower() in s.lower() for p in phrases)] *)
Definition any_phrase_in (phrases : list str) (s : str) : bool :=
  existsb (fun p => contains (lower p) (lower s)) phrases.

(** The [for ln in lines] loop, with its two variables [cleaned] and
    [removed]. *)
Fixpoint filter_lines (remove_system remove_attachments : bool)
  (lines : list str) (cleaned : list str) (removed : Z) : list str * Z :=
  match lines with
  | [] => (cleaned, removed)
  | ln :: rest =>
      let s := strip ln in
      if is_empty s then
        filter_lines remove_system remove_attachments rest cleaned removed
      else if remove_system && any_phrase_in SYSTEM_NOISE_PHRASES s then
        filter_lines remove_system remove_attachments rest cleaned
          (removed + 1)
      else if remove_attachments && any_phrase_in ATTACHMENT_MARKERS s then
        filter_lines remove_system remove_attachments rest cleaned
          (removed + 1)
      else
        filter_lines remove_system remove_attachments rest (cleaned ++ [s])
          removed
  end.

(** A line the loop of [clean_whatsapp_text] counts as removed: not blank,
    and a system-noise line or an attachment line under the flags. *)
Definition dropped_line (remove_system remove_attachments : bool) (ln : str)
  : bool :=
  negb (is_empty (strip ln))
  && ((remove_system && any_phrase_in SYSTEM_NOISE_PHRASES (strip ln))
      || (remove_attachments && any_phrase_in ATTACHMENT_MARKERS (strip ln))).

(** A line the loop keeps. *)
Definition kept_line (remove_system remove_attachments : bool) (ln : str)
  : bool :=
  negb (is_empty (strip ln))
  && negb (dropped_line remove_system remove_attachments ln).

(** [lines[-keep_last_lines:]] when [keep_last_lines] is truthy and positive. *)
Definition window (keep_last_lines : Z) (lines : list str) : list str :=
  if negb (keep_last_lines =? 0) && (0 <? keep_last_lines)
  then slice_from lines (- keep_last_lines)
  else lines.

Definition clean_whatsapp_text (raw_text : str) (keep_last_lines : Z)
  (remove_system remove_attachments pii_mask : bool) : str * stats :=
  let lines := splitlines raw_text in
  let original_lines := len lines in
  let lines := window keep_last_lines lines in
  let '(cleaned, removed) :=
    filter_lines remove_system remove_attachments lines [] 0 in
  let text := join NL cleaned in
  let text := if pii_mask then mask_pii text else text in
  (text,
   {| original_lines := original_lines;
      kept_lines_window := len lines;
      removed_noise_lines := removed;
      final_chars := len text |}).

(** ** core/summarizer.py: [_chunk_text] *)

(** The variables of the [while] loop of [_chunk_text]. *)
Record chunk_state := mk_chunk_state
  { cs_start : Z;
    cs_chunks : list str }.

(** The cut position the loop body chooses at [start]. *)
Definition chunk_cut (text : str) (max_chars start : Z) : Z :=
  let end_ := Z.min (start + max_chars) (len text) in
  let cut := rfind text NL start end_ in
  if (cut =? -1) || (cut <=? start + 1000) then end_ else cut.

(** One execution of the loop body. *)
Definition chunk_step (text : str) (max_chars : Z) (st : chunk_state)
  : chunk_state :=
  let start := cs_start st in
  let cut := chunk_cut text max_chars start in
  {| cs_start := cut;
     cs_chunks := cs_chunks st ++ [slice text start cut] |}.

(** [while start < len(text): ...]; [fuel] bounds the number of executions of
    the body, and [None] means the loop is still running after [fuel] of
    them. *)
Fixpoint chunk_loop (fuel : nat) (text : str) (max_chars : Z)
  (st : chunk_state) : option chunk_state :=
  if cs_start st <? len text then
    match fuel with
    | O => None
    | S fuel' => chunk_loop fuel' text max_chars (chunk_step text max_chars st)
    end
  else Some st.

Definition chunk_text_fuel (fuel : nat) (text : str) (max_chars : Z)
  : option (list str) :=
  if len text <=? max_chars then Some [text]
  else
    option_map cs_chunks
      (chunk_loop fuel text max_chars {| cs_start := 0; cs_chunks := [] |}).

(** [_chunk_text(text, max_chars)], run for at most [len(text)] executions of
    the loop body (enough whenever [max_chars >= 1], see
    [chunk_loop_spec]). *)
Definition _chunk_text (text : str) (max_chars : Z) : option (list str) :=
  chunk_text_fuel (length text) text max_chars.

(** ** core/summarizer.py: prompts, provider calls and JSON recovery *)

(** A literal of the source that holds double quotes, written here with a
    backquote for each of them. *)
Definition quoted (s : string) : str :=
  map (fun c => if eqb_char c "`" then "034"%char else c) (lit s).

Definition CHUNK_PROMPT : str := quoted
"You are a privacy-conscious relationship assistant.
Summarize the following WhatsApp chat chunk for the USER (not for the other person).
Focus only on relationship-relevant memory.

Return STRICT JSON with keys:
- `key_topics`: array of short strings
- `notable_facts`: array of short strings (only if clearly in text; no guessing)
- `open_loops`: array of short strings (promises, follow-ups, unanswered questions)
- `tone`: one of [`warm`,`neutral`,`tense`,`mixed`,`unknown`]
- `time_signals`: array of short strings

Rules:
- Do NOT include sensitive content unless necessary for follow-up.
- If the chunk is mostly noise, return empty arrays and tone=`unknown`.
- No extra keys. No markdown. JSON only.
".

Definition REDUCE_PROMPT : str := quoted
"You are a privacy-conscious relationship assistant.
You will receive multiple JSON chunk summaries of a WhatsApp chat.
Merge them into a final, actionable relationship summary.

Return STRICT JSON with keys:
- `relationship_summary`: array of 2-4 bullet strings (facts only, no guessing)
- `key_topics`: array of up to 8 short strings
- `open_loops`: array of up to 6 short strings
- `suggested_next_action`: array of 1-3 bullet strings (timing + what to do)
- `message_drafts`: object with keys `whatsapp`, `linkedin`, `email` (each max 70 words)
- `confidence_note`: one short string explaining any missing context

Rules:
- Be warm, human, not salesy.
- If information is insufficient, ask 1 clarifying question inside `confidence_note`.
- No extra keys. No markdown. JSON only.
".

(** The exceptions of the model.  [ProviderError] stands for whatever lines
    74 to 83 of the summarizer raise before the text of the answer is there:
    the error of the chat-completion call, or the one of reading
    [resp.choices[0].message.content.strip()] from an answer without
    choices or without text.  The errors of the interpreter's limits in
    [json.loads] ([RecursionError], the [ValueError] of [int] on a literal
    over the digit limit) are outside the model, as in [Json]. *)
Inductive exn :=
| RuntimeError (msg : str)     (* raised by [_get_client] *)
| ValueError (msg : str)       (* raised by [_call_openai_json] *)
| JSONDecodeError (doc : str)  (* raised by [json.loads] on [doc] *)
| ProviderError.               (* raised by the call or by reading its text *)

(** The error of [_get_client]. *)
Definition not_set : exn := RuntimeError (lit "OPENAI_API_KEY is not set.").

Inductive outcome (A : Type) :=
| Return (a : A)
| Raise (e : exn)
| Diverge.

Arguments Return {A} a.
Arguments Raise {A} e.
Arguments Diverge {A}.

(** One chat-completion request: [model], [temperature] and the contents of
    the system and the user message. *)
Record request := mk_request
  { req_model : str;
    req_temperature : str;
    req_system : str;
    req_user : str }.

(** The requests sent to the provider so far, oldest first. *)
Definition trace := list request.

(** A computation that sends requests and may raise. *)
Definition M (A : Type) : Type := trace -> outcome A * trace.

Definition ret {A} (a : A) : M A := fun tr => (Return a, tr).

Definition bind {A B} (m : M A) (k : A -> M B) : M B :=
  fun tr =>
    match m tr with
    | (Return a, tr') => k a tr'
    | (Raise e, tr') => (Raise e, tr')
    | (Diverge, tr') => (Diverge, tr')
    end.

Definition lift {A} (o : outcome A) : M A := fun tr => (o, tr).

Notation "x <- m ;; k" := (bind m (fun x => k))
  (at level 61, m at next level, right associativity).

(** [r"\{.*\}"] under [re.S], where the dot matches every character. *)
Definition BRACES_RE : Re.pattern :=
  [ Re.one (Re.chr_is "{"); Re.star Re.any_char; Re.one (Re.chr_is "}") ].

(** The span from the first [{] through the last [}] of [txt], as offset and
    length, when the first [{] comes before the last [}]. *)
Definition braces_span (txt : str) : option (nat * nat) :=
  match first_occ (lit "{") txt, last_occ (lit "}") txt with
  | Some i, Some j => if (i <? j)%nat then Some (i, j - i + 1)%nat else None
  | _, _ => None
  end.

(** The end of [_call_openai_json], from [.strip()] on: the JSON recovery of
    the model output [content]. *)
Definition parse_model_output (content : str) : outcome Json.value :=
  let txt := strip content in
  match Json.loads txt with
  | Json.Ok v => Return v
  | Json.OutOfFuel => Diverge
  | Json.Fail =>
      match Re.search BRACES_RE txt with
      | Some m =>
          match Json.loads (Re.group0 txt m) with
          | Json.Ok v => Return v
          | Json.Fail => Raise (JSONDecodeError (Re.group0 txt m))
          | Json.OutOfFuel => Diverge
          end
      | None =>
          Raise (ValueError (lit "Model did not return valid JSON:" ++ NL
                             ++ txt))
      end
  end.

(** [str(n)] *)
Definition str_of_int (n : Z) : str :=
  lit (NilZero.string_of_int (Z.to_int n)).

(** The f-string of the map stage. *)
Definition chunk_payload (person_name purpose tone channel : str)
  (i n : Z) (ch : str) : str :=
  lit "Context:
- Person name: " ++ person_name ++ lit "
- Purpose: " ++ purpose ++ lit "
- Desired tone for drafts: " ++ tone ++ lit "
- Primary channel: " ++ channel ++ lit "

Chat chunk " ++ str_of_int i ++ lit "/" ++ str_of_int n ++ lit ":
" ++ ch ++ lit "
".

Section Summarizer.

(** The environment variable [OPENAI_API_KEY], if set. *)
Variable api_key : option str.

(** The provider, as an oracle: given the requests already sent and a new
    request, the content of the first choice of its answer, or [None] when
    the call raises or its answer has no such text. *)
Variable provider : trace -> request -> option str.

(** [json.dumps(_, ensure_ascii=False)] *)
Variable json_dumps : Json.value -> str.

(** [_get_client()]; the client is represented by its key. *)
Definition _get_client : outcome str :=
  match api_key with
  | None => Raise (RuntimeError (lit "OPENAI_API_KEY is not set."))
  | Some key =>
      if is_empty key
      then Raise (RuntimeError (lit "OPENAI_API_KEY is not set."))
      else Return key
  end.

(** [client.chat.completions.create(...)], then
    [resp.choices[0].message.content]; the request counts as sent whether
    or not a text comes back. *)
Definition create (req : request) : M str :=
  fun tr =>
    match provider tr req with
    | Some content => (Return content, tr ++ [req])
    | None => (Raise ProviderError, tr ++ [req])
    end.

Definition _call_openai_json (system_prompt user_content model : str)
  : M Json.value :=
  _ <- lift _get_client ;;
  content <- create {| req_model := model;
                       req_temperature := lit "0.3";
                       req_system := system_prompt;
                       req_user := user_content |} ;;
  lift (parse_model_output content).

(** The [for i, ch in enumerate(chunks, start=1)] loop; [n] is
    [len(chunks)]. *)
Fixpoint map_stage (person_name purpose tone channel model : str) (n : Z)
  (chunks : list str) (i : Z) (chunk_summaries : list Json.value)
  : M (list Json.value) :=
  match chunks with
  | [] => ret chunk_summaries
  | ch :: rest =>
      summary <- _call_openai_json CHUNK_PROMPT
                   (chunk_payload person_name purpose tone channel i n ch)
                   model ;;
      map_stage person_name purpose tone channel model n rest (i + 1)
        (chunk_summaries ++ [summary])
  end.

(** [{"chunk_summaries": chunk_summaries}] *)
Definition reduce_object (chunk_summaries : list Json.value) : Json.value :=
  Json.Object
    [(Json.points (lit "chunk_summaries"), Json.Array chunk_summaries)].

Definition summarize_whatsapp_hybrid
  (clean_text person_name purpose tone channel model : str) : M Json.value :=
  match _chunk_text clean_text 9000 with
  | None => lift Diverge
  | Some chunks =>
      chunk_summaries <-
        map_stage person_name purpose tone channel model (len chunks) chunks 1
          [] ;;
      let reduce_payload := json_dumps (reduce_object chunk_summaries) in
      _call_openai_json REDUCE_PROMPT reduce_payload model
  end.

End Summarizer.

(** The request of the map stage for chunk [i] of [n]. *)
Definition map_request (person_name purpose tone channel model : str)
  (n i : Z) (ch : str) : request :=
  {| req_model := model;
     req_temperature := lit "0.3";
     req_system := CHUNK_PROMPT;
     req_user := chunk_payload person_name purpose tone channel i n ch |}.

(** The requests of the map stage for [chunks], numbered from [i], in chunk
    order. *)
Fixpoint map_requests (person_name purpose tone channel model : str) (n : Z)
  (chunks : list str) (i : Z) : list request :=
  match chunks with
  | [] => []
  | ch :: rest =>
      map_request person_name purpose tone channel model n i ch
      :: map_requests person_name purpose tone channel model n rest (i + 1)
  end.

(** The request of the reduce stage. *)
Definition reduce_request (model payload : str) : request :=
  {| req_model := model;
     req_temperature := lit "0.3";
     req_system := REDUCE_PROMPT;
     req_user := payload |}.

Definition eqb_str (a b : str) : bool :=
  if list_eq_dec ascii_dec a b then true else false.

(** A request that carries the reduce prompt. *)
Definition is_reduce (r : request) : bool :=
  eqb_str (req_system r) REDUCE_PROMPT.

(** [answered provider tr reqs summaries]: sent one after the other after the
    requests [tr], each request of [reqs] is answered by the provider and the
    answer parses to the summary at the same position. *)
Fixpoint answered (provider : trace -> request -> option str) (tr : trace)
  (reqs : list request) (summaries : list Json.value) : Prop :=
  match reqs, summaries with
  | [], [] => True
  | r :: reqs', v :: summaries' =>
      (exists content : str,
          provider tr r = Some content
          /\ parse_model_output content = Return v)
      /\ answered provider (tr ++ [r]) reqs' summaries'
  | _, _ => False
  end.

(** The slices of [text] between consecutive positions of [bounds]. *)
Fixpoint slices (text : str) (bounds : list Z) : list str :=
  match bounds with
  | p :: ((q :: _) as rest) => slice text p q :: slices text rest
  | _ => []
  end.

(** ** parsers/whatsapp_txt.py

    [bytes.decode("utf-8", errors="ignore")] follows CPython's decoder: a
    byte that cannot start a sequence is skipped, a sequence broken by a byte
    that cannot continue it is skipped up to that byte, and a sequence cut
    off by the end of the data is dropped.  The decoded text is a list of
    code points. *)

Module Utf8.

(** The value of a byte. *)
Definition val (b : Byte.byte) : Z := Z.of_N (Byte.to_N b).

(** The byte of value [n], for [0 <= n < 256]. *)
Definition byte_of (n : Z) : Byte.byte :=
  match Byte.of_N (Z.to_N n) with
  | Some b => b
  | None => Byte.x00
  end.

(** A continuation byte, [10xxxxxx]. *)
Definition is_cont (b : Byte.byte) : bool := (128 <=? val b) && (val b <? 192).

Fixpoint decode_ignore (s : list Byte.byte) : list Z :=
  match s with
  | [] => []
  | b0 :: s1 =>
      let ch := val b0 in
      if ch <? 128 then ch :: decode_ignore s1
      else if ch <? 224 then
        (* two bytes, U+0080..U+07FF *)
        if ch <? 194 then decode_ignore s1
        else
          match s1 with
          | [] => []
          | b1 :: s2 =>
              if is_cont b1
              then (ch * 64 + val b1 - 12416) :: decode_ignore s2
              else decode_ignore s1
          end
      else if ch <? 240 then
        (* three bytes, U+0800..U+FFFF without the surrogates *)
        match s1 with
        | [] => []
        | b1 :: s2 =>
            if negb (is_cont b1)
               || (if val b1 <? 160 then ch =? 224 else ch =? 237)
            then decode_ignore s1
            else
              match s2 with
              | [] => []
              | b2 :: s3 =>
                  if is_cont b2
                  then (ch * 4096 + val b1 * 64 + val b2 - 925824)
                       :: decode_ignore s3
                  else decode_ignore s2
              end
        end
      else if ch <? 245 then
        (* four bytes, U+10000..U+10FFFF *)
        match s1 with
        | [] => []
        | b1 :: s2 =>
            if negb (is_cont b1)
               || (if val b1 <? 144 then ch =? 240 else ch =? 244)
            then decode_ignore s1
            else
              match s2 with
              | [] => []
              | b2 :: s3 =>
                  if is_cont b2 then
                    match s3 with
                    | [] => []
                    | b3 :: s4 =>
                        if is_cont b3
                        then (ch * 262144 + val b1 * 4096 + val b2 * 64
                              + val b3 - 63447168)
                             :: decode_ignore s4
                        else decode_ignore s3
                    end
                  else decode_ignore s2
              end
        end
      else decode_ignore s1
  end.

(** The UTF-8 encoding of a code point. *)
Definition encode_point (cp : Z) : list Byte.byte :=
  if cp <? 128 then [byte_of cp]
  else if cp <? 2048 then
    [byte_of (192 + cp / 64); byte_of (128 + cp mod 64)]
  else if cp <? 65536 then
    [byte_of (224 + cp / 4096); byte_of (128 + (cp / 64) mod 64);
     byte_of (128 + cp mod 64)]
  else
    [byte_of (240 + cp / 262144); byte_of (128 + (cp / 4096) mod 64);
     byte_of (128 + (cp / 64) mod 64); byte_of (128 + cp mod 64)].

(** [text.encode("utf-8")] *)
Definition encode (text : list Z) : list Byte.byte :=
  concat (map encode_point text).

(** A Unicode scalar value: a code point that is not a surrogate. *)
Definition scalar (cp : Z) : Prop :=
  0 <= cp <= 1114111 /\ ~ (55296 <= cp <= 57343).

End Utf8.

(** [read_txt_file(uploaded_file)], the uploaded file being given by the
    bytes its [read()] returns. *)
Definition read_txt_file (data : list Byte.byte) : list Z :=
  Utf8.decode_ignore data.

(** ** Notions used to state further properties *)

(** A line that is empty once stripped. *)
Definition blank_line (ln : str) : bool := is_empty (strip ln).

(** A text without line-boundary characters. *)
Definition one_line (l : str) : Prop :=
  forall c, In c l -> islinebreak c = false.

(** [adjacent R l]: [R] holds of every two consecutive elements of [l]. *)
Fixpoint adjacent {A} (R : A -> A -> Prop) (l : list A) : Prop :=
  match l with
  | x :: ((y :: _) as rest) => R x y /\ adjacent R rest
  | _ => True
  end.

(** How [_chunk_text] ends a chunk that is not the last: with a hard cut
    after [max_chars] characters, or before a newline more than 1000
    characters into the chunk, which then opens the next chunk. *)
Definition cut_between (max_chars : Z) (c next : str) : Prop :=
  len c = max_chars
  \/ (1000 < len c < max_chars /\ startswith NL next = true).

(** What [_call_openai_json] gives for the request [req] sent after the
    requests [tr], once the key is there: the recovered JSON of the
    provider's answer, or the error raised. *)
Definition answer (provider : trace -> request -> option str) (tr : trace)
  (req : request) : outcome Json.value :=
  match provider tr req with
  | Some content => parse_model_output content
  | None => Raise ProviderError
  end.

(** An error a call of [_call_openai_json] can raise once the key is there:
    the provider's own, or one of the two of the JSON recovery. *)
Definition call_error (e : exn) : Prop :=
  match e with
  | RuntimeError _ => False
  | ValueError _ | JSONDecodeError _ | ProviderError => True
  end.

(** ** app.py *)

(** The preview of the cleaned text,
    ["\n".join(clean_text.splitlines()[:60])]. *)
Definition preview (clean_text : str) : str :=
  join NL (firstn 60 (splitlines clean_text)).



(* ================================================================= *)
(** * Part II: theorems *)
(* ================================================================= *)

Example chunk_small :
  _chunk_text (lit "ab
cd") 2 = Some [lit "ab"; lit "
c"; lit "d"].
Proof. reflexivity. Qed.

(** ** Python slices and [rfind] *)

Lemma len_nonneg {A} (s : list A) : 0 <= len s.
Proof. unfold len. lia. Qed.

Lemma clamp_in_range (n i : Z) : 0 <= i <= n -> clamp n i = i.
Proof.
  intros H. unfold clamp.
  destruct (Z.ltb_spec i 0); lia.
Qed.

Lemma slice_in_range {A} (s : list A) (i j : Z) :
  0 <= i -> i <= j -> j <= len s ->
  slice s i j = firstn (Z.to_nat (j - i)) (skipn (Z.to_nat i) s).
Proof.
  intros Hi Hij Hj. unfold slice.
  rewrite !clamp_in_range by lia. reflexivity.
Qed.

Lemma firstn_plus {A} (s : list A) (n m : nat) :
  firstn n s ++ firstn m (skipn n s) = firstn (n + m) s.
Proof.
  revert s. induction n as [|n IH]; intros s; simpl.
  - reflexivity.
  - destruct s as [|x s]; simpl.
    + now rewrite firstn_nil.
    + now rewrite IH.
Qed.

Lemma firstn_app_slice {A} (s : list A) (i j : Z) :
  0 <= i -> i <= j -> j <= len s ->
  firstn (Z.to_nat i) s ++ slice s i j = firstn (Z.to_nat j) s.
Proof.
  intros Hi Hij Hj. rewrite slice_in_range by assumption.
  rewrite firstn_plus. f_equal. lia.
Qed.

Lemma len_slice {A} (s : list A) (i j : Z) :
  0 <= i -> i <= j -> j <= len s -> len (slice s i j) = j - i.
Proof.
  intros Hi Hij Hj. rewrite slice_in_range by assumption.
  unfold len in *. rewrite length_firstn, length_skipn. lia.
Qed.

Lemma slice_full {A} (s : list A) : slice s 0 (len s) = s.
Proof.
  pose proof (len_nonneg s).
  rewrite slice_in_range by lia. simpl.
  apply firstn_all2. unfold len. lia.
Qed.

Lemma last_occ_bound (c : ascii) (s : str) (k : nat) :
  last_occ [c] s = Some k -> (k < length s)%nat.
Proof.
  revert k. induction s as [|a s IH]; intros k; simpl.
  - discriminate.
  - destruct (last_occ [c] s) as [k'|].
    + intros [= <-]. specialize (IH k' eq_refl). lia.
    + destruct (eqb_char c a && true); [intros [= <-]; lia | discriminate].
Qed.

Lemma last_occ_char (c : ascii) (s : str) (k : nat) :
  last_occ [c] s = Some k -> nth_error s k = Some c.
Proof.
  revert k. induction s as [|a s IH]; intros k; simpl.
  - discriminate.
  - destruct (last_occ [c] s) as [k'|].
    + intros [= <-]. simpl. now apply IH.
    + unfold eqb_char. destruct (Ascii.eqb_spec c a); simpl.
      * intros [= <-]. simpl. now subst.
      * discriminate.
Qed.

(** Within [0 <= start] and [0 <= end <= len(s)], [rfind] of a one-character
    string answers [-1] or a position of the window [start, end). *)
Lemma rfind_char_range (s : str) (c : ascii) (a b : Z) :
  0 <= a -> 0 <= b <= len s ->
  rfind s [c] a b = -1 \/ (a <= rfind s [c] a b < b).
Proof.
  intros Ha Hb. unfold rfind, adjust_start, adjust_end.
  destruct (Z.ltb_spec a 0); [lia|].
  destruct (Z.ltb_spec (len s) b); [lia|].
  destruct (Z.ltb_spec b 0); [lia|].
  destruct (Z.ltb_spec (b - a) (len [c])); [now left|].
  destruct (last_occ [c] _) as [k|] eqn:E; [|now left].
  right. apply last_occ_bound in E. rewrite length_firstn in E. lia.
Qed.

(** The position [rfind] answers holds the character looked for. *)
Lemma rfind_char_found (s : str) (c : ascii) (a b : Z) :
  0 <= a -> 0 <= b <= len s -> rfind s [c] a b <> -1 ->
  nth_error s (Z.to_nat (rfind s [c] a b)) = Some c.
Proof.
  intros Ha Hb. unfold rfind, adjust_start, adjust_end.
  destruct (Z.ltb_spec a 0); [lia|].
  destruct (Z.ltb_spec (len s) b); [lia|].
  destruct (Z.ltb_spec b 0); [lia|].
  destruct (Z.ltb_spec (b - a) (len [c])); [congruence|].
  destruct (last_occ [c] _) as [k|] eqn:E; [|congruence].
  intros _. apply last_occ_char in E.
  assert (Hk : (k < Z.to_nat (b - a))%nat).
  { assert (Hn : nth_error (firstn (Z.to_nat (b - a)) (skipn (Z.to_nat a) s)) k
                 <> None) by congruence.
    apply nth_error_Some in Hn. rewrite length_firstn in Hn. lia. }
  rewrite nth_error_firstn in E.
  destruct (Nat.ltb_spec k (Z.to_nat (b - a))); [|lia].
  rewrite nth_error_skipn in E.
  replace (Z.to_nat (a + Z.of_nat k)) with (Z.to_nat a + k)%nat by lia.
  exact E.
Qed.

(** ** The loop body of [_chunk_text] *)

Section ChunkStep.

Variable text : str.
Variable max_chars : Z.
Hypothesis max_chars_pos : 1 <= max_chars.

(** Either the hard cut at [end], or a cut found by [rfind] more than 1000
    characters after [start]. *)
Lemma chunk_cut_cases (start : Z) :
  0 <= start ->
  let end_ := Z.min (start + max_chars) (len text) in
  chunk_cut text max_chars start = end_ \/
  (chunk_cut text max_chars start = rfind text NL start end_ /\
   start + 1000 < chunk_cut text max_chars start < end_).
Proof.
  intros Hs end_. unfold chunk_cut. fold end_.
  destruct (rfind_char_range text "010"%char start end_ Hs) as [E|R].
  - pose proof (len_nonneg text). subst end_. lia.
  - left. change [("010"%char)] with NL in E. rewrite E. reflexivity.
  - change [("010"%char)] with NL in R.
    destruct (Z.eqb_spec (rfind text NL start end_) (-1)); [now left|].
    destruct (Z.leb_spec (rfind text NL start end_) (start + 1000));
      [now left|].
    right. simpl. lia.
Qed.

Lemma chunk_cut_progress (start : Z) :
  0 <= start < len text ->
  start < chunk_cut text max_chars start <=
    Z.min (start + max_chars) (len text).
Proof.
  intros Hs.
  destruct (chunk_cut_cases start) as [E|[_ R]]; lia.
Qed.

End ChunkStep.

(** ** The loop of [_chunk_text] *)

Lemma chunk_loop_unfold (fuel : nat) (text : str) (max_chars : Z)
  (st : chunk_state) :
  chunk_loop fuel text max_chars st =
  if cs_start st <? len text then
    match fuel with
    | O => None
    | S fuel' => chunk_loop fuel' text max_chars (chunk_step text max_chars st)
    end
  else Some st.
Proof. destruct fuel; reflexivity. Qed.

(** More fuel does not change a result. *)
Lemma chunk_loop_fuel_mono (fuel extra : nat) (text : str) (max_chars : Z) :
  forall st st',
    chunk_loop fuel text max_chars st = Some st' ->
    chunk_loop (fuel + extra) text max_chars st = Some st'.
Proof.
  induction fuel as [|fuel IH]; intros st st'.
  - rewrite !chunk_loop_unfold.
    destruct (cs_start st <? len text); [discriminate | auto].
  - rewrite (chunk_loop_unfold (S fuel)), (chunk_loop_unfold (S fuel + extra)).
    destruct (cs_start st <? len text); [|auto].
    simpl. apply IH.
Qed.

Lemma slices_cons_app (text : str) (p n : Z) (rest : list Z) :
  slices text (p :: rest ++ [n]) =
  slice text p (hd n (rest ++ [n])) :: slices text (rest ++ [n]).
Proof. destruct rest; reflexivity. Qed.

Lemma length_slices_app (text : str) (n : Z) (starts : list Z) :
  length (slices text (starts ++ [n])) = length starts.
Proof.
  induction starts as [|p rest IH]; [reflexivity|].
  change ((p :: rest) ++ [n]) with (p :: rest ++ [n]).
  rewrite slices_cons_app. simpl. now rewrite IH.
Qed.

Section ChunkLoop.

Variable text : str.
Variable max_chars : Z.
Hypothesis max_chars_pos : 1 <= max_chars.

(** From any position [start] the loop finishes within [len(text) - start]
    executions of its body; it appends the slices of [text] that start at
    the positions [starts] and leaves [start = len(text)]. *)
Lemma chunk_loop_spec (fuel : nat) :
  forall (start : Z) (acc : list str),
    0 <= start <= len text ->
    (Z.to_nat (len text - start) <= fuel)%nat ->
    exists starts : list Z,
      chunk_loop fuel text max_chars (mk_chunk_state start acc) =
        Some (mk_chunk_state (len text)
                (acc ++ slices text (starts ++ [len text])))
      /\ Sorted Z.lt starts
      /\ Forall (fun p => start <= p < len text) starts
      /\ (start < len text -> hd_error starts = Some start)
      /\ Forall (fun c => 1 <= len c <= max_chars)
           (slices text (starts ++ [len text])).
Proof.
  induction fuel as [|fuel IH]; intros start acc Hs Hfuel;
    rewrite chunk_loop_unfold; simpl cs_start;
    destruct (Z.ltb_spec start (len text)) as [Hlt|Hge];
    try lia;
    try (exists []; simpl; rewrite app_nil_r;
         replace start with (len text) by lia;
         refine (conj eq_refl (conj _ (conj _ (conj _ _))));
         [constructor | constructor | lia | constructor]).
  pose proof (chunk_cut_progress text max_chars max_chars_pos start
                (conj (proj1 Hs) Hlt)) as Hcut.
  unfold chunk_step. simpl cs_start. simpl cs_chunks.
  set (cut := chunk_cut text max_chars start) in *.
  destruct (IH cut (acc ++ [slice text start cut])) as
    (starts & Hrun & Hsorted & Hrange & Hhd & Hlens); [lia | lia |].
  assert (Hnext : hd (len text) (starts ++ [len text]) = cut).
  { destruct (Z.eq_dec cut (len text)) as [E|N].
    - destruct starts as [|p rest]; [simpl; lia|].
      inversion Hrange; subst; lia.
    - destruct starts as [|p rest];
        [specialize (Hhd ltac:(lia)); discriminate|].
      specialize (Hhd ltac:(lia)). simpl in *. congruence. }
  exists (start :: starts).
  change ((start :: starts) ++ [len text])
    with (start :: starts ++ [len text]).
  rewrite slices_cons_app, Hnext.
  refine (conj _ (conj _ (conj _ (conj _ _)))).
  - rewrite Hrun. rewrite <- app_assoc. reflexivity.
  - constructor; [assumption|].
    destruct starts as [|p rest]; constructor.
    inversion Hrange; subst. lia.
  - constructor; [lia|].
    eapply Forall_impl; [|exact Hrange]. simpl. intros; lia.
  - reflexivity.
  - constructor; [|assumption].
    rewrite len_slice by lia. lia.
Qed.

(** The chunks the slices at strictly increasing positions of [text] give,
    concatenated, are the part of [text] from the first position on. *)
Lemma concat_slices (starts : list Z) :
  Sorted Z.lt starts ->
  Forall (fun p => 0 <= p < len text) starts ->
  firstn (Z.to_nat (hd (len text) (starts ++ [len text]))) text
    ++ concat (slices text (starts ++ [len text])) = text.
Proof.
  induction starts as [|p rest IH]; intros Hsorted Hrange.
  - simpl. rewrite app_nil_r. apply firstn_all2. unfold len. lia.
  - change ((p :: rest) ++ [len text]) with (p :: rest ++ [len text]).
    rewrite slices_cons_app. simpl hd. simpl concat.
    inversion Hsorted as [|? ? Hs' Hhd]; subst.
    inversion Hrange as [|? ? Hp Hr']; subst.
    rewrite app_assoc, firstn_app_slice; [now apply IH | lia | |].
    + destruct rest as [|q rest']; simpl; [lia|].
      inversion Hhd; subst. lia.
    + destruct rest as [|q rest']; simpl; [lia|].
      inversion Hr'; subst. lia.
Qed.

End ChunkLoop.

(** ** [_chunk_text]: round trip, bound and termination *)

Lemma chunk_text_loop_case (text : str) (max_chars : Z) :
  1 <= max_chars -> max_chars < len text ->
  exists starts : list Z,
    _chunk_text text max_chars = Some (slices text (starts ++ [len text]))
    /\ chunk_loop (length text) text max_chars (mk_chunk_state 0 []) =
         Some (mk_chunk_state (len text) (slices text (starts ++ [len text])))
    /\ Sorted Z.lt starts
    /\ Forall (fun p => 0 <= p < len text) starts
    /\ hd_error starts = Some 0
    /\ Forall (fun c => 1 <= len c <= max_chars)
         (slices text (starts ++ [len text])).
Proof.
  intros Hpos Hlong.
  destruct (chunk_loop_spec text max_chars Hpos (length text) 0 [])
    as (starts & Hrun & Hsorted & Hrange & Hhd & Hlens);
    [lia | unfold len; lia |].
  exists starts. simpl in Hrun.
  refine (conj _ (conj Hrun (conj Hsorted (conj Hrange (conj _ Hlens))))).
  - unfold _chunk_text, chunk_text_fuel.
    destruct (Z.leb_spec (len text) max_chars); [lia|].
    rewrite Hrun. reflexivity.
  - apply Hhd. lia.
Qed.

(** C1 (chunk round trip).  For [max_chars >= 1], [_chunk_text] returns
    chunks whose concatenation is [text]; the chunks are the slices of [text]
    between consecutive start positions, the first start is 0, the starts
    increase strictly and the last chunk ends at [len(text)], so the chunks
    are contiguous and do not overlap; no chunk is empty unless [text] is. *)
Theorem chunk_round_trip (text : str) (max_chars : Z) :
  1 <= max_chars ->
  exists (chunks : list str) (starts : list Z),
    _chunk_text text max_chars = Some chunks
    /\ concat chunks = text
    /\ chunks = slices text (starts ++ [len text])
    /\ length starts = length chunks
    /\ hd_error starts = Some 0
    /\ Sorted Z.lt starts
    /\ Forall (fun p => 0 <= p <= len text) starts
    /\ (text <> [] -> Forall (fun c => c <> []) chunks).
Proof.
  intros Hpos.
  destruct (Z.leb_spec (len text) max_chars) as [Hshort|Hlong].
  - exists [text], [0].
    assert (Hs : slices text ([0] ++ [len text]) = [text])
      by (simpl; now rewrite slice_full).
    refine (conj _ (conj _ (conj _ (conj _ (conj _ (conj _ (conj _ _))))))).
    + unfold _chunk_text, chunk_text_fuel.
      destruct (Z.leb_spec (len text) max_chars); [reflexivity | lia].
    + simpl. apply app_nil_r.
    + now rewrite Hs.
    + reflexivity.
    + reflexivity.
    + repeat constructor.
    + constructor; [|constructor]. pose proof (len_nonneg text). lia.
    + intros Hne. constructor; [assumption | constructor].
  - destruct (chunk_text_loop_case text max_chars Hpos Hlong)
      as (starts & Hres & _ & Hsorted & Hrange & Hhd & Hlens).
    exists (slices text (starts ++ [len text])), starts.
    refine (conj Hres (conj _ (conj eq_refl (conj _ (conj Hhd
             (conj Hsorted (conj _ _))))))).
    + pose proof (concat_slices text starts Hsorted Hrange) as Hcat.
      destruct starts as [|p rest]; [discriminate|].
      injection Hhd as ->. exact Hcat.
    + now rewrite length_slices_app.
    + eapply Forall_impl; [|exact Hrange]. simpl. intros; lia.
    + intros _. eapply Forall_impl; [|exact Hlens].
      intros c Hc ->. unfold len in Hc. simpl in Hc. lia.
Qed.

Lemma chunk_round_trip_witness :
  1 <= 2 /\
  exists (chunks : list str) (starts : list Z),
    _chunk_text (lit "ab
cd") 2 = Some chunks
    /\ concat chunks = lit "ab
cd"
    /\ chunks = slices (lit "ab
cd") (starts ++ [5])
    /\ length starts = length chunks
    /\ hd_error starts = Some 0
    /\ Sorted Z.lt starts
    /\ Forall (fun p => 0 <= p <= 5) starts
    /\ (lit "ab
cd" <> [] -> Forall (fun c => c <> []) chunks).
Proof.
  split; [lia|].
  apply (chunk_round_trip (lit "ab
cd") 2). lia.
Defined.

(** C2 (chunk bound and singleton case).  For [max_chars >= 1], every chunk
    of [_chunk_text] except possibly the last is at most [max_chars] long,
    and a text of at most [max_chars] characters gives exactly one chunk, the
    text itself. *)
Theorem chunk_bound (text : str) (max_chars : Z) :
  1 <= max_chars ->
  exists chunks : list str,
    _chunk_text text max_chars = Some chunks
    /\ Forall (fun c => len c <= max_chars) (removelast chunks)
    /\ (len text <= max_chars -> chunks = [text]).
Proof.
  intros Hpos.
  destruct (Z.leb_spec (len text) max_chars) as [Hshort|Hlong].
  - exists [text]. unfold _chunk_text, chunk_text_fuel.
    destruct (Z.leb_spec (len text) max_chars); [|lia].
    repeat split. simpl. constructor.
  - destruct (chunk_text_loop_case text max_chars Hpos Hlong)
      as (starts & Hres & _ & _ & _ & _ & Hlens).
    exists (slices text (starts ++ [len text])).
    refine (conj Hres (conj _ _)); [|lia].
    assert (Hall : Forall (fun c => len c <= max_chars)
                     (slices text (starts ++ [len text]))).
    { eapply Forall_impl; [|exact Hlens]. simpl. intros; lia. }
    rewrite Forall_forall in *. intros c Hin. apply Hall.
    revert Hin. generalize (slices text (starts ++ [len text])).
    induction l as [|x [|y l] IH]; simpl; [tauto | tauto |].
    intros [->|Hin]; [now left | right; now apply IH].
Qed.

Lemma chunk_bound_witness :
  1 <= 2 /\
  exists chunks : list str,
    _chunk_text (lit "abcde") 2 = Some chunks
    /\ Forall (fun c => len c <= 2) (removelast chunks)
    /\ (len (lit "abcde") <= 2 -> chunks = [lit "abcde"]).
Proof.
  split; [lia|].
  apply (chunk_bound (lit "abcde") 2). lia.
Defined.

(** In fact no chunk, the last included, is longer than [max_chars]. *)
Lemma chunk_bound_all (text : str) (max_chars : Z) (chunks : list str) :
  1 <= max_chars ->
  _chunk_text text max_chars = Some chunks ->
  Forall (fun c => len c <= max_chars) chunks.
Proof.
  intros Hpos Hres.
  destruct (Z.leb_spec (len text) max_chars) as [Hshort|Hlong].
  - unfold _chunk_text, chunk_text_fuel in Hres.
    destruct (Z.leb_spec (len text) max_chars); [|lia].
    injection Hres as <-. repeat constructor. assumption.
  - destruct (chunk_text_loop_case text max_chars Hpos Hlong)
      as (starts & Hres' & _ & _ & _ & _ & Hlens).
    rewrite Hres in Hres'. injection Hres' as ->.
    eapply Forall_impl; [|exact Hlens]. simpl. intros; lia.
Qed.

(** C8 (chunker termination).  For [max_chars >= 1], each execution of the
    loop body at a position [start < len(text)] moves [start] strictly
    forward: the cut is the hard cut at [end = min(start + max_chars,
    len(text))], or a newline found more than 1000 characters after [start];
    hence the loop stops after at most [len(text)] executions of its body
    with [start >= len(text)], and [_chunk_text] returns. *)
Theorem chunk_text_terminates (text : str) (max_chars : Z) :
  1 <= max_chars ->
  (forall st : chunk_state,
      0 <= cs_start st < len text ->
      let start := cs_start st in
      let end_ := Z.min (start + max_chars) (len text) in
      let cut := cs_start (chunk_step text max_chars st) in
      start < cut <= len text
      /\ (cut = end_
          \/ (cut = rfind text NL start end_
              /\ start + 1000 < cut
              /\ nth_error text (Z.to_nat cut) = Some "010"%char)))
  /\ (exists (n : nat) (st : chunk_state),
        (n <= length text)%nat
        /\ (forall fuel : nat,
               (n <= fuel)%nat ->
               chunk_loop fuel text max_chars (mk_chunk_state 0 []) = Some st)
        /\ len text <= cs_start st)
  /\ (exists chunks : list str, _chunk_text text max_chars = Some chunks).
Proof.
  intros Hpos. refine (conj _ (conj _ _)).
  - intros st Hst start end_ cut.
    pose proof (chunk_cut_progress text max_chars Hpos _ Hst) as Hprog.
    destruct (chunk_cut_cases text max_chars Hpos (cs_start st) (proj1 Hst))
      as [E|[E R]].
    + subst start end_ cut. simpl. split; [lia | now left].
    + subst start end_ cut. simpl. split; [lia|]. right.
      refine (conj E (conj (proj1 R) _)).
      rewrite E. apply rfind_char_found; [lia | | ].
      * pose proof (len_nonneg text). lia.
      * change ["010"%char] with NL. rewrite <- E. lia.
  - destruct (chunk_loop_spec text max_chars Hpos (length text) 0 [])
      as (starts & Hrun & _); [pose proof (len_nonneg text); lia
                              | unfold len; lia |].
    exists (length text). eexists. refine (conj (le_n _) (conj _ _)).
    + intros fuel Hfuel.
      replace fuel with (length text + (fuel - length text))%nat by lia.
      apply chunk_loop_fuel_mono. exact Hrun.
    + simpl. lia.
  - destruct (Z.leb_spec (len text) max_chars) as [Hshort|Hlong].
    + exists [text]. unfold _chunk_text, chunk_text_fuel.
      destruct (Z.leb_spec (len text) max_chars); [reflexivity | lia].
    + destruct (chunk_text_loop_case text max_chars Hpos Hlong)
        as (starts & Hres & _).
      eexists. exact Hres.
Qed.

Lemma chunk_text_terminates_witness :
  1 <= 2 /\
  exists chunks : list str, _chunk_text (lit "abcde") 2 = Some chunks.
Proof.
  split; [lia|].
  apply (chunk_text_terminates (lit "abcde") 2). lia.
Defined.

(** The bound on [max_chars] is needed: with [max_chars = 0] the cut stays at
    [start] and the loop never leaves a non-empty text. *)
Lemma chunk_loop_zero_runs_on (text : str) :
  text <> [] ->
  forall (fuel : nat) (acc : list str),
    chunk_loop fuel text 0 (mk_chunk_state 0 acc) = None.
Proof.
  intros Hne.
  assert (Hlen : 0 < len text)
    by (destruct text; [congruence | unfold len; simpl; lia]).
  assert (Hcut : chunk_cut text 0 0 = 0).
  { unfold chunk_cut, rfind, adjust_start, adjust_end. simpl Z.add.
    replace (Z.min 0 (len text)) with 0 by lia.
    destruct (Z.ltb_spec (len text) 0); [lia|]. reflexivity. }
  induction fuel as [|fuel IH]; intros acc; rewrite chunk_loop_unfold;
    simpl cs_start; destruct (Z.ltb_spec 0 (len text)); try lia.
  - reflexivity.
  - unfold chunk_step. simpl cs_start. rewrite Hcut. apply IH.
Qed.

(** ** The backtracking matcher finds exactly the matches of a pattern *)

Lemma repeat_greedy_sound (f : ascii -> bool) (k : str -> option nat)
  (Q : str -> Prop) :
  (forall s n, k s = Some n -> (n <= length s)%nat /\ Q (firstn n s)) ->
  forall s min n,
    Re.repeat_greedy f k min s = Some n ->
    (n <= length s)%nat /\
    exists run w,
      firstn n s = run ++ w /\ (min <= length run)%nat
      /\ forallb f run = true /\ Q w.
Proof.
  intros Hk.
  assert (Hstop : forall s min n,
             match min with O => k s | S _ => None end = Some n ->
             (n <= length s)%nat /\
             exists run w,
               firstn n s = run ++ w /\ (min <= length run)%nat
               /\ forallb f run = true /\ Q w).
  { intros s [|m] n H; [|discriminate].
    destruct (Hk s n H) as [Hn HQ]. split; [assumption|].
    exists [], (firstn n s). repeat split; auto. }
  induction s as [|c s IH]; intros min n; simpl.
  - apply Hstop.
  - destruct (f c) eqn:Hc; [|apply (Hstop (c :: s))].
    destruct (Re.repeat_greedy f k (pred min) s) as [m|] eqn:E;
      [|apply (Hstop (c :: s))].
    intros [= <-].
    destruct (IH _ _ E) as (Hm & run & w & Hsplit & Hmin & Hall & HQ).
    split; [simpl; lia|].
    exists (c :: run), w. simpl. rewrite Hsplit, Hc, Hall.
    repeat split; auto. lia.
Qed.

(** A match the matcher reports is a prefix of the text that the pattern
    matches. *)
Lemma match_here_sound (p : Re.pattern) :
  forall s n,
    Re.match_here p s = Some n ->
    (n <= length s)%nat /\ Re.matches p (firstn n s).
Proof.
  induction p as [|it p IH]; intros s n; simpl.
  - intros [= <-]. split; [lia | constructor].
  - assert (Htake : forall n,
               match s with
               | c :: s' =>
                   if Re.cls it c then option_map S (Re.match_here p s')
                   else None
               | [] => None
               end = Some n ->
               (n <= length s)%nat /\
               exists c w, firstn n s = c :: w /\ Re.cls it c = true
                           /\ Re.matches p w).
    { intros m. destruct s as [|c s']; [discriminate|].
      destruct (Re.cls it c) eqn:Hc; [|discriminate].
      destruct (Re.match_here p s') as [j|] eqn:E; [|discriminate].
      intros [= <-]. destruct (IH _ _ E) as [Hj Hm].
      split; [simpl; lia|]. exists c, (firstn j s'). auto. }
    destruct (Re.qnt it) eqn:Hq.
    + intros H. destruct (Htake _ H) as (Hn & c & w & -> & Hc & Hm).
      split; [assumption|]. now apply Re.matches_one.
    + destruct (match s with [] => None | _ => _ end) as [m|] eqn:E.
      * intros [= <-]. destruct (Htake _ eq_refl) as (Hn & c & w & -> & Hc & Hm).
        split; [assumption|]. now apply Re.matches_opt_take.
      * intros H. destruct (IH _ _ H) as [Hn Hm].
        split; [assumption|]. now apply Re.matches_opt_skip.
    + intros H.
      destruct (repeat_greedy_sound (Re.cls it) (Re.match_here p)
                  (Re.matches p) IH _ _ _ H)
        as (Hn & run & w & -> & Hmin & Hall & Hm).
      split; [assumption|]. now apply Re.matches_rep with (n := n0).
Qed.

Lemma repeat_greedy_complete (f : ascii -> bool) (k : str -> option nat)
  (x : str) :
  k x <> None ->
  forall run min,
    (min <= length run)%nat -> forallb f run = true ->
    Re.repeat_greedy f k min (run ++ x) <> None.
Proof.
  intros Hk.
  induction run as [|c run IH]; intros min Hmin Hall; simpl in *.
  - assert (min = O) by lia. subst min.
    destruct x as [|c x']; simpl; [assumption|].
    destruct (f c); [|assumption].
    destruct (Re.repeat_greedy f k 0 x'); [discriminate | assumption].
  - apply andb_prop in Hall. destruct Hall as [Hc Hall]. rewrite Hc.
    specialize (IH (pred min) ltac:(lia) Hall).
    destruct (Re.repeat_greedy f k (pred min) (run ++ x));
      [discriminate | contradiction].
Qed.

(** Wherever some prefix of the text is matched by the pattern, the matcher
    reports a match. *)
Lemma match_here_complete (p : Re.pattern) (w : str) :
  Re.matches p w -> forall rest, Re.match_here p (w ++ rest) <> None.
Proof.
  induction 1 as [ | it p c w Hq Hc Hm IH | it p c w Hq Hc Hm IH
                 | it p w Hq Hm IH | it p n run w Hq Hn Hall Hm IH ];
    intros rest; simpl.
  - discriminate.
  - rewrite Hq, Hc. specialize (IH rest).
    destruct (Re.match_here p (w ++ rest)); [discriminate | contradiction].
  - rewrite Hq, Hc. specialize (IH rest).
    destruct (Re.match_here p (w ++ rest)); [discriminate | contradiction].
  - rewrite Hq.
    destruct (match w ++ rest with [] => None | _ => _ end);
      [discriminate | apply IH].
  - rewrite Hq, <- app_assoc.
    apply repeat_greedy_complete; auto.
Qed.

Lemma match_here_prefix (p : Re.pattern) (x : str) (n : nat) :
  Re.matches p (firstn n x) -> Re.match_here p x <> None.
Proof.
  intros Hm. rewrite <- (firstn_skipn n x).
  now apply match_here_complete.
Qed.

(** A pattern that does not match the empty text never reports an empty
    match. *)
Lemma match_here_nonempty (p : Re.pattern) (s : str) :
  Re.match_here p [] = None -> Re.match_here p s <> Some O.
Proof.
  intros Hnull H. apply match_here_sound in H. destruct H as [_ H].
  simpl in H. now apply (match_here_complete p [] H []).
Qed.

(** [re.search] fails exactly when the matcher fails at every position. *)
Lemma search_None (p : Re.pattern) (s : str) :
  Re.search p s = None <-> forall k, Re.match_here p (skipn k s) = None.
Proof.
  induction s as [|c s IH]; simpl.
  - split.
    + intros H k. rewrite skipn_nil.
      destruct (Re.match_here p []); [discriminate | reflexivity].
    + intros H. specialize (H O). simpl in H. now rewrite H.
  - split.
    + intros H k.
      destruct (Re.match_here p (c :: s)) eqn:E; [discriminate|].
      destruct k as [|k]; [assumption|]. simpl. apply IH.
      destruct (Re.search p s) as [[i n]|]; [discriminate | reflexivity].
    + intros H.
      assert (Hs : Re.search p s = None)
        by (apply IH; intros k; apply (H (S k))).
      specialize (H O). simpl in H. now rewrite H, Hs.
Qed.

(** What [re.search] finds is a match, and the leftmost one. *)
Lemma search_Some (p : Re.pattern) (s : str) (i n : nat) :
  Re.search p s = Some (i, n) ->
  Re.match_here p (skipn i s) = Some n
  /\ forall k, (k < i)%nat -> Re.match_here p (skipn k s) = None.
Proof.
  revert i. induction s as [|c s IH]; intros i; simpl.
  - destruct (Re.match_here p []) eqn:E; [|discriminate].
    intros [= <- <-]. split; [exact E | intros; lia].
  - destruct (Re.match_here p (c :: s)) eqn:E.
    + intros [= <- <-]. split; [assumption | intros; lia].
    + destruct (Re.search p s) as [[j m]|] eqn:Es; [|discriminate].
      intros [= <- <-]. destruct (IH _ eq_refl) as [Hm Hleft].
      split; [assumption|].
      intros [|k] Hk; [assumption|]. simpl. apply Hleft. lia.
Qed.

(** ** [re.sub] *)

(** [re.sub] replaces substrings the pattern matches and copies the rest. *)
Lemma sub_scan_replaced (p : Re.pattern) (repl : str) :
  Re.match_here p [] = None ->
  forall s skip,
    (skip <= length s)%nat ->
    Re.replaced p repl (skipn skip s) (Re.sub_scan p repl s skip).
Proof.
  intros Hnull. induction s as [|c s IH]; intros skip Hskip.
  - simpl in *. assert (skip = O) by lia. subst skip.
    rewrite Hnull. constructor.
  - destruct skip as [|k]; simpl.
    + destruct (Re.match_here p (c :: s)) as [[|n]|] eqn:E.
      * now apply match_here_nonempty in E.
      * destruct (match_here_sound _ _ _ E) as [Hn Hm].
        simpl in Hn.
        rewrite <- (firstn_skipn (S n) (c :: s)).
        apply Re.replaced_match; [assumption | discriminate |].
        simpl. apply IH. lia.
      * apply Re.replaced_copy. apply (IH O). lia.
    + apply IH. simpl in Hskip. lia.
Qed.

Lemma sub_replaced (p : Re.pattern) (repl s : str) :
  Re.match_here p [] = None -> Re.replaced p repl s (Re.sub p repl s).
Proof.
  intros Hnull. apply (sub_scan_replaced p repl Hnull s O). lia.
Qed.

(** No character of a match lies outside the classes of the pattern. *)
Lemma matches_chars (bar : ascii -> bool) (q : Re.pattern) (w : str) :
  Re.matches q w ->
  (forall it c, In it q -> bar c = true -> Re.cls it c = false) ->
  forall c, In c w -> bar c = false.
Proof.
  induction 1 as [ | it p c w Hq Hc Hm IH | it p c w Hq Hc Hm IH
                 | it p w Hq Hm IH | it p n run w Hq Hn Hall Hm IH ];
    intros Hbar x Hin.
  - destruct Hin.
  - destruct Hin as [->|Hin].
    + destruct (bar x) eqn:Hx; [|reflexivity].
      rewrite (Hbar it x (or_introl eq_refl) Hx) in Hc. discriminate.
    + apply IH; [|assumption]. intros; apply Hbar; simpl; auto.
  - destruct Hin as [->|Hin].
    + destruct (bar x) eqn:Hx; [|reflexivity].
      rewrite (Hbar it x (or_introl eq_refl) Hx) in Hc. discriminate.
    + apply IH; [|assumption]. intros; apply Hbar; simpl; auto.
  - apply IH; [|assumption]. intros; apply Hbar; simpl; auto.
  - apply in_app_or in Hin. destruct Hin as [Hin|Hin].
    + rewrite forallb_forall in Hall. specialize (Hall x Hin).
      destruct (bar x) eqn:Hx; [|reflexivity].
      rewrite (Hbar it x (or_introl eq_refl) Hx) in Hall. discriminate.
    + apply IH; [|assumption]. intros; apply Hbar; simpl; auto.
Qed.

Section SubClean.

(** [re.sub(p, repl, s)] seen by a pattern [q] (which may be [p] itself).
    [bar] is a set of characters that no item of [q] accepts; [repl] starts
    and ends with such a character, and [q] matches at no position inside
    [repl]. *)
Variables p q : Re.pattern.
Variable repl : str.
Variable bar : ascii -> bool.

Hypothesis q_bar :
  forall it c, In it q -> bar c = true -> Re.cls it c = false.
Hypothesis repl_first :
  exists b r, repl = b :: r /\ bar b = true.
Hypothesis repl_last :
  exists r b, repl = r ++ [b] /\ bar b = true.
Hypothesis repl_inner :
  forall k, (k < length repl)%nat -> Re.match_here q (skipn k repl) = None.
Hypothesis p_nonnull : Re.match_here p [] = None.
Hypothesis q_nonnull : Re.match_here q [] = None.

(** If [q] fails at the head of [x], it fails at the head of any text that
    shares with [x] all characters before its first [bar] character. *)
Lemma fail_before_bar (x seg s2 rest : str) :
  x = seg ++ s2 ->
  (rest = [] \/ exists b r, rest = b :: r /\ bar b = true) ->
  Re.match_here q x = None ->
  Re.match_here q (seg ++ rest) = None.
Proof.
  intros Hx Hrest Hfail.
  destruct (Re.match_here q (seg ++ rest)) as [n|] eqn:E; [|reflexivity].
  exfalso. destruct (match_here_sound _ _ _ E) as [Hn Hm].
  destruct (Nat.le_gt_cases n (length seg)) as [Hle|Hgt].
  - apply (match_here_prefix q x n); [|assumption].
    rewrite firstn_app in Hm.
    replace (n - length seg)%nat with O in Hm by lia.
    simpl in Hm. rewrite app_nil_r in Hm.
    subst x. rewrite firstn_app.
    replace (n - length seg)%nat with O by lia.
    simpl. now rewrite app_nil_r.
  - destruct Hrest as [->|(b & r & -> & Hb)].
    + rewrite app_nil_r in Hn. lia.
    + assert (Hin : In b (firstn n (seg ++ b :: r))).
      { rewrite firstn_app. apply in_or_app. right.
        destruct (n - length seg)%nat eqn:Hd; [lia|]. now left. }
      pose proof (matches_chars bar q _ Hm q_bar b Hin). congruence.
Qed.

(** [q] matches at no position inside [repl], whatever follows. *)
Lemma fail_inside_repl (k : nat) (t : str) :
  (k < length repl)%nat -> Re.match_here q (skipn k repl ++ t) = None.
Proof.
  intros Hk. destruct repl_last as (r & b & Hr & Hb).
  assert (Hlen : length repl = S (length r))
    by (rewrite Hr, length_app; simpl; lia).
  assert (Hsk : skipn k repl = skipn k r ++ [b]).
  { rewrite Hr, skipn_app. replace (k - length r)%nat with O by lia.
    reflexivity. }
  rewrite Hsk, <- app_assoc.
  apply (fail_before_bar (skipn k repl) (skipn k r) [b]);
    [assumption | right; exists b, t; auto | now apply repl_inner].
Qed.

(** After the substitution [q] matches nowhere, provided it matched nowhere
    before at the positions the scan copies. *)
Lemma sub_scan_clean :
  forall s skip,
    (forall k, (skip <= k)%nat ->
               Re.match_here p (skipn k s) = None ->
               Re.match_here q (skipn k s) = None) ->
    let out := Re.sub_scan p repl s skip in
    (forall k, Re.match_here q (skipn k out) = None)
    /\ exists seg s2 rest,
         skipn skip s = seg ++ s2 /\ out = seg ++ rest
         /\ (rest = [] \/ exists b r, rest = b :: r /\ bar b = true).
Proof.
  induction s as [|c s IH]; intros skip Hq.
  - assert (Hout : Re.sub_scan p repl [] skip = []).
    { destruct skip; simpl; [now rewrite p_nonnull | reflexivity]. }
    cbv zeta. rewrite Hout. split.
    + intros k. now rewrite skipn_nil.
    + exists [], [], []. rewrite skipn_nil. auto.
  - destruct skip as [|j].
    + simpl.
      destruct (Re.match_here p (c :: s)) as [[|n]|] eqn:E.
      * now apply match_here_nonempty in E.
      * destruct (IH n) as [Hclean _].
        { intros k Hk. apply (Hq (S k)). lia. }
        split.
        -- intros k.
           destruct (Nat.lt_ge_cases k (length repl)) as [Hlt|Hge].
           ++ rewrite skipn_app.
              replace (k - length repl)%nat with O by lia.
              simpl. now apply fail_inside_repl.
           ++ rewrite skipn_app, skipn_all2 by assumption.
              simpl. apply Hclean.
        -- destruct repl_first as (b & r & Hr & Hb).
           exists [], (c :: s), (repl ++ Re.sub_scan p repl s n).
           repeat split. right. rewrite Hr. simpl. eauto.
      * destruct (IH O) as [Hclean (seg & s2 & rest & Hs & Hout & Hrest)].
        { intros k Hk. apply (Hq (S k)). lia. }
        simpl in Hs. split.
        -- intros [|k]; [|simpl; apply Hclean].
           simpl. rewrite Hout.
           apply (fail_before_bar (c :: s) (c :: seg) s2 rest);
             [now rewrite Hs | assumption |].
           apply (Hq O); [lia | assumption].
        -- exists (c :: seg), s2, rest. rewrite Hout, Hs. auto.
    + simpl. apply IH. intros k Hk. apply (Hq (S k)). lia.
Qed.

End SubClean.

(** ** The two patterns of [mask_pii] *)

Lemma matches_nil_inv (w : str) : Re.matches [] w -> w = [].
Proof. now inversion 1. Qed.

Lemma matches_one_inv (it : Re.item) (p : Re.pattern) (w : str) :
  Re.qnt it = Re.One -> Re.matches (it :: p) w ->
  exists c w', w = c :: w' /\ Re.cls it c = true /\ Re.matches p w'.
Proof.
  intros Hq Hm. inversion Hm; subst; try congruence. eauto.
Qed.

Lemma matches_opt_inv (it : Re.item) (p : Re.pattern) (w : str) :
  Re.qnt it = Re.Opt -> Re.matches (it :: p) w ->
  (exists c w', w = c :: w' /\ Re.cls it c = true /\ Re.matches p w')
  \/ Re.matches p w.
Proof.
  intros Hq Hm. inversion Hm; subst; try congruence;
    [left; eauto | now right].
Qed.

Lemma matches_rep_inv (it : Re.item) (p : Re.pattern) (n : nat) (w : str) :
  Re.qnt it = Re.AtLeast n -> Re.matches (it :: p) w ->
  exists run w',
    w = run ++ w' /\ (n <= length run)%nat
    /\ forallb (Re.cls it) run = true /\ Re.matches p w'.
Proof.
  intros Hq Hm. inversion Hm; subst; try congruence.
  assert (n0 = n) by congruence. subst. eauto 6.
Qed.

Lemma chr_is_true (a c : ascii) :
  Re.cls (Re.one (Re.chr_is a)) c = true -> c = a.
Proof.
  cbv [Re.one Re.cls Re.chr_is eqb_char]. intros H.
  symmetry. now apply Ascii.eqb_eq.
Qed.

Lemma nonempty_length {A} (l : list A) : l <> [] <-> (1 <= length l)%nat.
Proof. destruct l; simpl; split; intros; try congruence; lia. Qed.

(** [EMAIL_RE] matches exactly the email-like tokens. *)
Lemma email_re_matches (w : str) : Re.matches EMAIL_RE w <-> email_token w.
Proof.
  unfold EMAIL_RE, email_token. split.
  - intros H.
    apply matches_rep_inv with (n := 1%nat) in H; [|reflexivity].
    destruct H as (local & w1 & -> & Hl & Hlc & H).
    apply matches_one_inv in H; [|reflexivity].
    destruct H as (at_ & w2 & -> & Hat & H). apply (chr_is_true _ _) in Hat.
    apply matches_rep_inv with (n := 1%nat) in H; [|reflexivity].
    destruct H as (domain & w3 & -> & Hd & Hdc & H).
    apply matches_one_inv in H; [|reflexivity].
    destruct H as (dot & w4 & -> & Hdot & H). apply (chr_is_true _ _) in Hdot.
    apply matches_rep_inv with (n := 1%nat) in H; [|reflexivity].
    destruct H as (tld & w5 & -> & Ht & Htc & H).
    apply matches_nil_inv in H. subst.
    exists local, domain, tld. rewrite app_nil_r.
    repeat split; try (apply nonempty_length; assumption); assumption.
  - intros (local & domain & tld & -> & Hl & Hlc & Hd & Hdc & Ht & Htc).
    apply nonempty_length in Hl, Hd, Ht.
    apply Re.matches_rep with (n := 1%nat); auto.
    apply Re.matches_one; auto.
    apply Re.matches_rep with (n := 1%nat); auto.
    apply Re.matches_one; auto.
    rewrite <- (app_nil_r tld).
    apply Re.matches_rep with (n := 1%nat); auto.
    constructor.
Qed.

(** [PHONE_RE] matches exactly the phone-like tokens. *)
Lemma phone_re_matches (w : str) : Re.matches PHONE_RE w <-> phone_token w.
Proof.
  unfold PHONE_RE, phone_token. split.
  - intros H.
    assert (Hrest : forall w,
               Re.matches [Re.one isdecimal; Re.at_least 7 phone_char;
                           Re.one isdecimal] w ->
               exists first interior last,
                 w = [first] ++ interior ++ [last]
                 /\ isdecimal first = true
                 /\ (7 <= length interior)%nat
                 /\ forallb phone_char interior = true
                 /\ isdecimal last = true).
    { clear. intros w H.
      apply matches_one_inv in H; [|reflexivity].
      destruct H as (first & w1 & -> & Hf & H).
      apply matches_rep_inv with (n := 7%nat) in H; [|reflexivity].
      destruct H as (interior & w2 & -> & Hi & Hic & H).
      apply matches_one_inv in H; [|reflexivity].
      destruct H as (last & w3 & -> & Hlast & H).
      apply matches_nil_inv in H. subst.
      exists first, interior, last. simpl in *. auto. }
    apply matches_opt_inv in H; [|reflexivity].
    destruct H as [(c & w' & -> & Hc & H)|H].
    + apply (chr_is_true _ _) in Hc. subst c.
      destruct (Hrest _ H) as (first & interior & last & -> & Hf & Hi & Hic & Hl).
      exists (lit "+"), first, interior, last. auto 10.
    + destruct (Hrest _ H) as (first & interior & last & -> & Hf & Hi & Hic & Hl).
      exists [], first, interior, last. auto 10.
  - intros (sign & first & interior & last & -> & Hs & Hf & Hi & Hic & Hl).
    assert (Hrest : Re.matches [Re.one isdecimal; Re.at_least 7 phone_char;
                                Re.one isdecimal]
                      ([first] ++ interior ++ [last])).
    { simpl. apply Re.matches_one; auto.
      apply Re.matches_rep with (n := 7%nat); auto.
      apply Re.matches_one; auto. constructor. }
    destruct Hs as [->| ->].
    + apply Re.matches_opt_skip; auto.
    + apply Re.matches_opt_take; auto.
Qed.

Lemma bracket_inv (c : ascii) : bracket c = true -> c = "["%char \/ c = "]"%char.
Proof.
  unfold bracket, eqb_char. intros H. apply orb_prop in H.
  destruct H as [H|H]; apply Ascii.eqb_eq in H; auto.
Qed.

Lemma email_re_no_bracket (it : Re.item) (c : ascii) :
  In it EMAIL_RE -> bracket c = true -> Re.cls it c = false.
Proof.
  intros Hin Hc. apply bracket_inv in Hc.
  simpl in Hin. decompose [or] Hin; subst; try contradiction;
    destruct Hc; subst; reflexivity.
Qed.

Lemma phone_re_no_bracket (it : Re.item) (c : ascii) :
  In it PHONE_RE -> bracket c = true -> Re.cls it c = false.
Proof.
  intros Hin Hc. apply bracket_inv in Hc.
  simpl in Hin. decompose [or] Hin; subst; try contradiction;
    destruct Hc; subst; reflexivity.
Qed.

Ltac inside_placeholder :=
  let k := fresh "k" in
  intros k; simpl;
  do 7 (destruct k as [|k]; [reflexivity|]); intros; lia.

Lemma email_not_in_EMAIL (k : nat) :
  (k < length EMAIL)%nat -> Re.match_here EMAIL_RE (skipn k EMAIL) = None.
Proof. revert k. inside_placeholder. Qed.

Lemma email_not_in_PHONE (k : nat) :
  (k < length PHONE)%nat -> Re.match_here EMAIL_RE (skipn k PHONE) = None.
Proof. revert k. inside_placeholder. Qed.

Lemma phone_not_in_PHONE (k : nat) :
  (k < length PHONE)%nat -> Re.match_here PHONE_RE (skipn k PHONE) = None.
Proof. revert k. inside_placeholder. Qed.

Lemma placeholder_first (repl : str) :
  repl = EMAIL \/ repl = PHONE ->
  exists b r, repl = b :: r /\ bracket b = true.
Proof. intros [-> | ->]; eexists _, _; split; reflexivity. Qed.

Lemma placeholder_last (repl : str) :
  repl = EMAIL \/ repl = PHONE ->
  exists r b, repl = r ++ [b] /\ bracket b = true.
Proof.
  intros [-> | ->];
    [exists (lit "[EMAIL"), "]"%char | exists (lit "[PHONE"), "]"%char];
    split; reflexivity.
Qed.

(** After the email substitution no email-like token is left. *)
Lemma sub_email_clean (s : str) :
  Re.search EMAIL_RE (Re.sub EMAIL_RE EMAIL s) = None.
Proof.
  apply search_None.
  apply (sub_scan_clean EMAIL_RE EMAIL_RE EMAIL bracket
           email_re_no_bracket (placeholder_first _ (or_introl eq_refl))
           (placeholder_last _ (or_introl eq_refl))
           email_not_in_EMAIL eq_refl eq_refl s O).
  auto.
Qed.

(** After the phone substitution no phone-like token is left. *)
Lemma sub_phone_clean (s : str) :
  Re.search PHONE_RE (Re.sub PHONE_RE PHONE s) = None.
Proof.
  apply search_None.
  apply (sub_scan_clean PHONE_RE PHONE_RE PHONE bracket
           phone_re_no_bracket (placeholder_first _ (or_intror eq_refl))
           (placeholder_last _ (or_intror eq_refl))
           phone_not_in_PHONE eq_refl eq_refl s O).
  auto.
Qed.

(** The phone substitution brings no email-like token back. *)
Lemma sub_phone_keeps_email_clean (s : str) :
  Re.search EMAIL_RE s = None ->
  Re.search EMAIL_RE (Re.sub PHONE_RE PHONE s) = None.
Proof.
  intros Hs. rewrite search_None in Hs. apply search_None.
  apply (sub_scan_clean PHONE_RE EMAIL_RE PHONE bracket
           email_re_no_bracket (placeholder_first _ (or_intror eq_refl))
           (placeholder_last _ (or_intror eq_refl))
           email_not_in_PHONE eq_refl eq_refl s O).
  intros k _ _. apply Hs.
Qed.

Example mask_pii_call_me :
  mask_pii (lit "Call me at +1 415-555-0100 or a@b.com")
  = lit "Call me at [PHONE] or [EMAIL]".
Proof. reflexivity. Qed.

(** ** [clean_whatsapp_text] *)

Lemma filter_lines_cons (rs ra : bool) (ln : str) (rest cleaned : list str)
  (removed : Z) :
  filter_lines rs ra (ln :: rest) cleaned removed =
  if is_empty (strip ln) then filter_lines rs ra rest cleaned removed
  else if rs && any_phrase_in SYSTEM_NOISE_PHRASES (strip ln) then
    filter_lines rs ra rest cleaned (removed + 1)
  else if ra && any_phrase_in ATTACHMENT_MARKERS (strip ln) then
    filter_lines rs ra rest cleaned (removed + 1)
  else filter_lines rs ra rest (cleaned ++ [strip ln]) removed.
Proof. reflexivity. Qed.

(** The loop as a filter: it appends the stripped kept lines, in order, and
    adds the number of dropped lines to [removed]. *)
Lemma filter_lines_spec (rs ra : bool) (lines : list str) :
  forall cleaned removed,
    filter_lines rs ra lines cleaned removed =
    (cleaned ++ map strip (filter (kept_line rs ra) lines),
     removed + len (filter (dropped_line rs ra) lines)).
Proof.
  induction lines as [|ln rest IH]; intros cleaned removed.
  - simpl. now rewrite app_nil_r, Z.add_0_r.
  - rewrite filter_lines_cons. cbn [filter].
    unfold kept_line at 1, dropped_line at 1 2.
    destruct (is_empty (strip ln)); cbn [negb andb].
    + apply IH.
    + destruct (rs && any_phrase_in SYSTEM_NOISE_PHRASES (strip ln));
        cbn [negb andb orb].
      * rewrite IH. f_equal. unfold len. simpl length. lia.
      * destruct (ra && any_phrase_in ATTACHMENT_MARKERS (strip ln));
          cbn [negb andb orb].
        -- rewrite IH. f_equal. unfold len. simpl length. lia.
        -- rewrite IH. cbn [map]. now rewrite <- app_assoc.
Qed.

Lemma length_filter_le {A} (f : A -> bool) (l : list A) :
  (length (filter f l) <= length l)%nat.
Proof.
  induction l as [|x l IH]; simpl; [lia|].
  destruct (f x); simpl; lia.
Qed.

Lemma window_length (k : Z) (lines : list str) :
  (length (window k lines) <= length lines)%nat.
Proof.
  unfold window, slice_from.
  destruct (negb (k =? 0) && (0 <? k)); [|lia].
  rewrite length_skipn. lia.
Qed.

Lemma clean_whatsapp_text_unfold (raw : str) (k : Z) (rs ra pm : bool) :
  let lines := window k (splitlines raw) in
  let text := join NL (map strip (filter (kept_line rs ra) lines)) in
  let text := if pm then mask_pii text else text in
  clean_whatsapp_text raw k rs ra pm =
  (text,
   {| original_lines := len (splitlines raw);
      kept_lines_window := len lines;
      removed_noise_lines := len (filter (dropped_line rs ra) lines);
      final_chars := len text |}).
Proof.
  unfold clean_whatsapp_text. rewrite filter_lines_spec. reflexivity.
Qed.

(** C4 (preprocessor totality and empty input).  For every text and every
    configuration [clean_whatsapp_text] returns a text and stats, whose
    counters are non-negative and consistent ([final_chars] is the length of
    the text, the window is no longer than the input, no more lines are
    removed than the window holds); for the empty text it returns the empty
    text and four zero counters. *)
Theorem clean_total_and_empty :
  (forall (raw : str) (keep_last_lines : Z)
          (remove_system remove_attachments pii_mask : bool),
      exists (text : str) (st : stats),
        clean_whatsapp_text raw keep_last_lines remove_system
          remove_attachments pii_mask = (text, st)
        /\ 0 <= kept_lines_window st <= original_lines st
        /\ 0 <= removed_noise_lines st <= kept_lines_window st
        /\ final_chars st = len text)
  /\ (forall (keep_last_lines : Z)
             (remove_system remove_attachments pii_mask : bool),
         clean_whatsapp_text [] keep_last_lines remove_system
           remove_attachments pii_mask
         = ([], {| original_lines := 0; kept_lines_window := 0;
                   removed_noise_lines := 0; final_chars := 0 |})).
Proof.
  split.
  - intros raw k rs ra pm. rewrite clean_whatsapp_text_unfold.
    eexists _, _. split; [reflexivity|]. simpl.
    pose proof (window_length k (splitlines raw)).
    pose proof (length_filter_le (dropped_line rs ra)
                  (window k (splitlines raw))).
    unfold len. repeat split; lia.
  - intros k rs ra pm. rewrite clean_whatsapp_text_unfold.
    assert (Hw : window k (splitlines []) = []).
    { unfold window, slice_from. simpl splitlines.
      destruct (negb (k =? 0) && (0 <? k)); [apply skipn_nil | reflexivity]. }
    rewrite Hw. simpl. destruct pm; reflexivity.
Qed.

Lemma contains_phrase (phrases : list str) (p s : str) :
  In p phrases -> contains (lower p) (lower s) = true ->
  any_phrase_in phrases s = true.
Proof.
  intros Hin Hc. unfold any_phrase_in. apply existsb_exists.
  exists p. auto.
Qed.

(** C9 (substring noise match).  With [remove_system] on, every line of the
    window whose stripped text is not empty and contains, in lower case, a
    noise phrase is dropped from the cleaned text and counted in
    [removed_noise_lines]; ["added"] and ["left"] are noise phrases, so any
    line that contains one of these words in any letter case is dropped. *)
Theorem noise_substring_match :
  forall (raw : str) (keep_last_lines : Z) (remove_attachments pii_mask : bool),
    let lines := window keep_last_lines (splitlines raw) in
    let kept := filter (kept_line true remove_attachments) lines in
    let dropped := filter (dropped_line true remove_attachments) lines in
    let result := clean_whatsapp_text raw keep_last_lines true
                    remove_attachments pii_mask in
    fst result =
      (if pii_mask then mask_pii (join NL (map strip kept))
       else join NL (map strip kept))
    /\ removed_noise_lines (snd result) = len dropped
    /\ (forall ln p : str,
           In ln lines -> is_empty (strip ln) = false ->
           In p SYSTEM_NOISE_PHRASES ->
           contains (lower p) (lower (strip ln)) = true ->
           In ln dropped /\ ~ In ln kept)
    /\ In (lit "added") SYSTEM_NOISE_PHRASES
    /\ In (lit "left") SYSTEM_NOISE_PHRASES
    /\ (forall ln : str,
           In ln lines -> is_empty (strip ln) = false ->
           contains (lit "added") (lower (strip ln)) = true
           \/ contains (lit "left") (lower (strip ln)) = true ->
           In ln dropped /\ ~ In ln kept).
Proof.
  intros raw k ra pm lines kept dropped result.
  assert (Hdrop : forall ln p : str,
             In ln lines -> is_empty (strip ln) = false ->
             In p SYSTEM_NOISE_PHRASES ->
             contains (lower p) (lower (strip ln)) = true ->
             In ln dropped /\ ~ In ln kept).
  { intros ln p Hin Hne Hp Hc.
    pose proof (contains_phrase _ _ _ Hp Hc) as Hany.
    assert (Hd : dropped_line true ra ln = true).
    { unfold dropped_line. rewrite Hne, Hany. reflexivity. }
    split.
    - apply filter_In. auto.
    - intros Hk. apply filter_In in Hk. destruct Hk as [_ Hk].
      unfold kept_line in Hk. rewrite Hd, Hne in Hk. discriminate. }
  subst result. rewrite clean_whatsapp_text_unfold. simpl fst. simpl snd.
  fold lines. fold kept. fold dropped.
  refine (conj eq_refl (conj eq_refl (conj Hdrop (conj _ (conj _ _))))).
  - simpl. auto 10.
  - simpl. auto 10.
  - intros ln Hin Hne [Hc|Hc].
    + apply (Hdrop ln (lit "added")); simpl; auto 10.
    + apply (Hdrop ln (lit "left")); simpl; auto 10.
Qed.

Example noise_added_example :
  clean_whatsapp_text (lit "I ADDED sugar to the tea") 800 true true true
  = ([], {| original_lines := 1; kept_lines_window := 1;
            removed_noise_lines := 1; final_chars := 0 |}).
Proof. reflexivity. Qed.

Example noise_left_example :
  clean_whatsapp_text (lit "hello
turn Left at the bank
bye") 800 true false false
  = (lit "hello
bye", {| original_lines := 3; kept_lines_window := 3;
         removed_noise_lines := 1; final_chars := 9 |}).
Proof. reflexivity. Qed.

(** ** [mask_pii] *)

(** C5 (PII masking).  [mask_pii] substitutes [[EMAIL]] for email-like
    tokens and then [[PHONE]] for phone-like tokens of the result, over the
    whole text: each pass replaces substrings its pattern matches and copies
    the rest, [EMAIL_RE] and [PHONE_RE] match exactly the email-like and the
    phone-like tokens, and after the two passes neither pattern is found any
    more; with [pii_mask] on, [clean_whatsapp_text] applies it to the joined
    text.  For ["Call me at +1 415-555-0100 or a@b.com"] the result is
    ["Call me at [PHONE] or [EMAIL]"], which holds both placeholders and
    neither the digits nor the address. *)
Theorem mask_pii_spec :
  (forall text : str,
      let emails_masked := Re.sub EMAIL_RE EMAIL text in
      mask_pii text = Re.sub PHONE_RE PHONE emails_masked
      /\ Re.replaced EMAIL_RE EMAIL text emails_masked
      /\ Re.replaced PHONE_RE PHONE emails_masked (mask_pii text)
      /\ Re.search EMAIL_RE emails_masked = None
      /\ Re.search PHONE_RE (mask_pii text) = None
      /\ Re.search EMAIL_RE (mask_pii text) = None)
  /\ (forall w : str, Re.matches EMAIL_RE w <-> email_token w)
  /\ (forall w : str, Re.matches PHONE_RE w <-> phone_token w)
  /\ (forall (raw : str) (keep_last_lines : Z)
             (remove_system remove_attachments : bool),
         fst (clean_whatsapp_text raw keep_last_lines remove_system
                remove_attachments true)
         = mask_pii (fst (clean_whatsapp_text raw keep_last_lines
                            remove_system remove_attachments false)))
  /\ (let masked := mask_pii (lit "Call me at +1 415-555-0100 or a@b.com") in
      masked = lit "Call me at [PHONE] or [EMAIL]"
      /\ contains (lit "[PHONE]") masked = true
      /\ contains (lit "[EMAIL]") masked = true
      /\ contains (lit "+1 415-555-0100") masked = false
      /\ contains (lit "415-555-0100") masked = false
      /\ existsb isdecimal masked = false
      /\ contains (lit "a@b.com") masked = false
      /\ contains (lit "a@") masked = false
      /\ contains (lit "@") masked = false).
Proof.
  refine (conj _ (conj email_re_matches (conj phone_re_matches (conj _ _)))).
  - intros text emails_masked.
    refine (conj eq_refl (conj _ (conj _ (conj _ (conj _ _))))).
    + now apply sub_replaced.
    + now apply sub_replaced.
    + apply sub_email_clean.
    + apply sub_phone_clean.
    + apply sub_phone_keeps_email_clean, sub_email_clean.
  - intros raw k rs ra. now rewrite !clean_whatsapp_text_unfold.
  - vm_compute. repeat split; reflexivity.
Qed.

(** C10 (phone masking can merge lines).  The interior class of the phone
    pattern accepts every whitespace character, the newline included, and
    the mask runs over the newline-joined text; so a kept line that ends in
    digits followed by a kept line that starts with digits can be covered by
    one [[PHONE]], and the masked text then has fewer lines than survived
    the filter. *)
Theorem phone_mask_merges_lines :
  phone_char "010"%char = true
  /\ (forall c : ascii, isspace c = true -> phone_char c = true)
  /\ (forall (raw : str) (keep_last_lines : Z)
             (remove_system remove_attachments : bool),
         fst (clean_whatsapp_text raw keep_last_lines remove_system
                remove_attachments true)
         = mask_pii
             (join NL
                (fst (filter_lines remove_system remove_attachments
                        (window keep_last_lines (splitlines raw)) [] 0))))
  /\ exists raw : str,
       let surviving :=
         fst (filter_lines true true (window 800 (splitlines raw)) [] 0) in
       let text := fst (clean_whatsapp_text raw 800 true true true) in
       surviving = [lit "call 12345"; lit "67890 ok"]
       /\ Re.match_here PHONE_RE (lit "12345
67890 ok") = Some 11%nat
       /\ text = lit "call [PHONE] ok"
       /\ splitlines text = [lit "call [PHONE] ok"]
       /\ (length (splitlines text) < length surviving)%nat.
Proof.
  refine (conj eq_refl (conj _ (conj _ _))).
  - intros c Hc. unfold phone_char. rewrite Hc.
    now rewrite orb_true_r.
  - intros raw k rs ra. unfold clean_whatsapp_text.
    now destruct (filter_lines rs ra (window k (splitlines raw)) [] 0).
  - exists (lit "call 12345
67890 ok").
    vm_compute. repeat split; lia.
Qed.

(** ** [json.loads] never runs out of fuel *)

Lemma skip_ws_length (s : str) :
  (length (Json.skip_ws s) <= length s)%nat.
Proof.
  induction s as [|c s IH]; simpl; [lia|].
  destruct (Json.is_ws c); simpl; lia.
Qed.

Lemma scanstring_shorter (n : nat) :
  forall s acc x rest,
    (length s <= n)%nat ->
    Json.scanstring s acc = Some (x, rest) ->
    (length rest < length s)%nat.
Proof.
  induction n as [|n IH]; intros s acc x rest Hn H.
  - destruct s; [discriminate | simpl in Hn; lia].
  - destruct s as [|c s1]; [discriminate|]. simpl in H, Hn.
    destruct (eqb_char c "034").
    { injection H as _ <-. simpl. lia. }
    destruct (eqb_char c "\").
    2:{ destruct (ord c <=? 31); [discriminate|].
        apply IH in H; [simpl; lia | lia]. }
    destruct s1 as [|e s2]; [discriminate|].
    destruct (eqb_char e "u").
    2:{ destruct (Json.unescape e); [|discriminate].
        apply IH in H; simpl in *; lia. }
    destruct s2 as [|h1 [|h2 [|h3 [|h4 s3]]]]; try discriminate.
    destruct (Json.hex4 h1 h2 h3 h4) as [uni|]; [|discriminate].
    assert (Hplain : forall y,
               Json.scanstring s3 y = Some (x, rest) ->
               (length rest < length (c :: e :: h1 :: h2 :: h3 :: h4 :: s3))%nat).
    { intros y Hy. apply IH in Hy; simpl in *; lia. }
    destruct (Json.is_high_surrogate uni); [|now apply Hplain in H].
    destruct s3 as [|b [|u [|g1 [|g2 [|g3 [|g4 s4]]]]]];
      try (now apply Hplain in H).
    destruct (eqb_char b "\" && eqb_char u "u"); [|now apply Hplain in H].
    destruct (Json.hex4 g1 g2 g3 g4) as [uni2|]; [|discriminate].
    destruct (Json.is_low_surrogate uni2); [|now apply Hplain in H].
    apply IH in H; simpl in *; lia.
Qed.

Lemma span_digits_length (s ds rest : str) :
  Json.span_digits s = (ds, rest) ->
  (length ds + length rest = length s)%nat.
Proof.
  revert ds rest. induction s as [|c s IH]; intros ds rest; simpl.
  - intros [= <- <-]. reflexivity.
  - destruct (isdecimal c).
    + destruct (Json.span_digits s) as [ds' rest'] eqn:E.
      intros [= <- <-]. specialize (IH _ _ eq_refl). simpl. lia.
    + intros [= <- <-]. reflexivity.
Qed.

Lemma match_number_shorter (s : str) (v : Json.value) (rest : str) :
  Json.match_number s = Some (v, rest) -> (length rest < length s)%nat.
Proof.
  unfold Json.match_number.
  destruct (match s with
            | [] => ([], s)
            | c :: s' => if eqb_char c "-" then ([c], s') else ([], s)
            end) as [sign s1] eqn:Hsign.
  assert (H1 : (length s1 <= length s)%nat).
  { destruct s as [|c s']; [injection Hsign as <- <-; lia|].
    destruct (eqb_char c "-"); injection Hsign as <- <-; simpl; lia. }
  destruct (match s1 with
            | [] => None
            | c :: s' =>
                if eqb_char c "0" then Some ([c], s')
                else if in_range 49 57 c then Some (Json.span_digits s1)
                else None
            end) as [[ds s2]|] eqn:Hint; [|discriminate].
  assert (H2 : (length s2 < length s1)%nat).
  { destruct s1 as [|c s']; [discriminate|].
    destruct (eqb_char c "0"); [injection Hint as <- <-; simpl; lia|].
    destruct (in_range 49 57 c) eqn:Hc; [|discriminate].
    injection Hint as Hspan. simpl in Hspan.
    assert (Hd : isdecimal c = true).
    { unfold isdecimal, in_range in *.
      apply andb_prop in Hc. destruct Hc as [Ha Hb].
      apply andb_true_intro. split; [apply Z.leb_le in Ha |]; auto.
      apply Z.leb_le. lia. }
    rewrite Hd in Hspan.
    destruct (Json.span_digits s') as [ds' rest'] eqn:E.
    injection Hspan as <- <-. apply span_digits_length in E. simpl. lia. }
  destruct (match s2 with
            | dot :: (d :: _) as s' =>
                if eqb_char dot "." && isdecimal d
                then let '(fs, rest) := Json.span_digits s' in (dot :: fs, rest)
                else ([], s2)
            | _ => ([], s2)
            end) as [frac s3] eqn:Hfrac.
  assert (H3 : (length s3 <= length s2)%nat).
  { destruct s2 as [|dot [|d s']]; try (injection Hfrac as <- <-; lia).
    destruct (eqb_char dot "." && isdecimal d);
      [|injection Hfrac as <- <-; lia].
    destruct (Json.span_digits (d :: s')) as [fs rest'] eqn:E.
    injection Hfrac as <- <-. apply span_digits_length in E. simpl in *. lia. }
  destruct (match s3 with
            | [] => ([], s3)
            | e :: s' =>
                if eqb_char e "e" || eqb_char e "E"
                then
                  let '(esign, s'') :=
                    match s' with
                    | [] => ([], s')
                    | c :: t =>
                        if eqb_char c "-" || eqb_char c "+" then ([c], t)
                        else ([], s')
                    end in
                  match Json.span_digits s'' with
                  | ([], _) => ([], s3)
                  | (es, rest) => (e :: esign ++ es, rest)
                  end
                else ([], s3)
            end) as [expo s4] eqn:Hexp.
  assert (H4 : (length s4 <= length s3)%nat).
  { destruct s3 as [|e s']; [injection Hexp as <- <-; lia|].
    destruct (eqb_char e "e" || eqb_char e "E");
      [|injection Hexp as <- <-; lia].
    destruct (match s' with
              | [] => ([], s')
              | c :: t =>
                  if eqb_char c "-" || eqb_char c "+" then ([c], t)
                  else ([], s')
              end) as [esign s''] eqn:Hes.
    assert (Hs'' : (length s'' <= length s')%nat).
    { destruct s' as [|c t]; [injection Hes as <- <-; lia|].
      destruct (eqb_char c "-" || eqb_char c "+");
        injection Hes as <- <-; simpl; lia. }
    destruct (Json.span_digits s'') as [es rest'] eqn:E.
    apply span_digits_length in E.
    destruct es; injection Hexp as <- <-; simpl in *; lia. }
  destruct (is_empty frac && is_empty expo); intros [= <- <-]; lia.
Qed.

Lemma keyword_shorter (word : string) (v v' : Json.value) (s rest : str) :
  (1 <= length (lit word))%nat ->
  Json.keyword word v s = Some (v', rest) -> (length rest < length s)%nat.
Proof.
  unfold Json.keyword. intros Hw.
  destruct (startswith (lit word) s) eqn:Hsw; [|discriminate].
  intros [= <- <-]. rewrite length_skipn.
  destruct s as [|c s'].
  - destruct (lit word); [simpl in Hw; lia | discriminate].
  - assert (1 <= length (c :: s'))%nat by (simpl; lia). lia.
Qed.

Lemma scan_once_S (fuel : nat) (s : str) :
  Json.scan_once (S fuel) s =
  match s with
  | [] => Json.Fail
  | c :: s1 =>
      if eqb_char c "034" then
        match Json.scanstring s1 [] with
        | Some (x, rest) => Json.Ok (Json.String x, rest)
        | None => Json.Fail
        end
      else if eqb_char c "{" then
        match Json.skip_ws s1 with
        | d :: rest =>
            if eqb_char d "}" then Json.Ok (Json.Object [], rest)
            else Json.members fuel (d :: rest) []
        | [] => Json.Fail
        end
      else if eqb_char c "[" then
        match Json.skip_ws s1 with
        | d :: rest =>
            if eqb_char d "]" then Json.Ok (Json.Array [], rest)
            else Json.items fuel (d :: rest) []
        | [] => Json.Fail
        end
      else
        match
          find (fun o : option (Json.value * str) =>
                  match o with Some _ => true | None => false end)
            [ Json.keyword "null" Json.Null s;
              Json.keyword "true" (Json.Bool true) s;
              Json.keyword "false" (Json.Bool false) s;
              Json.match_number s;
              Json.keyword "NaN" (Json.Float (lit "NaN")) s;
              Json.keyword "Infinity" (Json.Float (lit "Infinity")) s;
              Json.keyword "-Infinity" (Json.Float (lit "-Infinity")) s ]
        with
        | Some (Some r) => Json.Ok r
        | _ => Json.Fail
        end
  end.
Proof. reflexivity. Qed.

Lemma members_S (fuel : nat) (s : str) (acc : list (list Z * Json.value)) :
  Json.members (S fuel) s acc =
  match s with
  | q :: s1 =>
      if eqb_char q "034" then
        match Json.scanstring s1 [] with
        | None => Json.Fail
        | Some (key, s2) =>
            match Json.skip_ws s2 with
            | colon :: s3 =>
                if eqb_char colon ":" then
                  match Json.scan_once fuel (Json.skip_ws s3) with
                  | Json.Ok (v, s4) =>
                      let acc' := Json.dict_set acc key v in
                      match Json.skip_ws s4 with
                      | d :: s5 =>
                          if eqb_char d "}" then Json.Ok (Json.Object acc', s5)
                          else if eqb_char d ","
                          then Json.members fuel (Json.skip_ws s5) acc'
                          else Json.Fail
                      | [] => Json.Fail
                      end
                  | Json.Fail => Json.Fail
                  | Json.OutOfFuel => Json.OutOfFuel
                  end
                else Json.Fail
            | [] => Json.Fail
            end
        end
      else Json.Fail
  | [] => Json.Fail
  end.
Proof. reflexivity. Qed.

Lemma items_S (fuel : nat) (s : str) (acc : list Json.value) :
  Json.items (S fuel) s acc =
  match Json.scan_once fuel s with
  | Json.Ok (v, s1) =>
      let acc' := acc ++ [v] in
      match Json.skip_ws s1 with
      | d :: s2 =>
          if eqb_char d "]" then Json.Ok (Json.Array acc', s2)
          else if eqb_char d "," then Json.items fuel (Json.skip_ws s2) acc'
          else Json.Fail
      | [] => Json.Fail
      end
  | Json.Fail => Json.Fail
  | Json.OutOfFuel => Json.OutOfFuel
  end.
Proof. reflexivity. Qed.

Lemma first_some_in {A} (l : list (option A)) (r : A) :
  match find (fun o => match o with Some _ => true | None => false end) l with
  | Some (Some x) => Json.Ok x
  | _ => Json.Fail
  end = Json.Ok r ->
  In (Some r) l.
Proof.
  destruct (find _ l) as [[x|]|] eqn:E; try discriminate.
  intros [= <-]. now apply find_some in E.
Qed.

(** A value the scanner reads is not empty: the text left is shorter. *)
Lemma scan_shorter (fuel : nat) :
  (forall s v rest,
      Json.scan_once fuel s = Json.Ok (v, rest) ->
      (length rest < length s)%nat)
  /\ (forall s acc v rest,
         Json.members fuel s acc = Json.Ok (v, rest) ->
         (length rest < length s)%nat)
  /\ (forall s acc v rest,
         Json.items fuel s acc = Json.Ok (v, rest) ->
         (length rest < length s)%nat).
Proof.
  induction fuel as [|fuel (IHscan & IHmem & IHitems)].
  - repeat split; intros; discriminate.
  - refine (conj _ (conj _ _)).
    + intros s v rest. rewrite scan_once_S.
      destruct s as [|c s1]; [discriminate|].
      destruct (eqb_char c "034").
      { destruct (Json.scanstring s1 []) as [[x r]|] eqn:E; [|discriminate].
        intros [= <- <-].
        apply (scanstring_shorter (length s1)) in E; simpl; lia. }
      destruct (eqb_char c "{").
      { pose proof (skip_ws_length s1) as Hws.
        destruct (Json.skip_ws s1) as [|d r]; [discriminate|].
        destruct (eqb_char d "}").
        - intros [= <- <-]. simpl in *. lia.
        - intros H. apply IHmem in H. simpl in *. lia. }
      destruct (eqb_char c "[").
      { pose proof (skip_ws_length s1) as Hws.
        destruct (Json.skip_ws s1) as [|d r]; [discriminate|].
        destruct (eqb_char d "]").
        - intros [= <- <-]. simpl in *. lia.
        - intros H. apply IHitems in H. simpl in *. lia. }
      intros H. apply first_some_in in H.
      cbn [In] in H.
      decompose [or] H; try contradiction;
        try (eapply keyword_shorter; [|eassumption]; simpl; lia).
      eapply match_number_shorter; eassumption.
    + intros s acc v rest. rewrite members_S.
      destruct s as [|q s1]; [discriminate|].
      destruct (eqb_char q "034"); [|discriminate].
      destruct (Json.scanstring s1 []) as [[key s2]|] eqn:E; [|discriminate].
      apply (scanstring_shorter (length s1)) in E; [|lia].
      pose proof (skip_ws_length s2) as Hws2.
      destruct (Json.skip_ws s2) as [|colon s3]; [discriminate|].
      destruct (eqb_char colon ":"); [|discriminate].
      pose proof (skip_ws_length s3) as Hws3.
      destruct (Json.scan_once fuel (Json.skip_ws s3)) as [[x s4]| |] eqn:Ev;
        try discriminate.
      apply IHscan in Ev. cbv zeta.
      pose proof (skip_ws_length s4) as Hws4.
      destruct (Json.skip_ws s4) as [|d s5]; [discriminate|].
      destruct (eqb_char d "}").
      * intros [= <- <-]. simpl in *. lia.
      * destruct (eqb_char d ","); [|discriminate].
        intros H. apply IHmem in H.
        pose proof (skip_ws_length s5). simpl in *. lia.
    + intros s acc v rest. rewrite items_S.
      destruct (Json.scan_once fuel s) as [[x s1]| |] eqn:Ev; try discriminate.
      apply IHscan in Ev. cbv zeta.
      pose proof (skip_ws_length s1) as Hws1.
      destruct (Json.skip_ws s1) as [|d s2]; [discriminate|].
      destruct (eqb_char d "]").
      * intros [= <- <-]. simpl in *. lia.
      * destruct (eqb_char d ","); [|discriminate].
        intros H. apply IHitems in H.
        pose proof (skip_ws_length s2). simpl in *. lia.
Qed.

(** Two units of fuel for each character are enough. *)
Lemma scan_fuel (fuel : nat) :
  (forall s, (2 * length s < fuel)%nat ->
             Json.scan_once fuel s <> Json.OutOfFuel)
  /\ (forall s acc, (2 * length s + 1 < fuel)%nat ->
                    Json.members fuel s acc <> Json.OutOfFuel)
  /\ (forall s acc, (2 * length s + 1 < fuel)%nat ->
                    Json.items fuel s acc <> Json.OutOfFuel).
Proof.
  induction fuel as [|fuel (IHscan & IHmem & IHitems)].
  - repeat split; intros; lia.
  - refine (conj _ (conj _ _)).
    + intros s Hf. rewrite scan_once_S.
      destruct s as [|c s1]; [discriminate|].
      destruct (eqb_char c "034").
      { destruct (Json.scanstring s1 []) as [[x r]|]; discriminate. }
      destruct (eqb_char c "{").
      { pose proof (skip_ws_length s1) as Hws.
        destruct (Json.skip_ws s1) as [|d r]; [discriminate|].
        destruct (eqb_char d "}"); [discriminate|].
        apply IHmem. simpl in *. lia. }
      destruct (eqb_char c "[").
      { pose proof (skip_ws_length s1) as Hws.
        destruct (Json.skip_ws s1) as [|d r]; [discriminate|].
        destruct (eqb_char d "]"); [discriminate|].
        apply IHitems. simpl in *. lia. }
      destruct (find _ _) as [[r|]|]; discriminate.
    + intros s acc Hf. rewrite members_S.
      destruct s as [|q s1]; [discriminate|].
      destruct (eqb_char q "034"); [|discriminate].
      destruct (Json.scanstring s1 []) as [[key s2]|] eqn:E; [|discriminate].
      apply (scanstring_shorter (length s1)) in E; [|lia].
      pose proof (skip_ws_length s2) as Hws2.
      destruct (Json.skip_ws s2) as [|colon s3]; [discriminate|].
      destruct (eqb_char colon ":"); [|discriminate].
      pose proof (skip_ws_length s3) as Hws3.
      destruct (Json.scan_once fuel (Json.skip_ws s3)) as [[x s4]| |] eqn:Ev.
      * apply (proj1 (scan_shorter fuel)) in Ev. cbv zeta.
        pose proof (skip_ws_length s4) as Hws4.
        destruct (Json.skip_ws s4) as [|d s5]; [discriminate|].
        destruct (eqb_char d "}"); [discriminate|].
        destruct (eqb_char d ","); [|discriminate].
        apply IHmem. pose proof (skip_ws_length s5). simpl in *. lia.
      * discriminate.
      * exfalso. revert Ev. apply IHscan. simpl in *. lia.
    + intros s acc Hf. rewrite items_S.
      destruct (Json.scan_once fuel s) as [[x s1]| |] eqn:Ev.
      * apply (proj1 (scan_shorter fuel)) in Ev. cbv zeta.
        pose proof (skip_ws_length s1) as Hws1.
        destruct (Json.skip_ws s1) as [|d s2]; [discriminate|].
        destruct (eqb_char d "]"); [discriminate|].
        destruct (eqb_char d ","); [|discriminate].
        apply IHitems. pose proof (skip_ws_length s2). simpl in *. lia.
      * discriminate.
      * exfalso. revert Ev. apply IHscan. lia.
Qed.

(** [json.loads] returns a value or raises: the fuel it is given is enough
    for every document. *)
Lemma loads_fuel (s : str) : Json.loads s <> Json.OutOfFuel.
Proof.
  unfold Json.loads.
  destruct (Json.scan_once (S (2 * length s)) (Json.skip_ws s))
    as [[v rest]| |] eqn:E.
  - destruct (is_empty (Json.skip_ws rest)); discriminate.
  - discriminate.
  - exfalso. revert E. apply (proj1 (scan_fuel _)).
    pose proof (skip_ws_length s). lia.
Qed.

Example loads_unclosed_brackets : Json.loads (lit "[[[[[[") = Json.Fail.
Proof. reflexivity. Qed.

(** ** JSON recovery *)

#[local] Arguments Ascii.eqb : simpl never.

Lemma braces_tail (s : str) :
  Re.repeat_greedy Re.any_char (Re.match_here [Re.one (Re.chr_is "}")]) 0 s
  = option_map S (last_occ (lit "}") s).
Proof.
  induction s as [|c s IH].
  - reflexivity.
  - cbn [Re.repeat_greedy Re.any_char Nat.pred]. rewrite IH.
    cbn [last_occ].
    destruct (last_occ (lit "}") s) as [k|]; [reflexivity|].
    cbn. unfold Re.chr_is, eqb_char.
    destruct (Ascii.eqb "}" c); reflexivity.
Qed.

Lemma braces_match_here (s : str) :
  Re.match_here BRACES_RE s =
  match s with
  | c :: s' =>
      if eqb_char "{" c
      then option_map (fun k => S (S k)) (last_occ (lit "}") s')
      else None
  | [] => None
  end.
Proof.
  destruct s as [|c s']; [reflexivity|].
  unfold BRACES_RE.
  change (Re.match_here
            (Re.one (Re.chr_is "{")
             :: [Re.star Re.any_char; Re.one (Re.chr_is "}")]) (c :: s'))
    with (if eqb_char "{" c
          then option_map S
                 (Re.repeat_greedy Re.any_char
                    (Re.match_here [Re.one (Re.chr_is "}")]) 0 s')
          else None).
  rewrite braces_tail.
  destruct (eqb_char "{" c); [|reflexivity].
  now destruct (last_occ (lit "}") s').
Qed.

(** [re.search(r"\{.*\}", txt, flags=re.S)] finds the span from the first
    [{] through the last [}]. *)
Lemma search_braces (txt : str) :
  Re.search BRACES_RE txt = braces_span txt.
Proof.
  unfold braces_span.
  induction txt as [|c s IH].
  - reflexivity.
  - cbn [Re.search]. rewrite braces_match_here, IH.
    cbn [first_occ last_occ startswith lit list_ascii_of_string].
    unfold eqb_char at 1 2 3.
    destruct (Ascii.eqb_spec "{" c) as [<-|Hopen]; cbn [andb].
    + change (Ascii.eqb "}" "{") with false. cbn [andb].
      destruct (last_occ ["}"%char] s) as [j|]; cbn [option_map].
      * change (0 <? S j)%nat with true. cbv iota.
        f_equal. f_equal. lia.
      * now destruct (first_occ ["{"%char] s).
    + destruct (first_occ ["{"%char] s) as [i|].
      * destruct (last_occ ["}"%char] s) as [j|].
        -- change (S i <? S j)%nat with (i <? j)%nat.
           destruct (i <? j)%nat; reflexivity.
        -- destruct (Ascii.eqb "}" c); reflexivity.
      * destruct (last_occ ["}"%char] s) as [j|]; [reflexivity|].
        destruct (Ascii.eqb "}" c); reflexivity.
Qed.

Lemma first_occ_char (c : ascii) (s : str) (i : nat) :
  first_occ [c] s = Some i ->
  nth_error s i = Some c /\ ~ In c (firstn i s).
Proof.
  revert i. induction s as [|a s IH]; intros i; cbn [first_occ startswith].
  - discriminate.
  - unfold eqb_char. destruct (Ascii.eqb_spec c a) as [<-|Hne]; cbn [andb].
    + intros [= <-]. split; [reflexivity | intros []].
    + destruct (first_occ [c] s) as [k|]; [|discriminate].
      intros [= <-]. destruct (IH k eq_refl) as [Hn Hnot].
      split; [assumption|]. simpl. intros [E|Hin]; [congruence | auto].
Qed.

Lemma first_occ_none (c : ascii) (s : str) :
  first_occ [c] s = None -> ~ In c s.
Proof.
  induction s as [|a s IH]; cbn [first_occ startswith].
  - intros _ [].
  - unfold eqb_char. destruct (Ascii.eqb_spec c a) as [<-|Hne]; cbn [andb].
    + discriminate.
    + destruct (first_occ [c] s) as [k|]; [discriminate|].
      intros _ [E|Hin]; [congruence | now apply IH].
Qed.

Lemma last_occ_none (c : ascii) (s : str) :
  last_occ [c] s = None -> ~ In c s.
Proof.
  induction s as [|a s IH]; cbn [last_occ startswith].
  - intros _ [].
  - destruct (last_occ [c] s) as [k|]; [discriminate|].
    unfold eqb_char. destruct (Ascii.eqb_spec c a) as [<-|Hne]; cbn [andb].
    + discriminate.
    + intros _ [E|Hin]; [congruence | now apply IH].
Qed.

Lemma last_occ_last (c : ascii) (s : str) (j : nat) :
  last_occ [c] s = Some j -> ~ In c (skipn (S j) s).
Proof.
  revert j. induction s as [|a s IH]; intros j; cbn [last_occ startswith].
  - discriminate.
  - destruct (last_occ [c] s) as [k|] eqn:E.
    + intros [= <-]. simpl. now apply IH.
    + unfold eqb_char. destruct (Ascii.eqb_spec c a) as [<-|Hne]; cbn [andb].
      * intros [= <-]. simpl. now apply last_occ_none.
      * discriminate.
Qed.

(** The span [braces_span] answers starts at the first [{] of the text and
    ends at its last [}]. *)
Lemma braces_span_spec (txt : str) (i n : nat) :
  braces_span txt = Some (i, n) ->
  nth_error txt i = Some "{"%char
  /\ ~ In "{"%char (firstn i txt)
  /\ (2 <= n)%nat
  /\ nth_error txt (i + n - 1) = Some "}"%char
  /\ ~ In "}"%char (skipn (i + n) txt).
Proof.
  unfold braces_span.
  destruct (first_occ (lit "{") txt) as [a|] eqn:Ha; [|discriminate].
  destruct (last_occ (lit "}") txt) as [b|] eqn:Hb; [|discriminate].
  destruct (Nat.ltb_spec a b); [|discriminate].
  intros [= <- <-].
  destruct (first_occ_char _ _ _ Ha) as [H1 H2].
  replace (a + (b - a + 1) - 1)%nat with b by lia.
  replace (a + (b - a + 1))%nat with (S b) by lia.
  repeat split; auto; try lia.
  - now apply last_occ_char.
  - now apply last_occ_last.
Qed.

(** Without a [{] before a [}] there is no span. *)
Lemma braces_span_none (txt : str) :
  ~ In "{"%char txt \/ ~ In "}"%char txt -> braces_span txt = None.
Proof.
  unfold braces_span. intros H.
  destruct (first_occ (lit "{") txt) as [a|] eqn:Ha; [|reflexivity].
  destruct (last_occ (lit "}") txt) as [b|] eqn:Hb; [|reflexivity].
  exfalso. destruct H as [H|H]; apply H.
  - apply first_occ_char in Ha. destruct Ha as [Ha _].
    now apply nth_error_In in Ha.
  - apply last_occ_char in Hb. now apply nth_error_In in Hb.
Qed.

Lemma lstrip_incl (c : ascii) (s : str) : In c (lstrip s) -> In c s.
Proof.
  induction s as [|a s IH]; simpl; [auto|].
  destruct (isspace a); simpl; auto.
Qed.

Lemma strip_incl (c : ascii) (s : str) : In c (strip s) -> In c s.
Proof.
  unfold strip, rstrip. intros H.
  apply in_rev, lstrip_incl, in_rev in H.
  now apply lstrip_incl.
Qed.

(** The recovery returns or raises. *)
Lemma parse_model_output_total (content : str) :
  parse_model_output content <> Diverge.
Proof.
  unfold parse_model_output.
  pose proof (loads_fuel (strip content)) as H1.
  destruct (Json.loads (strip content)); try discriminate; [|congruence].
  destruct (Re.search BRACES_RE (strip content)) as [m|]; [|discriminate].
  pose proof (loads_fuel (Re.group0 (strip content) m)) as H2.
  destruct (Json.loads (Re.group0 (strip content) m));
    try discriminate; congruence.
Qed.

(** C3, as the code has it (JSON recovery).  [parse_model_output] first
    parses the trimmed text and returns its value on success; when that
    fails it takes the span from the first [{] through the last [}] and
    returns the value of the span if the span parses; when there is no such
    span it raises the [ValueError] that carries the trimmed text.  The
    output ["Sure! {"key_topics":["x"]}\nThanks"] gives the object
    [{"key_topics":["x"]}], and an output without braces that is not itself
    a JSON document raises that [ValueError]. *)
Theorem parse_model_output_recovery :
  (forall content : str,
      let txt := strip content in
      let malformed :=
        Raise (ValueError (lit "Model did not return valid JSON:" ++ NL
                           ++ txt)) in
      (forall v, Json.loads txt = Json.Ok v ->
                 parse_model_output content = Return v)
      /\ (Json.loads txt = Json.Fail ->
          forall i n : nat,
            braces_span txt = Some (i, n) ->
            let span := firstn n (skipn i txt) in
            nth_error txt i = Some "{"%char
            /\ ~ In "{"%char (firstn i txt)
            /\ nth_error txt (i + n - 1) = Some "}"%char
            /\ ~ In "}"%char (skipn (i + n) txt)
            /\ (forall v, Json.loads span = Json.Ok v ->
                          parse_model_output content = Return v))
      /\ (Json.loads txt = Json.Fail -> braces_span txt = None ->
          parse_model_output content = malformed)
      /\ (Json.loads txt = Json.Fail ->
          ~ In "{"%char content \/ ~ In "}"%char content ->
          parse_model_output content = malformed))
  /\ parse_model_output (quoted "Sure! {`key_topics`:[`x`]}
Thanks")
     = Return (Json.Object
                 [(Json.points (lit "key_topics"),
                   Json.Array [Json.String (Json.points (lit "x"))])]).
Proof.
  split; [|reflexivity].
  intros content txt malformed.
  assert (Hnone : Json.loads txt = Json.Fail -> braces_span txt = None ->
                  parse_model_output content = malformed).
  { intros Hfail Hspan. unfold parse_model_output. fold txt.
    now rewrite Hfail, search_braces, Hspan. }
  refine (conj _ (conj _ (conj Hnone _))).
  - intros v Hv. unfold parse_model_output. fold txt. now rewrite Hv.
  - intros Hfail i n Hspan span.
    destruct (braces_span_spec _ _ _ Hspan) as (H1 & H2 & _ & H3 & H4).
    refine (conj H1 (conj H2 (conj H3 (conj H4 _)))).
    intros v Hv. unfold parse_model_output. fold txt.
    rewrite Hfail, search_braces, Hspan.
    unfold Re.group0. cbn [fst snd]. fold span. now rewrite Hv.
  - intros Hfail Hno. apply Hnone; [assumption|].
    apply braces_span_none.
    destruct Hno as [H|H]; [left | right]; intros Hin; apply H;
      now apply strip_incl.
Qed.

(** C3 as stated fails: an output without braces that is a JSON document by
    itself is returned by the direct parse, not rejected. *)
Lemma parse_model_output_no_braces_counterexample :
  ~ (forall content : str,
        ~ In "{"%char content -> ~ In "}"%char content ->
        exists e : exn, parse_model_output content = Raise e).
Proof.
  intros H.
  destruct (H (lit "[1, 2]")) as [e He].
  - simpl. intros Hin. decompose [or] Hin; discriminate || contradiction.
  - simpl. intros Hin. decompose [or] Hin; discriminate || contradiction.
  - vm_compute in He. discriminate.
Qed.

Example parse_model_output_array :
  parse_model_output (lit "[1, 2]")
  = Return (Json.Array [Json.Int 1; Json.Int 2]).
Proof. reflexivity. Qed.

(** When the span exists and does not parse, what is raised is the decoder's
    error for the span, not the [ValueError] with the text. *)
Example parse_model_output_bad_span :
  parse_model_output (lit "Here you go: {oops} bye")
  = Raise (JSONDecodeError (lit "{oops}")).
Proof. reflexivity. Qed.

Example parse_model_output_no_json :
  parse_model_output (lit "  I cannot help with that. ")
  = Raise (ValueError (lit "Model did not return valid JSON:
I cannot help with that.")).
Proof. reflexivity. Qed.

(** ** The summarizer *)

Lemma get_client_missing (api_key : option str) :
  api_key = None \/ api_key = Some [] -> _get_client api_key = Raise not_set.
Proof. intros [-> | ->]; reflexivity. Qed.

Lemma call_missing_key (api_key : option str)
  (provider : trace -> request -> option str)
  (system_prompt user_content model : str) (tr : trace) :
  api_key = None \/ api_key = Some [] ->
  _call_openai_json api_key provider system_prompt user_content model tr
  = (Raise not_set, tr).
Proof.
  intros Hkey. unfold _call_openai_json, bind, lift.
  now rewrite (get_client_missing _ Hkey).
Qed.

(** One call: it raises before anything is sent, or sends exactly one
    request and returns the parsed answer or raises. *)
Lemma call_outcome (api_key : option str)
  (provider : trace -> request -> option str)
  (system_prompt user_content model : str) (tr : trace) :
  let req := mk_request model (lit "0.3") system_prompt user_content in
  match _call_openai_json api_key provider system_prompt user_content model tr
  with
  | (Return v, tr') =>
      tr' = tr ++ [req]
      /\ exists content, provider tr req = Some content
                         /\ parse_model_output content = Return v
  | (Raise e, tr') => tr' = tr \/ tr' = tr ++ [req]
  | (Diverge, _) => False
  end.
Proof.
  intros req. unfold _call_openai_json, bind, lift, create, _get_client.
  destruct api_key as [key|]; [destruct (is_empty key)|]; auto.
  fold req. cbv beta.
  destruct (provider tr req) as [content|] eqn:E; auto.
  pose proof (parse_model_output_total content) as Htot.
  destruct (parse_model_output content) eqn:Ep; eauto; congruence.
Qed.

Lemma get_client_cases (api_key : option str) :
  (api_key = None \/ api_key = Some [])
  \/ exists key, _get_client api_key = Return key.
Proof.
  destruct api_key as [[|c key]|]; auto.
  right. exists (c :: key). reflexivity.
Qed.

(** With the key set, a call sends its request and gives the parsed answer,
    or the provider's failure. *)
Lemma call_with_key (api_key : option str)
  (provider : trace -> request -> option str)
  (system_prompt user_content model key : str) (tr : trace) :
  _get_client api_key = Return key ->
  let req := mk_request model (lit "0.3") system_prompt user_content in
  _call_openai_json api_key provider system_prompt user_content model tr
  = (match provider tr req with
     | Some content => parse_model_output content
     | None => Raise ProviderError
     end, tr ++ [req]).
Proof.
  intros Hkey req. unfold _call_openai_json, bind, lift, create.
  rewrite Hkey. fold req. cbv beta.
  destruct (provider tr req) as [content|]; reflexivity.
Qed.

Lemma answered_length (provider : trace -> request -> option str) :
  forall reqs tr summaries,
    answered provider tr reqs summaries -> length summaries = length reqs.
Proof.
  induction reqs as [|r reqs IH]; intros tr [|v summaries] H;
    simpl in *; try tauto.
  destruct H as [_ H]. f_equal. eauto.
Qed.

Lemma length_map_requests (person_name purpose tone channel model : str)
  (n : Z) (chunks : list str) :
  forall i,
    length (map_requests person_name purpose tone channel model n chunks i)
    = length chunks.
Proof.
  induction chunks as [|ch rest IH]; intros i; simpl; [reflexivity|].
  now rewrite IH.
Qed.

(** No request of the map stage carries the reduce prompt. *)
Lemma map_requests_not_reduce (person_name purpose tone channel model : str)
  (n : Z) (chunks : list str) :
  forall i,
    filter is_reduce
      (map_requests person_name purpose tone channel model n chunks i) = [].
Proof.
  induction chunks as [|ch rest IH]; intros i; [reflexivity|].
  cbn [map_requests filter].
  assert (Hnot : is_reduce
                   (map_request person_name purpose tone channel model n i ch)
                 = false) by (vm_compute; reflexivity).
  rewrite Hnot. apply IH.
Qed.

Lemma reduce_request_is_reduce (model payload : str) :
  is_reduce (reduce_request model payload) = true.
Proof. vm_compute. reflexivity. Qed.

Section MapStage.

Variable api_key : option str.
Variable provider : trace -> request -> option str.
Variables person_name purpose tone channel model : str.
Variable n : Z.

Lemma map_stage_cons (ch : str) (rest : list str) (i : Z)
  (acc : list Json.value) (tr : trace) :
  map_stage api_key provider person_name purpose tone channel model n
    (ch :: rest) i acc tr =
  match
    _call_openai_json api_key provider CHUNK_PROMPT
      (chunk_payload person_name purpose tone channel i n ch) model tr
  with
  | (Return summary, tr') =>
      map_stage api_key provider person_name purpose tone channel model n
        rest (i + 1) (acc ++ [summary]) tr'
  | (Raise e, tr') => (Raise e, tr')
  | (Diverge, tr') => (Diverge, tr')
  end.
Proof. reflexivity. Qed.

(** The map stage sends the requests of the chunks in chunk order and, when
    every answer parses, returns the summaries in that order; when a call
    raises, it has sent the requests of the first chunks only. *)
Lemma map_stage_spec (chunks : list str) :
  forall (i : Z) (acc : list Json.value) (tr : trace),
    let reqs :=
      map_requests person_name purpose tone channel model n chunks i in
    match
      map_stage api_key provider person_name purpose tone channel model n
        chunks i acc tr
    with
    | (Return summaries, tr') =>
        tr' = tr ++ reqs
        /\ exists new, summaries = acc ++ new
                       /\ answered provider tr reqs new
    | (Raise e, tr') =>
        exists k, (k <= length chunks)%nat /\ tr' = tr ++ firstn k reqs
    | (Diverge, _) => False
    end.
Proof.
  induction chunks as [|ch rest IH]; intros i acc tr reqs.
  - simpl. split; [now rewrite app_nil_r|].
    exists []. now rewrite app_nil_r.
  - rewrite map_stage_cons.
    pose proof (call_outcome api_key provider CHUNK_PROMPT
                  (chunk_payload person_name purpose tone channel i n ch)
                  model tr) as Hcall.
    cbv zeta in Hcall.
    change (mk_request model (lit "0.3") CHUNK_PROMPT
              (chunk_payload person_name purpose tone channel i n ch))
      with (map_request person_name purpose tone channel model n i ch)
      in Hcall.
    subst reqs. cbn [map_requests].
    set (req := map_request person_name purpose tone channel model n i ch)
      in *.
    destruct (_call_openai_json api_key provider CHUNK_PROMPT
                (chunk_payload person_name purpose tone channel i n ch)
                model tr) as [[v|e|] tr1].
    + destruct Hcall as (-> & content & Hprov & Hparse).
      specialize (IH (i + 1) (acc ++ [v]) (tr ++ [req])). cbv zeta in IH.
      destruct (map_stage api_key provider person_name purpose tone channel
                  model n rest (i + 1) (acc ++ [v]) (tr ++ [req]))
        as [[sums|e|] tr2].
      * destruct IH as (-> & new & -> & Hans).
        split; [now rewrite <- app_assoc|].
        exists (v :: new). split; [now rewrite <- app_assoc|].
        simpl. eauto.
      * destruct IH as (k & Hk & ->).
        exists (S k). split; [simpl; lia|].
        now rewrite <- app_assoc.
      * assumption.
    + destruct Hcall as [-> | ->].
      * exists O. split; [lia|]. simpl. now rewrite app_nil_r.
      * exists 1%nat. split; [simpl; lia|]. reflexivity.
    + assumption.
Qed.

End MapStage.

(** With the default chunk size [_chunk_text] returns at least one chunk. *)
Lemma chunk_text_default (text : str) :
  exists chunks, _chunk_text text 9000 = Some chunks /\ chunks <> [].
Proof.
  destruct (Z.leb_spec (len text) 9000) as [Hshort|Hlong].
  - exists [text]. split; [|discriminate].
    unfold _chunk_text, chunk_text_fuel.
    destruct (Z.leb_spec (len text) 9000); [reflexivity | lia].
  - destruct (chunk_text_loop_case text 9000 ltac:(lia) Hlong)
      as (starts & Hres & _ & _ & _ & Hhd & _).
    exists (slices text (starts ++ [len text])). split; [assumption|].
    intros Hnil. apply (f_equal (@length _)) in Hnil.
    rewrite length_slices_app in Hnil.
    destruct starts; [discriminate | simpl in Hnil; lia].
Qed.

(** Every run of [summarize_whatsapp_hybrid] sends the requests of the chunks
    in chunk order.  When a call of the map stage raises, only the requests
    of the first chunks have been sent and no reduce request.  Otherwise
    there is one summary per chunk, each the parsed answer to the request of
    its chunk, and after them exactly one reduce request is sent; its
    payload is the serialization of [{"chunk_summaries": summaries}] with
    the summaries in chunk order. *)
Lemma summarize_trace
  (api_key : option str) (provider : trace -> request -> option str)
  (json_dumps : Json.value -> str)
  (clean_text person_name purpose tone channel model : str) (tr0 : trace) :
  exists chunks : list str,
    _chunk_text clean_text 9000 = Some chunks /\ chunks <> [] /\
    let reqs :=
      map_requests person_name purpose tone channel model (len chunks)
        chunks 1 in
    let run :=
      summarize_whatsapp_hybrid api_key provider json_dumps clean_text
        person_name purpose tone channel model tr0 in
    length reqs = length chunks
    /\ filter is_reduce reqs = []
    /\ ((exists (k : nat) (e : exn),
            (k <= length chunks)%nat
            /\ run = (Raise e, tr0 ++ firstn k reqs))
        \/ (exists summaries : list Json.value,
               answered provider tr0 reqs summaries
               /\ length summaries = length chunks
               /\ let reduce :=
                    reduce_request model
                      (json_dumps (reduce_object summaries)) in
                  snd run = tr0 ++ reqs ++ [reduce]
                  /\ filter is_reduce (reqs ++ [reduce]) = [reduce]
                  /\ fst run =
                       match provider (tr0 ++ reqs) reduce with
                       | Some content => parse_model_output content
                       | None => Raise ProviderError
                       end)).
Proof.
  destruct (chunk_text_default clean_text) as (chunks & Hchunks & Hne).
  exists chunks. refine (conj Hchunks (conj Hne _)).
  intros reqs run.
  pose proof (map_requests_not_reduce person_name purpose tone channel model
                (len chunks) chunks 1) as Hmap.
  fold reqs in Hmap.
  refine (conj (length_map_requests _ _ _ _ _ _ _ _) (conj Hmap _)).
  subst run. unfold summarize_whatsapp_hybrid. rewrite Hchunks.
  unfold bind.
  destruct (get_client_cases api_key) as [Habsent|[key Hkey]].
  - (* no key: the first call of the map stage raises *)
    left. exists O, not_set. split; [lia|].
    destruct chunks as [|ch rest]; [congruence|].
    rewrite map_stage_cons, call_missing_key by assumption.
    simpl. now rewrite app_nil_r.
  - pose proof (map_stage_spec api_key provider person_name purpose tone
                  channel model (len chunks) chunks 1 [] tr0) as Hstage.
    cbv zeta in Hstage. fold reqs in Hstage.
    destruct (map_stage api_key provider person_name purpose tone channel
                model (len chunks) chunks 1 [] tr0) as [[sums|e|] tr1].
    + destruct Hstage as (-> & new & -> & Hans). simpl app in *.
      right. exists new.
      refine (conj Hans (conj _ _)).
      * rewrite (answered_length _ _ _ _ Hans).
        apply length_map_requests.
      * cbv zeta.
        rewrite (call_with_key api_key provider REDUCE_PROMPT _ model key _
                   Hkey).
        cbn [fst snd].
        change (mk_request model (lit "0.3") REDUCE_PROMPT
                  (json_dumps (reduce_object new)))
          with (reduce_request model (json_dumps (reduce_object new))).
        refine (conj _ (conj _ eq_refl)).
        -- now rewrite app_assoc.
        -- rewrite filter_app, Hmap. cbn [filter app].
           now rewrite reduce_request_is_reduce.
    + left. destruct Hstage as (k & Hk & ->). exists k, e. auto.
    + contradiction.
Qed.

(** With the key set and a provider that always answers, the map stage
    returns. *)
Lemma map_stage_returns (api_key : option str)
  (provider : trace -> request -> option str)
  (person_name purpose tone channel model key : str) (n : Z) :
  _get_client api_key = Return key ->
  (forall tr req, exists content v,
      provider tr req = Some content
      /\ parse_model_output content = Return v) ->
  forall (chunks : list str) (i : Z) (acc : list Json.value) (tr : trace),
  exists summaries tr',
    map_stage api_key provider person_name purpose tone channel model n
      chunks i acc tr = (Return summaries, tr').
Proof.
  intros Hkey Horacle.
  induction chunks as [|ch rest IH]; intros i acc tr.
  - simpl. unfold ret. eauto.
  - rewrite map_stage_cons.
    rewrite (call_with_key api_key provider CHUNK_PROMPT _ model key tr Hkey).
    cbv zeta.
    destruct (Horacle tr
                (mk_request model (lit "0.3") CHUNK_PROMPT
                   (chunk_payload person_name purpose tone channel i n ch)))
      as (content & v & -> & ->).
    apply IH.
Qed.

(** C6 (map/reduce ordering and single reduce call).  The provider is an
    oracle that answers every request with text the JSON recovery accepts,
    and the key is set.  Then for every cleaned text
    [summarize_whatsapp_hybrid] gets one summary per chunk, each the parsed
    answer to the request of its chunk, the requests being sent in chunk
    order 1..n; it serializes [{"chunk_summaries": summaries}], the
    summaries in chunk order, into one payload, and sends exactly one reduce
    request, after the map requests, whatever the number of chunks; what it
    returns is the parsed answer to that request. *)
Theorem map_reduce_order
  (api_key : option str) (provider : trace -> request -> option str)
  (json_dumps : Json.value -> str)
  (clean_text person_name purpose tone channel model : str) (tr0 : trace) :
  (exists key, api_key = Some key /\ key <> []) ->
  (forall tr req, exists content v,
      provider tr req = Some content
      /\ parse_model_output content = Return v) ->
  exists (chunks : list str) (summaries : list Json.value)
         (final : Json.value),
    _chunk_text clean_text 9000 = Some chunks
    /\ length summaries = length chunks
    /\ let reqs :=
         map_requests person_name purpose tone channel model (len chunks)
           chunks 1 in
       let reduce :=
         {| req_model := model;
            req_temperature := lit "0.3";
            req_system := REDUCE_PROMPT;
            req_user :=
              json_dumps
                (Json.Object
                   [(Json.points (lit "chunk_summaries"),
                     Json.Array summaries)]) |} in
       answered provider tr0 reqs summaries
       /\ summarize_whatsapp_hybrid api_key provider json_dumps clean_text
            person_name purpose tone channel model tr0
          = (Return final, tr0 ++ reqs ++ [reduce])
       /\ filter is_reduce (reqs ++ [reduce]) = [reduce]
       /\ (exists content,
              provider (tr0 ++ reqs) reduce = Some content
              /\ parse_model_output content = Return final).
Proof.
  intros (key & -> & Hne) Horacle.
  assert (Hkey : _get_client (Some key) = Return key)
    by (destruct key; [congruence | reflexivity]).
  destruct (summarize_trace (Some key) provider json_dumps clean_text
              person_name purpose tone channel model tr0)
    as (chunks & Hchunks & _ & _ & _ & Hrun).
  cbv zeta in Hrun.
  destruct Hrun as [(k & e & _ & Hraise)|(summaries & Hans & Hlen & Hred)].
  - exfalso. revert Hraise.
    unfold summarize_whatsapp_hybrid, bind. rewrite Hchunks.
    destruct (map_stage_returns (Some key) provider person_name purpose tone
                channel model key (len chunks) Hkey Horacle chunks 1 [] tr0)
      as (sums & tr1 & ->).
    rewrite (call_with_key (Some key) provider REDUCE_PROMPT _ model key tr1
               Hkey).
    cbv zeta.
    destruct (Horacle tr1
                (mk_request model (lit "0.3") REDUCE_PROMPT
                   (json_dumps (reduce_object sums))))
      as (content & v & -> & ->).
    discriminate.
  - cbv zeta in Hred. destruct Hred as (Htrace & Hone & Hout).
    destruct (Horacle
                (tr0 ++ map_requests person_name purpose tone channel model
                          (len chunks) chunks 1)
                (reduce_request model (json_dumps (reduce_object summaries))))
      as (content & final & Hprov & Hparse).
    exists chunks, summaries, final.
    refine (conj Hchunks (conj Hlen _)). cbv zeta.
    refine (conj Hans (conj _ (conj Hone _))).
    + rewrite Hprov, Hparse in Hout.
      destruct (summarize_whatsapp_hybrid (Some key) provider json_dumps
                  clean_text person_name purpose tone channel model tr0)
        as [out tr]. cbn [fst snd] in Htrace, Hout.
      now rewrite Htrace, Hout.
    + eauto.
Qed.

Lemma map_reduce_order_witness :
  let oracle : trace -> request -> option str :=
    fun _ _ => Some (lit "{}") in
  let dumps : Json.value -> str :=
    fun v =>
      match v with
      | Json.Object [(_, Json.Array items)] => str_of_int (len items)
      | _ => lit "?"
      end in
  (exists key, Some (lit "sk-test") = Some key /\ key <> [])
  /\ (forall (tr : trace) (req : request), exists content v,
         oracle tr req = Some content
         /\ parse_model_output content = Return v)
  /\ exists (chunks : list str) (summaries : list Json.value)
            (final : Json.value),
       _chunk_text (lit "hi") 9000 = Some chunks
       /\ length summaries = length chunks
       /\ summarize_whatsapp_hybrid (Some (lit "sk-test")) oracle dumps
            (lit "hi") (lit "Ann") (lit "Catch up") (lit "Warm")
            (lit "WhatsApp") (lit "gpt-4.1-mini") []
          = (Return final,
             map_requests (lit "Ann") (lit "Catch up") (lit "Warm")
               (lit "WhatsApp") (lit "gpt-4.1-mini") (len chunks) chunks 1
             ++ [ {| req_model := lit "gpt-4.1-mini";
                     req_temperature := lit "0.3";
                     req_system := REDUCE_PROMPT;
                     req_user :=
                       dumps
                         (Json.Object
                            [(Json.points (lit "chunk_summaries"),
                              Json.Array summaries)]) |} ]).
Proof.
  intros oracle dumps.
  assert (Hkey : exists key, Some (lit "sk-test") = Some key /\ key <> [])
    by (exists (lit "sk-test"); split; [reflexivity | discriminate]).
  assert (Horacle : forall (tr : trace) (req : request), exists content v,
             oracle tr req = Some content
             /\ parse_model_output content = Return v)
    by (intros; exists (lit "{}"), (Json.Object []); split; reflexivity).
  refine (conj Hkey (conj Horacle _)).
  destruct (map_reduce_order (Some (lit "sk-test")) oracle dumps
              (lit "hi") (lit "Ann") (lit "Catch up") (lit "Warm")
              (lit "WhatsApp") (lit "gpt-4.1-mini") [] Hkey Horacle)
    as (chunks & summaries & final & Hchunks & Hlen & Hrest).
  cbv zeta in Hrest. destruct Hrest as (_ & Hrun & _).
  exists chunks, summaries, final.
  refine (conj Hchunks (conj Hlen _)). exact Hrun.
Defined.

(** C7 (missing credential).  When [OPENAI_API_KEY] is unset or empty, every
    call of [_call_openai_json] and every summarization raise
    [RuntimeError("OPENAI_API_KEY is not set.")] without a request having
    been sent to the provider; [clean_whatsapp_text] does not read the key
    and returns its text and stats all the same. *)
Theorem missing_credential
  (api_key : option str) (provider : trace -> request -> option str)
  (json_dumps : Json.value -> str) :
  api_key = None \/ api_key = Some [] ->
  _get_client api_key
  = Raise (RuntimeError (lit "OPENAI_API_KEY is not set."))
  /\ (forall (system_prompt user_content model : str) (tr : trace),
         _call_openai_json api_key provider system_prompt user_content model
           tr
         = (Raise (RuntimeError (lit "OPENAI_API_KEY is not set.")), tr))
  /\ (forall (clean_text person_name purpose tone channel model : str)
             (tr : trace),
         summarize_whatsapp_hybrid api_key provider json_dumps clean_text
           person_name purpose tone channel model tr
         = (Raise (RuntimeError (lit "OPENAI_API_KEY is not set.")), tr))
  /\ (forall (raw : str) (keep_last_lines : Z)
             (remove_system remove_attachments pii_mask : bool),
         exists (text : str) (st : stats),
           clean_whatsapp_text raw keep_last_lines remove_system
             remove_attachments pii_mask = (text, st)
           /\ final_chars st = len text).
Proof.
  intros Hkey.
  refine (conj (get_client_missing _ Hkey) (conj _ (conj _ _))).
  - intros. now apply call_missing_key.
  - intros clean_text person_name purpose tone channel model tr.
    destruct (chunk_text_default clean_text) as (chunks & Hchunks & Hne).
    unfold summarize_whatsapp_hybrid, bind. rewrite Hchunks.
    destruct chunks as [|ch rest]; [congruence|].
    now rewrite map_stage_cons, call_missing_key.
  - intros raw k rs ra pm. rewrite clean_whatsapp_text_unfold.
    eexists _, _. split; reflexivity.
Qed.

Lemma missing_credential_witness :
  (@None str = None \/ @None str = Some [])
  /\ summarize_whatsapp_hybrid None (fun _ _ => Some (lit "{}"))
       (fun _ => lit "{}") (lit "hi") (lit "Ann") (lit "Catch up")
       (lit "Warm") (lit "WhatsApp") (lit "gpt-4.1-mini") []
     = (Raise (RuntimeError (lit "OPENAI_API_KEY is not set.")), []).
Proof.
  split; [now left|].
  apply (missing_credential None (fun _ _ => Some (lit "{}"))
           (fun _ => lit "{}")).
  now left.
Defined.


(** Three chunks: a provider that answers the number of requests it has
    seen so far shows the order in which the summaries reach the reduce
    payload. *)
Example map_reduce_three_chunks (json_dumps : Json.value -> str) :
  let counting : trace -> request -> option str :=
    fun tr _ => Some (str_of_int (len tr)) in
  let run :=
    summarize_whatsapp_hybrid (Some (lit "sk-test")) counting json_dumps
      (repeat "a"%char (Z.to_nat 20000)) (lit "Ann") (lit "Catch up") (lit "Warm")
      (lit "WhatsApp") (lit "gpt-4.1-mini") [] in
  option_map (map (fun c => len c)) (_chunk_text (repeat "a"%char (Z.to_nat 20000)) 9000)
  = Some [9000; 9000; 2000]
  /\ map req_system (snd run)
     = [CHUNK_PROMPT; CHUNK_PROMPT; CHUNK_PROMPT; REDUCE_PROMPT]
  /\ map (fun r => contains (lit "Chat chunk 2/3:") (req_user r))
       (firstn 3 (snd run))
     = [false; true; false]
  /\ map req_user (skipn 3 (snd run))
     = [json_dumps
          (Json.Object
             [([99; 104; 117; 110; 107; 95; 115; 117; 109; 109; 97; 114;
                105; 101; 115],
               Json.Array [Json.Int 0; Json.Int 1; Json.Int 2])])]
  /\ fst run = Return (Json.Int 3).
Proof. vm_compute. repeat split. Qed.

(* ================================================================= *)
(** * Part III: further properties of the code *)
(* ================================================================= *)

(** ** [read_txt_file]: UTF-8 decoding that ignores errors *)

Lemma val_range (b : Byte.byte) : 0 <= Utf8.val b < 256.
Proof.
  unfold Utf8.val. pose proof (Byte.to_N_bounded b). lia.
Qed.

Lemma val_byte_of (n : Z) : 0 <= n < 256 -> Utf8.val (Utf8.byte_of n) = n.
Proof.
  intros Hn. unfold Utf8.val, Utf8.byte_of.
  destruct (Byte.of_N (Z.to_N n)) as [b|] eqn:E.
  - apply Byte.to_of_N in E. lia.
  - apply Byte.of_N_None_iff in E. lia.
Qed.

Lemma decode_cons (b0 : Byte.byte) (s1 : list Byte.byte) :
  Utf8.decode_ignore (b0 :: s1) =
  let ch := Utf8.val b0 in
  if ch <? 128 then ch :: Utf8.decode_ignore s1
  else if ch <? 224 then
    if ch <? 194 then Utf8.decode_ignore s1
    else
      match s1 with
      | [] => []
      | b1 :: s2 =>
          if Utf8.is_cont b1
          then (ch * 64 + Utf8.val b1 - 12416) :: Utf8.decode_ignore s2
          else Utf8.decode_ignore s1
      end
  else if ch <? 240 then
    match s1 with
    | [] => []
    | b1 :: s2 =>
        if negb (Utf8.is_cont b1)
           || (if Utf8.val b1 <? 160 then ch =? 224 else ch =? 237)
        then Utf8.decode_ignore s1
        else
          match s2 with
          | [] => []
          | b2 :: s3 =>
              if Utf8.is_cont b2
              then (ch * 4096 + Utf8.val b1 * 64 + Utf8.val b2 - 925824)
                   :: Utf8.decode_ignore s3
              else Utf8.decode_ignore s2
          end
    end
  else if ch <? 245 then
    match s1 with
    | [] => []
    | b1 :: s2 =>
        if negb (Utf8.is_cont b1)
           || (if Utf8.val b1 <? 144 then ch =? 240 else ch =? 244)
        then Utf8.decode_ignore s1
        else
          match s2 with
          | [] => []
          | b2 :: s3 =>
              if Utf8.is_cont b2 then
                match s3 with
                | [] => []
                | b3 :: s4 =>
                    if Utf8.is_cont b3
                    then (ch * 262144 + Utf8.val b1 * 4096
                          + Utf8.val b2 * 64 + Utf8.val b3 - 63447168)
                         :: Utf8.decode_ignore s4
                    else Utf8.decode_ignore s3
                end
              else Utf8.decode_ignore s2
          end
    end
  else Utf8.decode_ignore s1.
Proof. reflexivity. Qed.

(** Turns the boolean tests in the context into arithmetic facts. *)
Ltac bool_to_Z :=
  unfold Utf8.is_cont in *;
  repeat match goal with
    | H : negb _ = true |- _ => apply negb_true_iff in H
    | H : negb _ = false |- _ => apply negb_false_iff in H
    | H : (_ && _) = true |- _ => apply andb_true_iff in H; destruct H
    | H : (_ || _) = false |- _ => apply orb_false_iff in H; destruct H
    | H : (_ <? _) = true |- _ => apply Z.ltb_lt in H
    | H : (_ <? _) = false |- _ => apply Z.ltb_ge in H
    | H : (_ <=? _) = true |- _ => apply Z.leb_le in H
    | H : (_ <=? _) = false |- _ => apply Z.leb_gt in H
    | H : (_ =? _) = true |- _ => apply Z.eqb_eq in H
    | H : (_ =? _) = false |- _ => apply Z.eqb_neq in H
    end.

(** X1.  [read_txt_file] leaves ASCII data as it is: bytes below 128 decode
    to the characters of the same values. *)
Theorem read_txt_file_ascii (data : list Byte.byte) :
  Forall (fun b => Utf8.val b < 128) data ->
  read_txt_file data = map Utf8.val data.
Proof.
  unfold read_txt_file.
  induction 1 as [|b data Hb _ IH]; [reflexivity|].
  rewrite decode_cons. cbv zeta.
  destruct (Z.ltb_spec (Utf8.val b) 128); [|lia].
  simpl. now rewrite IH.
Qed.

Lemma read_txt_file_ascii_witness :
  Forall (fun b => Utf8.val b < 128) [Byte.x48; Byte.x69]
  /\ read_txt_file [Byte.x48; Byte.x69] = [72; 105].
Proof.
  assert (H : Forall (fun b => Utf8.val b < 128) [Byte.x48; Byte.x69])
    by (repeat constructor).
  split; [exact H|].
  exact (read_txt_file_ascii [Byte.x48; Byte.x69] H).
Defined.

Lemma decode_encode_point (cp : Z) (rest : list Byte.byte) :
  Utf8.scalar cp ->
  Utf8.decode_ignore (Utf8.encode_point cp ++ rest)
  = cp :: Utf8.decode_ignore rest.
Proof.
  intros [Hrange Hsur]. unfold Utf8.encode_point.
  destruct (Z.ltb_spec cp 128).
  { cbn [app]. rewrite decode_cons. cbv zeta.
    rewrite val_byte_of by lia.
    destruct (Z.ltb_spec cp 128); [reflexivity | lia]. }
  destruct (Z.ltb_spec cp 2048).
  { cbn [app]. rewrite decode_cons. cbv zeta.
    unfold Utf8.is_cont.
    rewrite !val_byte_of by (Z.div_mod_to_equations; lia).
    repeat match goal with
      | |- context [?a <? ?b] =>
          destruct (Z.ltb_spec a b); try (Z.div_mod_to_equations; lia)
      | |- context [?a <=? ?b] =>
          destruct (Z.leb_spec a b); try (Z.div_mod_to_equations; lia)
      end.
    cbn [andb]. f_equal. Z.div_mod_to_equations. lia. }
  destruct (Z.ltb_spec cp 65536).
  { cbn [app]. rewrite decode_cons. cbv zeta.
    unfold Utf8.is_cont.
    rewrite !val_byte_of by (Z.div_mod_to_equations; lia).
    repeat match goal with
      | |- context [?a <? ?b] =>
          destruct (Z.ltb_spec a b); try (Z.div_mod_to_equations; lia)
      | |- context [?a <=? ?b] =>
          destruct (Z.leb_spec a b); try (Z.div_mod_to_equations; lia)
      | |- context [?a =? ?b] =>
          destruct (Z.eqb_spec a b); try (Z.div_mod_to_equations; lia)
      end;
      cbn [andb orb negb]; f_equal; Z.div_mod_to_equations; lia. }
  cbn [app]. rewrite decode_cons. cbv zeta.
  unfold Utf8.is_cont.
  rewrite !val_byte_of by (Z.div_mod_to_equations; lia).
  repeat match goal with
    | |- context [?a <? ?b] =>
        destruct (Z.ltb_spec a b); try (Z.div_mod_to_equations; lia)
    | |- context [?a <=? ?b] =>
        destruct (Z.leb_spec a b); try (Z.div_mod_to_equations; lia)
    | |- context [?a =? ?b] =>
        destruct (Z.eqb_spec a b); try (Z.div_mod_to_equations; lia)
    end;
    cbn [andb orb negb]; f_equal; Z.div_mod_to_equations; lia.
Qed.

(** X2.  A file that is the UTF-8 encoding of a text of Unicode scalar
    values is read back as that text; and when other bytes follow the
    encoding, the text is read unchanged and followed by what the other
    bytes give. *)
Theorem read_txt_file_encode (text : list Z) :
  Forall Utf8.scalar text ->
  read_txt_file (Utf8.encode text) = text
  /\ forall rest : list Byte.byte,
       read_txt_file (Utf8.encode text ++ rest) = text ++ read_txt_file rest.
Proof.
  intros Htext.
  assert (Hrest : forall rest : list Byte.byte,
             read_txt_file (Utf8.encode text ++ rest)
             = text ++ read_txt_file rest).
  { intros rest. unfold read_txt_file, Utf8.encode.
    induction Htext as [|cp text Hcp _ IH]; [reflexivity|].
    cbn [map concat]. rewrite <- app_assoc.
    rewrite decode_encode_point by assumption.
    now rewrite IH. }
  split; [|exact Hrest].
  specialize (Hrest []). rewrite !app_nil_r in Hrest. exact Hrest.
Qed.

Lemma read_txt_file_encode_witness :
  Forall Utf8.scalar [72; 233; 8364; 128512]
  /\ read_txt_file (Utf8.encode [72; 233; 8364; 128512])
     = [72; 233; 8364; 128512].
Proof.
  assert (H : Forall Utf8.scalar [72; 233; 8364; 128512])
    by (repeat constructor; unfold Utf8.scalar; lia).
  split; [exact H|].
  exact (proj1 (read_txt_file_encode [72; 233; 8364; 128512] H)).
Defined.

Lemma decode_ignore_scalar (n : nat) :
  forall s : list Byte.byte,
    (length s <= n)%nat ->
    Forall Utf8.scalar (Utf8.decode_ignore s)
    /\ (length (Utf8.decode_ignore s) <= length s)%nat.
Proof.
  induction n as [|n IH]; intros s Hn.
  - destruct s; [split; [constructor | simpl; lia] | simpl in Hn; lia].
  - destruct s as [|b0 s1]; [split; [constructor | simpl; lia]|].
    simpl in Hn. rewrite decode_cons. cbv zeta.
    pose proof (val_range b0) as R0.
    assert (I1 := IH s1 ltac:(lia)).
    destruct (Utf8.val b0 <? 128) eqn:T0.
    { bool_to_Z. destruct I1 as [F1 L1]. split.
      - constructor; [unfold Utf8.scalar; lia | assumption].
      - simpl. lia. }
    assert (Skip1 : Forall Utf8.scalar (Utf8.decode_ignore s1)
                    /\ (length (Utf8.decode_ignore s1)
                        <= length (b0 :: s1))%nat)
      by (destruct I1; split; [assumption | simpl; lia]).
    assert (Stop : Forall Utf8.scalar []
                   /\ (@length Z [] <= length (b0 :: s1))%nat)
      by (split; [constructor | simpl; lia]).
    destruct (Utf8.val b0 <? 224) eqn:T1.
    { destruct (Utf8.val b0 <? 194) eqn:T2; [exact Skip1|].
      destruct s1 as [|b1 s2]; [exact Stop|].
      pose proof (val_range b1) as R1.
      destruct (Utf8.is_cont b1) eqn:C1; [|exact Skip1].
      simpl in Hn. destruct (IH s2 ltac:(lia)) as [F2 L2].
      bool_to_Z. split.
      - constructor; [unfold Utf8.scalar; lia | assumption].
      - simpl. lia. }
    destruct (Utf8.val b0 <? 240) eqn:T3.
    { destruct s1 as [|b1 s2]; [exact Stop|].
      pose proof (val_range b1) as R1.
      destruct (negb (Utf8.is_cont b1)
                || (if Utf8.val b1 <? 160 then Utf8.val b0 =? 224
                    else Utf8.val b0 =? 237)) eqn:C1; [exact Skip1|].
      destruct s2 as [|b2 s3]; [exact Stop|].
      pose proof (val_range b2) as R2.
      simpl in Hn.
      destruct (Utf8.is_cont b2) eqn:C2.
      - destruct (IH s3 ltac:(lia)) as [F3 L3].
        destruct (Utf8.val b1 <? 160) eqn:T4; bool_to_Z; split;
          try (constructor; [unfold Utf8.scalar; lia | assumption]);
          simpl; lia.
      - destruct (IH (b2 :: s3) ltac:(simpl; lia)) as [F2 L2].
        split; [assumption | simpl in *; lia]. }
    destruct (Utf8.val b0 <? 245) eqn:T5; [|exact Skip1].
    destruct s1 as [|b1 s2]; [exact Stop|].
    pose proof (val_range b1) as R1.
    destruct (negb (Utf8.is_cont b1)
              || (if Utf8.val b1 <? 144 then Utf8.val b0 =? 240
                  else Utf8.val b0 =? 244)) eqn:C1; [exact Skip1|].
    destruct s2 as [|b2 s3]; [exact Stop|].
    pose proof (val_range b2) as R2.
    simpl in Hn.
    destruct (Utf8.is_cont b2) eqn:C2.
    2:{ destruct (IH (b2 :: s3) ltac:(simpl; lia)) as [F2 L2].
        split; [assumption | simpl in *; lia]. }
    destruct s3 as [|b3 s4]; [exact Stop|].
    pose proof (val_range b3) as R3.
    simpl in Hn.
    destruct (Utf8.is_cont b3) eqn:C3.
    + destruct (IH s4 ltac:(lia)) as [F4 L4].
      destruct (Utf8.val b1 <? 144) eqn:T6; bool_to_Z; split;
        try (constructor; [unfold Utf8.scalar; lia | assumption]);
        simpl; lia.
    + destruct (IH (b3 :: s4) ltac:(simpl; lia)) as [F3 L3].
      split; [assumption | simpl in *; lia].
Qed.

(** X3.  Whatever the bytes of the file, [read_txt_file] returns a text of
    Unicode scalar values (no surrogate, nothing above U+10FFFF) that has at
    most one character per byte. *)
Theorem read_txt_file_scalar (data : list Byte.byte) :
  Forall Utf8.scalar (read_txt_file data)
  /\ (length (read_txt_file data) <= length data)%nat.
Proof. apply (decode_ignore_scalar (length data)). lia. Qed.

(** ** [str.strip], [str.splitlines] and [str.join] *)

Lemma lstrip_fixed (s : str) :
  match s with [] => True | c :: _ => isspace c = false end -> lstrip s = s.
Proof. destruct s as [|c s]; simpl; [auto | now intros ->]. Qed.

Lemma lstrip_head (s : str) :
  match lstrip s with [] => True | c :: _ => isspace c = false end.
Proof.
  induction s as [|c s IH]; simpl; [exact I|].
  destruct (isspace c) eqn:E; [assumption | simpl; assumption].
Qed.

Lemma lstrip_idem (s : str) : lstrip (lstrip s) = lstrip s.
Proof. apply lstrip_fixed, lstrip_head. Qed.

Lemma lstrip_snoc (a : str) (h : ascii) :
  isspace h = false -> exists l, lstrip (a ++ [h]) = l ++ [h].
Proof.
  intros Hh. induction a as [|c a IH]; simpl.
  - rewrite Hh. now exists [].
  - destruct (isspace c); [assumption|]. now exists (c :: a).
Qed.

Lemma rstrip_idem (s : str) : rstrip (rstrip s) = rstrip s.
Proof. unfold rstrip. now rewrite rev_involutive, lstrip_idem. Qed.

Lemma lstrip_rstrip (s : str) : lstrip s = s -> lstrip (rstrip s) = rstrip s.
Proof.
  intros Hs. destruct s as [|h t]; [reflexivity|].
  assert (Hh : isspace h = false).
  { pose proof (lstrip_head (h :: t)) as H. rewrite Hs in H. exact H. }
  unfold rstrip. simpl rev.
  destruct (lstrip_snoc (rev t) h Hh) as [l ->].
  rewrite rev_app_distr. simpl. now rewrite Hh.
Qed.

(** A stripped text has no whitespace left at its ends, so stripping it
    again changes nothing. *)
Lemma strip_idem (s : str) : strip (strip s) = strip s.
Proof.
  unfold strip.
  rewrite (lstrip_rstrip (lstrip s) (lstrip_idem s)).
  apply rstrip_idem.
Qed.

Lemma strip_one_line (l : str) : one_line l -> one_line (strip l).
Proof. intros H c Hin. apply H. now apply strip_incl. Qed.

Lemma splitlines_from_one_line (n : nat) :
  forall s cur,
    (length s <= n)%nat -> one_line cur ->
    Forall one_line (splitlines_from cur s).
Proof.
  induction n as [|n IH]; intros s cur Hn Hcur.
  - destruct s; [|simpl in Hn; lia].
    simpl. constructor; [|constructor].
    intros c Hin. apply Hcur. now apply in_rev.
  - destruct s as [|c s']; simpl.
    + constructor; [|constructor].
      intros x Hin. apply Hcur. now apply in_rev.
    + simpl in Hn. destruct (islinebreak c) eqn:Hc.
      * constructor; [intros x Hin; apply Hcur; now apply in_rev|].
        assert (Hnil : one_line []) by (intros x []).
        destruct (eqb_char c "013").
        -- destruct s' as [|d s'']; [constructor|].
           destruct (eqb_char d "010").
           ++ destruct s''; [constructor|]. apply IH; [simpl in *; lia | auto].
           ++ apply IH; [simpl in *; lia | auto].
        -- destruct s'; [constructor|]. apply IH; [simpl in *; lia | auto].
      * apply IH; [lia|].
        intros x [<-|Hin]; [assumption | now apply Hcur].
Qed.

(** No line of [splitlines] holds a line-boundary character. *)
Lemma splitlines_one_line (s : str) : Forall one_line (splitlines s).
Proof.
  destruct s as [|c s]; [constructor|].
  apply (splitlines_from_one_line (length (c :: s))); [lia | intros x []].
Qed.

Lemma splitlines_from_app (l : str) :
  one_line l ->
  forall cur t, splitlines_from cur (l ++ t) = splitlines_from (rev l ++ cur) t.
Proof.
  induction l as [|c l IH]; intros Hl cur t; [reflexivity|].
  simpl app. simpl splitlines_from at 1.
  rewrite (Hl c (or_introl eq_refl)).
  rewrite IH by (intros x Hx; apply Hl; now right).
  simpl rev. now rewrite <- app_assoc.
Qed.

Lemma join_cons2 (sep p q : str) (rest : list str) :
  join sep (p :: q :: rest) = p ++ sep ++ join sep (q :: rest).
Proof. reflexivity. Qed.

Lemma join_nonempty (sep : str) (ls : list str) :
  ls <> [] -> Forall (fun l => l <> []) ls -> join sep ls <> [].
Proof.
  destruct ls as [|p [|q rest]]; intros Hne Hall; [congruence | |];
    inversion Hall as [|? ? Hp _]; subst.
  - exact Hp.
  - rewrite join_cons2. destruct p; [congruence | discriminate].
Qed.

(** Joining non-empty single lines with newlines and splitting the result
    gives the lines back. *)
Lemma splitlines_join (ls : list str) :
  Forall one_line ls -> Forall (fun l => l <> []) ls ->
  splitlines (join NL ls) = ls.
Proof.
  induction ls as [|l rest IH]; intros Hone Hne; [reflexivity|].
  inversion Hone as [|? ? Hl Hone']; subst.
  inversion Hne as [|? ? Hln Hne']; subst.
  destruct rest as [|r rest'].
  - simpl join. destruct l as [|c l]; [congruence|].
    unfold splitlines.
    rewrite <- (app_nil_r (c :: l)) at 1.
    rewrite splitlines_from_app by assumption.
    cbn [splitlines_from]. now rewrite app_nil_r, rev_involutive.
  - rewrite join_cons2.
    specialize (IH Hone' Hne').
    assert (HJ : join NL (r :: rest') <> [])
      by (apply join_nonempty; [discriminate | assumption]).
    destruct (join NL (r :: rest')) as [|j J] eqn:EJ; [congruence|].
    assert (Hsplit : splitlines (l ++ NL ++ j :: J)
                     = splitlines_from [] (l ++ NL ++ j :: J))
      by (destruct l; reflexivity).
    rewrite Hsplit, splitlines_from_app by assumption.
    rewrite app_nil_r. unfold NL. cbn [app].
    change (splitlines_from (rev l) ("010"%char :: j :: J))
      with (rev (rev l) :: splitlines_from [] (j :: J)).
    rewrite rev_involutive. f_equal. exact IH.
Qed.

(** ** The line window and the line filter of [clean_whatsapp_text] *)

Lemma window_pos (k : Z) (lines : list str) :
  0 < k -> window k lines = skipn (length lines - Z.to_nat k) lines.
Proof.
  intros Hk. unfold window, slice_from, clamp, len.
  destruct (Z.eqb_spec k 0); [lia|].
  destruct (Z.ltb_spec 0 k); [|lia].
  destruct (Z.ltb_spec (- k) 0); [|lia].
  cbn [negb andb]. f_equal. lia.
Qed.

Lemma window_nonpos (k : Z) (lines : list str) :
  k <= 0 -> window k lines = lines.
Proof.
  intros Hk. unfold window.
  destruct (Z.ltb_spec 0 k); [lia|]. now rewrite andb_false_r.
Qed.

Lemma window_len (k : Z) (lines : list str) :
  0 < k -> len (window k lines) = Z.min k (len lines).
Proof.
  intros Hk. rewrite window_pos by assumption.
  unfold len. rewrite length_skipn. lia.
Qed.

Lemma window_fits (k : Z) (lines : list str) :
  k <= 0 \/ len lines <= k -> window k lines = lines.
Proof.
  intros H. destruct (Z.ltb_spec 0 k) as [Hpos|Hneg].
  - rewrite window_pos by assumption.
    replace (length lines - Z.to_nat k)%nat with O; [reflexivity|].
    unfold len in H. lia.
  - now apply window_nonpos.
Qed.

Lemma filter_all {A} (f : A -> bool) (l : list A) :
  Forall (fun x => f x = true) l -> filter f l = l.
Proof.
  induction 1 as [|x l Hx _ IH]; simpl; [reflexivity|].
  now rewrite Hx, IH.
Qed.

Lemma filter_none {A} (f : A -> bool) (l : list A) :
  Forall (fun x => f x = false) l -> filter f l = [].
Proof.
  induction 1 as [|x l Hx _ IH]; simpl; [reflexivity|].
  now rewrite Hx, IH.
Qed.

(** Every line is blank, dropped or kept, and only one of the three. *)
Lemma lines_partition (rs ra : bool) (lines : list str) :
  len lines
  = len (filter blank_line lines) + len (filter (dropped_line rs ra) lines)
    + len (filter (kept_line rs ra) lines).
Proof.
  unfold len. induction lines as [|ln rest IH]; [reflexivity|].
  cbn [filter]. unfold blank_line at 1, kept_line at 1.
  destruct (dropped_line rs ra ln) eqn:Hd.
  - unfold dropped_line in Hd.
    destruct (is_empty (strip ln)); [discriminate|].
    cbn [negb andb]. cbn [length]. lia.
  - destruct (is_empty (strip ln)); cbn [negb andb]; cbn [length]; lia.
Qed.

Lemma kept_line_facts (rs ra : bool) (ln : str) :
  kept_line rs ra ln = true ->
  strip ln <> []
  /\ dropped_line rs ra ln = false
  /\ kept_line rs ra (strip ln) = true
  /\ dropped_line rs ra (strip ln) = false.
Proof.
  unfold kept_line. intros H.
  assert (Hd : dropped_line rs ra ln = false)
    by (destruct (dropped_line rs ra ln); [now rewrite andb_false_r in H
                                          | reflexivity]).
  assert (Hne : is_empty (strip ln) = false)
    by (destruct (is_empty (strip ln)); [discriminate | reflexivity]).
  assert (Hd' : dropped_line rs ra (strip ln) = false)
    by (unfold dropped_line in *; now rewrite strip_idem).
  refine (conj _ (conj Hd (conj _ Hd'))).
  - destruct (strip ln); [discriminate | discriminate].
  - rewrite strip_idem, Hd', Hne. reflexivity.
Qed.

(** The lines the filter keeps, stripped: none is empty, none has whitespace
    at its ends or a line boundary inside, and the filter would keep each of
    them again. *)
Lemma kept_lines_clean (rs ra : bool) (lines : list str) :
  Forall one_line lines ->
  let out := map strip (filter (kept_line rs ra) lines) in
  Forall (fun l => l <> [] /\ strip l = l /\ one_line l) out
  /\ Forall (fun l => kept_line rs ra l = true) out
  /\ Forall (fun l => dropped_line rs ra l = false) out.
Proof.
  intros Hone. cbv zeta.
  induction Hone as [|ln rest Hln _ IH]; [repeat constructor|].
  cbn [filter]. destruct (kept_line rs ra ln) eqn:Hk; [|exact IH].
  destruct (kept_line_facts _ _ _ Hk) as (Hne & _ & Hk' & Hd').
  destruct IH as (I1 & I2 & I3). cbn [map].
  repeat split; constructor; auto.
  refine (conj Hne (conj (strip_idem ln) (strip_one_line _ Hln))).
Qed.

Lemma in_skipn {A} (n : nat) (l : list A) (x : A) :
  In x (skipn n l) -> In x l.
Proof.
  revert l. induction n as [|n IH]; intros l; [auto|].
  destruct l as [|y l]; simpl; auto.
Qed.

Lemma window_one_line (raw : str) (k : Z) :
  Forall one_line (window k (splitlines raw)).
Proof.
  pose proof (splitlines_one_line raw) as H.
  destruct (Z.ltb_spec 0 k).
  - rewrite window_pos by assumption.
    rewrite Forall_forall in *. intros l Hin. apply H.
    now apply in_skipn in Hin.
  - now rewrite window_nonpos.
Qed.

(** X4.  The line window.  With [keep_last_lines = k > 0] only the last [k]
    lines of the text are considered: [kept_lines_window] is the smaller of
    [k] and the number of lines, and the text consists of some older lines
    followed by the window; with [k <= 0] every line is considered.  The
    older lines have no influence on the cleaned text or on
    [removed_noise_lines]. *)
Theorem clean_window (raw : str) (k : Z) (rs ra pm : bool) :
  let st := snd (clean_whatsapp_text raw k rs ra pm) in
  original_lines st = len (splitlines raw)
  /\ (0 < k ->
      kept_lines_window st = Z.min k (original_lines st)
      /\ exists older,
           splitlines raw = older ++ window k (splitlines raw)
           /\ len older = Z.max 0 (original_lines st - k))
  /\ (k <= 0 ->
      kept_lines_window st = original_lines st
      /\ window k (splitlines raw) = splitlines raw)
  /\ (forall raw' : str,
         window k (splitlines raw') = window k (splitlines raw) ->
         fst (clean_whatsapp_text raw' k rs ra pm)
         = fst (clean_whatsapp_text raw k rs ra pm)
         /\ removed_noise_lines (snd (clean_whatsapp_text raw' k rs ra pm))
            = removed_noise_lines st).
Proof.
  cbv zeta. rewrite clean_whatsapp_text_unfold. cbn [fst snd original_lines
    kept_lines_window removed_noise_lines].
  refine (conj eq_refl (conj _ (conj _ _))).
  - intros Hk. split; [now apply window_len|].
    exists (firstn (length (splitlines raw) - Z.to_nat k) (splitlines raw)).
    rewrite window_pos by assumption. split.
    + now rewrite firstn_skipn.
    + unfold len. rewrite length_firstn. lia.
  - intros Hk. now rewrite window_nonpos.
  - intros raw' Hw. rewrite clean_whatsapp_text_unfold.
    cbn [fst snd removed_noise_lines]. now rewrite Hw.
Qed.

(** X5.  The cleaned text, without masking.  With [pii_mask] off the text
    returned splits into exactly the kept lines, stripped and in order: no
    line is empty, none starts or ends with whitespace, and joining them
    with newlines gives the text back.  Every line of the window is blank,
    removed or kept: [kept_lines_window] is the number of blank lines plus
    [removed_noise_lines] plus the number of lines of the text. *)
Theorem clean_lines (raw : str) (k : Z) (rs ra : bool) :
  let lines := window k (splitlines raw) in
  let result := clean_whatsapp_text raw k rs ra false in
  let out := splitlines (fst result) in
  out = map strip (filter (kept_line rs ra) lines)
  /\ fst result = join NL out
  /\ Forall (fun l => l <> [] /\ strip l = l /\ one_line l) out
  /\ kept_lines_window (snd result)
     = len (filter blank_line lines) + removed_noise_lines (snd result)
       + len out.
Proof.
  cbv zeta. rewrite clean_whatsapp_text_unfold.
  cbn [fst snd kept_lines_window removed_noise_lines].
  set (lines := window k (splitlines raw)).
  assert (Hone : Forall one_line lines) by apply window_one_line.
  destruct (kept_lines_clean rs ra lines Hone) as (Hclean & _ & _).
  assert (Hsplit : splitlines
                     (join NL (map strip (filter (kept_line rs ra) lines)))
                   = map strip (filter (kept_line rs ra) lines)).
  { apply splitlines_join.
    - eapply Forall_impl; [|exact Hclean]. simpl. tauto.
    - eapply Forall_impl; [|exact Hclean]. simpl. tauto. }
  rewrite Hsplit.
  refine (conj eq_refl (conj eq_refl (conj Hclean _))).
  rewrite (lines_partition rs ra lines). unfold len.
  now rewrite length_map.
Qed.

(** X6.  Cleaning is idempotent without masking.  Run again on its own
    output with the same options and [pii_mask] off, [clean_whatsapp_text]
    returns the same text, removes nothing and keeps every line. *)
Theorem clean_idempotent (raw : str) (k : Z) (rs ra : bool) :
  let first := clean_whatsapp_text raw k rs ra false in
  let n := len (splitlines (fst first)) in
  clean_whatsapp_text (fst first) k rs ra false
  = (fst first,
     {| original_lines := n;
        kept_lines_window := n;
        removed_noise_lines := 0;
        final_chars := final_chars (snd first) |}).
Proof.
  cbv zeta.
  rewrite (clean_whatsapp_text_unfold raw). cbn [fst snd final_chars].
  set (lines := window k (splitlines raw)).
  set (out := map strip (filter (kept_line rs ra) lines)).
  assert (Hone : Forall one_line lines) by apply window_one_line.
  destruct (kept_lines_clean rs ra lines Hone) as (Hclean & Hkept & Hdrop).
  fold out in Hclean, Hkept, Hdrop.
  assert (Hsplit : splitlines (join NL out) = out).
  { apply splitlines_join.
    - eapply Forall_impl; [|exact Hclean]. simpl. tauto.
    - eapply Forall_impl; [|exact Hclean]. simpl. tauto. }
  assert (Hwin : window k out = out).
  { apply window_fits. destruct (Z.ltb_spec 0 k) as [Hpos|]; [right | now left].
    assert (Hl : len lines <= k).
    { subst lines. rewrite window_len by assumption. lia. }
    subst out. unfold len in *. rewrite length_map.
    pose proof (length_filter_le (kept_line rs ra) lines). lia. }
  rewrite clean_whatsapp_text_unfold. cbv zeta.
  rewrite Hsplit, Hwin.
  rewrite (filter_all _ _ Hkept), (filter_none _ _ Hdrop).
  assert (Hmap : map strip out = out).
  { clear -Hclean. induction Hclean as [|l ls (_ & Hl & _) _ IH];
      [reflexivity|]. cbn [map]. now rewrite Hl, IH. }
  rewrite Hmap. reflexivity.
Qed.

(** X7.  Attachment lines and the two filter flags.  With
    [remove_attachments] on, every line of the window whose stripped text is
    not empty and contains an attachment marker in any letter case (the
    bare word ["attached"] is one) is dropped from the text and counted in
    [removed_noise_lines]; a line is counted once, whichever lists it
    matches.  With both flags off nothing is counted and only blank lines
    disappear. *)
Theorem attachment_removal (raw : str) (k : Z) (rs pm : bool) :
  let lines := window k (splitlines raw) in
  let result := clean_whatsapp_text raw k rs true pm in
  In (lit "attached") ATTACHMENT_MARKERS
  /\ (forall ln m : str,
         In ln lines -> blank_line ln = false ->
         In m ATTACHMENT_MARKERS ->
         contains (lower m) (lower (strip ln)) = true ->
         In ln (filter (dropped_line rs true) lines)
         /\ ~ In ln (filter (kept_line rs true) lines))
  /\ removed_noise_lines (snd result)
     = len (filter (dropped_line rs true) lines)
  /\ removed_noise_lines (snd result)
     <= kept_lines_window (snd result) - len (filter blank_line lines)
  /\ removed_noise_lines (snd (clean_whatsapp_text raw k false false pm)) = 0
  /\ fst (clean_whatsapp_text raw k false false false)
     = join NL (map strip (filter (fun ln => negb (blank_line ln)) lines)).
Proof.
  cbv zeta. rewrite !clean_whatsapp_text_unfold.
  cbn [fst snd removed_noise_lines kept_lines_window].
  set (lines := window k (splitlines raw)).
  assert (Hoff : forall ln, dropped_line false false ln = false).
  { intros ln. unfold dropped_line. cbn [andb orb]. apply andb_false_r. }
  refine (conj _ (conj _ (conj eq_refl (conj _ (conj _ _))))).
  - simpl. auto 10.
  - intros ln m Hin Hblank Hm Hc.
    pose proof (contains_phrase _ _ _ Hm Hc) as Hany.
    assert (Hd : dropped_line rs true ln = true).
    { unfold dropped_line. unfold blank_line in Hblank.
      rewrite Hblank, Hany. cbn [negb andb]. apply orb_true_r. }
    split.
    + apply filter_In. auto.
    + intros Hk. apply filter_In in Hk. destruct Hk as [_ Hk].
      unfold kept_line in Hk. rewrite Hd in Hk.
      now rewrite andb_false_r in Hk.
  - pose proof (lines_partition rs true lines) as Hp.
    pose proof (len_nonneg (filter (kept_line rs true) lines)). lia.
  - rewrite filter_none; [reflexivity|].
    apply Forall_forall. auto.
  - f_equal. f_equal. apply filter_ext. intros ln.
    unfold kept_line, blank_line. rewrite Hoff. apply andb_true_r.
Qed.

(** ** [mask_pii] on text without addresses or numbers *)

Lemma sub_identity (p : Re.pattern) (repl s : str) :
  (forall k, Re.match_here p (skipn k s) = None) -> Re.sub p repl s = s.
Proof.
  unfold Re.sub. induction s as [|c s IH]; intros H.
  - simpl. specialize (H O). simpl in H. now rewrite H.
  - cbn [Re.sub_scan]. pose proof (H O) as H0. simpl in H0. rewrite H0.
    f_equal. apply IH. intros k. apply (H (S k)).
Qed.

Lemma email_token_at (w : str) : email_token w -> In "@"%char w.
Proof.
  intros (local & domain & tld & -> & _).
  apply in_or_app. right. now left.
Qed.

Lemma phone_token_digit (w : str) :
  phone_token w -> existsb isdecimal w = true.
Proof.
  intros (sign & first & interior & last & -> & _ & Hf & _).
  apply existsb_exists. exists first. split; [|assumption].
  apply in_or_app. right. now left.
Qed.

Lemma in_firstn_skipn {A} (n k : nat) (l : list A) (x : A) :
  In x (firstn n (skipn k l)) -> In x l.
Proof.
  intros H. apply (in_skipn k). revert H.
  generalize (skipn k l). clear. intros l.
  revert l. induction n as [|n IH]; intros l; destruct l as [|y l];
    simpl; try tauto.
  intros [->|H]; auto.
Qed.

Lemma email_not_found (text : str) :
  ~ In "@"%char text -> Re.search EMAIL_RE text = None.
Proof.
  intros Hno. apply search_None. intros k.
  destruct (Re.match_here EMAIL_RE (skipn k text)) as [n|] eqn:E;
    [|reflexivity].
  exfalso. apply Hno.
  apply match_here_sound in E. destruct E as [_ E].
  apply email_re_matches, email_token_at in E.
  now apply in_firstn_skipn in E.
Qed.

Lemma phone_not_found (text : str) :
  existsb isdecimal text = false -> Re.search PHONE_RE text = None.
Proof.
  intros Hno. apply search_None. intros k.
  destruct (Re.match_here PHONE_RE (skipn k text)) as [n|] eqn:E;
    [|reflexivity].
  exfalso.
  apply match_here_sound in E. destruct E as [_ E].
  apply phone_re_matches, phone_token_digit in E.
  apply existsb_exists in E. destruct E as (d & Hin & Hd).
  apply in_firstn_skipn in Hin.
  assert (Hyes : existsb isdecimal text = true)
    by (apply existsb_exists; eauto).
  congruence.
Qed.

Lemma sub_not_found (p : Re.pattern) (repl s : str) :
  Re.search p s = None -> Re.sub p repl s = s.
Proof. intros H. apply sub_identity. now apply search_None. Qed.

(** X8.  [mask_pii] leaves a text without [@] and without digits as it is:
    nothing but email-like and phone-like tokens is ever rewritten. *)
Theorem mask_pii_unchanged (text : str) :
  ~ In "@"%char text -> existsb isdecimal text = false ->
  mask_pii text = text.
Proof.
  intros Hat Hdigit. unfold mask_pii.
  rewrite (sub_not_found EMAIL_RE EMAIL text (email_not_found _ Hat)).
  apply sub_not_found. now apply phone_not_found.
Qed.

Lemma mask_pii_unchanged_witness :
  ~ In "@"%char (lit "see you soon")
  /\ existsb isdecimal (lit "see you soon") = false
  /\ mask_pii (lit "see you soon") = lit "see you soon".
Proof.
  assert (Hat : ~ In "@"%char (lit "see you soon"))
    by (simpl; intros H; decompose [or] H; discriminate || contradiction).
  assert (Hdigit : existsb isdecimal (lit "see you soon") = false)
    by reflexivity.
  refine (conj Hat (conj Hdigit _)).
  exact (mask_pii_unchanged (lit "see you soon") Hat Hdigit).
Defined.

(** X9.  [mask_pii] is idempotent: masking a masked text changes nothing, the
    placeholders are not masked again. *)
Theorem mask_pii_idempotent (text : str) :
  mask_pii (mask_pii text) = mask_pii text.
Proof.
  assert (He : Re.search EMAIL_RE (mask_pii text) = None)
    by apply sub_phone_keeps_email_clean, sub_email_clean.
  assert (Hp : Re.search PHONE_RE (mask_pii text) = None)
    by apply sub_phone_clean.
  unfold mask_pii at 1.
  rewrite (sub_not_found EMAIL_RE EMAIL _ He).
  now apply sub_not_found.
Qed.

(** ** Where [_chunk_text] cuts *)

Lemma slice_head (text : str) (p q : Z) :
  0 <= p -> p < q -> q <= len text ->
  hd_error (slice text p q) = nth_error text (Z.to_nat p).
Proof.
  intros Hp Hpq Hq. rewrite slice_in_range by lia.
  destruct (Z.to_nat (q - p)) as [|n] eqn:E; [lia|].
  rewrite <- hd_error_skipn.
  destruct (skipn (Z.to_nat p) text); reflexivity.
Qed.

Section ChunkCuts.

Variable text : str.
Variable max_chars : Z.
Hypothesis max_chars_pos : 1 <= max_chars.

(** The chunks the loop appends from [start] on: each but the last ends with
    a hard cut or before a newline, and the first begins at [start]. *)
Lemma chunk_loop_cuts (fuel : nat) :
  forall (start : Z) (acc : list str),
    0 <= start <= len text ->
    (Z.to_nat (len text - start) <= fuel)%nat ->
    exists new : list str,
      chunk_loop fuel text max_chars (mk_chunk_state start acc)
      = Some (mk_chunk_state (len text) (acc ++ new))
      /\ adjacent (cut_between max_chars) new
      /\ (start = len text -> new = [])
      /\ (start < len text ->
          exists c rest,
            new = c :: rest
            /\ hd_error c = nth_error text (Z.to_nat start)).
Proof.
  induction fuel as [|fuel IH]; intros start acc Hs Hfuel;
    rewrite chunk_loop_unfold; simpl cs_start;
    destruct (Z.ltb_spec start (len text)) as [Hlt|Hge];
    try lia;
    try (exists []; rewrite app_nil_r;
         replace start with (len text) by lia;
         refine (conj eq_refl (conj I (conj (fun _ => eq_refl) _)));
         intros; lia).
  pose proof (chunk_cut_progress text max_chars max_chars_pos start
                (conj (proj1 Hs) Hlt)) as Hcut.
  pose proof (chunk_cut_cases text max_chars max_chars_pos start (proj1 Hs))
    as Hcases.
  cbv zeta in Hcases.
  unfold chunk_step. simpl cs_start. simpl cs_chunks.
  set (cut := chunk_cut text max_chars start) in *.
  destruct (IH cut (acc ++ [slice text start cut])) as
    (new & Hrun & Hadj & Hend & Hmore); [lia | lia |].
  exists (slice text start cut :: new).
  refine (conj _ (conj _ (conj _ _))).
  - rewrite Hrun. now rewrite <- app_assoc.
  - destruct (Z.eq_dec cut (len text)) as [E|N].
    + rewrite (Hend E). exact I.
    + destruct (Hmore ltac:(lia)) as (c & rest & -> & Hhd).
      split; [|exact Hadj].
      unfold cut_between. rewrite len_slice by lia.
      destruct Hcases as [E|[E R]].
      * left. lia.
      * right. split; [lia|].
        assert (Hnl : nth_error text (Z.to_nat cut) = Some "010"%char).
        { rewrite E. apply rfind_char_found; [lia | |].
          - pose proof (len_nonneg text). lia.
          - change ["010"%char] with NL. rewrite <- E. lia. }
        rewrite Hnl in Hhd.
        destruct c as [|x c]; [discriminate|].
        injection Hhd as ->. reflexivity.
  - intros. lia.
  - intros _. exists (slice text start cut), new.
    split; [reflexivity|]. apply slice_head; lia.
Qed.

End ChunkCuts.

Lemma len_concat (chunks : list str) :
  len (concat chunks) = fold_right (fun c n => len c + n) 0 chunks.
Proof.
  unfold len. induction chunks as [|c rest IH]; [reflexivity|].
  simpl concat. rewrite length_app. simpl fold_right. lia.
Qed.

(** What [_chunk_text] returns for [max_chars >= 1], in one statement. *)
Lemma chunk_text_facts (text : str) (max_chars : Z) :
  1 <= max_chars ->
  exists chunks : list str,
    _chunk_text text max_chars = Some chunks
    /\ chunks <> []
    /\ concat chunks = text
    /\ Forall (fun c => len c <= max_chars) chunks
    /\ adjacent (cut_between max_chars) chunks.
Proof.
  intros Hpos.
  destruct (Z.leb_spec (len text) max_chars) as [Hshort|Hlong].
  - exists [text].
    refine (conj _ (conj _ (conj _ (conj _ I)))).
    + unfold _chunk_text, chunk_text_fuel.
      destruct (Z.leb_spec (len text) max_chars); [reflexivity | lia].
    + discriminate.
    + simpl. apply app_nil_r.
    + repeat constructor. assumption.
  - destruct (chunk_text_loop_case text max_chars Hpos Hlong)
      as (starts & Hres & Hloop & Hsorted & Hrange & Hhd & Hlens).
    destruct (chunk_loop_cuts text max_chars Hpos (length text) 0 [])
      as (new & Hrun & Hadj & _ & _);
      [pose proof (len_nonneg text); lia | unfold len; lia |].
    rewrite Hloop in Hrun. simpl app in Hrun.
    assert (Hnew : slices text (starts ++ [len text]) = new) by congruence.
    exists (slices text (starts ++ [len text])).
    refine (conj Hres (conj _ (conj _ (conj _ _)))).
    + intros Hnil. apply (f_equal (@length _)) in Hnil.
      rewrite length_slices_app in Hnil.
      destruct starts; [discriminate | simpl in Hnil; lia].
    + pose proof (concat_slices text starts Hsorted Hrange) as Hcat.
      destruct starts as [|p rest]; [discriminate|].
      injection Hhd as ->. exact Hcat.
    + eapply Forall_impl; [|exact Hlens]. simpl. intros; lia.
    + rewrite Hnew. exact Hadj.
Qed.

Lemma startswith_NL (s : str) :
  startswith NL s = true -> exists rest, s = "010"%char :: rest.
Proof.
  destruct s as [|x s]; [discriminate|].
  change (startswith NL (x :: s)) with (Ascii.eqb "010" x && true).
  destruct (Ascii.eqb_spec "010" x) as [<-|]; [eauto | discriminate].
Qed.

(** X10.  Where the chunker cuts.  For [max_chars >= 1], every chunk of
    [_chunk_text] that is followed by another one either has exactly
    [max_chars] characters (hard cut) or has more than 1000 and fewer than
    [max_chars] characters and the next chunk begins with the newline at
    which the text was cut: the newline goes to the start of the next chunk,
    not to the end of this one. *)
Theorem chunk_cut_kinds (text : str) (max_chars : Z) :
  1 <= max_chars ->
  exists chunks : list str,
    _chunk_text text max_chars = Some chunks
    /\ adjacent
         (fun c next =>
            len c = max_chars
            \/ (1000 < len c < max_chars
                /\ exists rest, next = "010"%char :: rest))
         chunks.
Proof.
  intros Hpos.
  destruct (chunk_text_facts text max_chars Hpos)
    as (chunks & Hres & _ & _ & _ & Hadj).
  exists chunks. split; [assumption|].
  clear Hres. induction chunks as [|c [|d rest] IH]; simpl; auto.
  destruct Hadj as [[Hhard|[Hsoft Hnl]] Hadj];
    (split; [|now apply IH]).
  - now left.
  - right. split; [assumption|].
    now apply startswith_NL.
Qed.

Lemma chunk_cut_kinds_witness :
  1 <= 2 /\ exists chunks : list str, _chunk_text (lit "abcde") 2 = Some chunks.
Proof.
  split; [lia|].
  destruct (chunk_cut_kinds (lit "abcde") 2 ltac:(lia)) as (chunks & H & _).
  now exists chunks.
Defined.

Lemma adjacent_removelast {A} (R : A -> A -> Prop) (P : A -> Prop)
  (l : list A) :
  (forall x y, R x y -> P x) -> adjacent R l -> Forall P (removelast l).
Proof.
  intros HRP. induction l as [|x [|y rest] IH]; simpl; intros H.
  - constructor.
  - constructor.
  - destruct H as [Hxy H]. constructor; [now apply (HRP x y)|].
    now apply IH.
Qed.

(** X11.  Small chunk sizes give fixed-size chunks.  For
    [1 <= max_chars <= 1001] a newline can never be more than 1000
    characters into a chunk and before its end, so [_chunk_text] cuts the
    text into blocks of exactly [max_chars] characters, the last block
    holding what is left. *)
Theorem chunk_fixed_size (text : str) (max_chars : Z) :
  1 <= max_chars <= 1001 ->
  exists chunks : list str,
    _chunk_text text max_chars = Some chunks
    /\ concat chunks = text
    /\ Forall (fun c => len c = max_chars) (removelast chunks)
    /\ Forall (fun c => len c <= max_chars) chunks.
Proof.
  intros Hmax.
  destruct (chunk_text_facts text max_chars ltac:(lia))
    as (chunks & Hres & _ & Hcat & Hlens & Hadj).
  exists chunks. refine (conj Hres (conj Hcat (conj _ Hlens))).
  apply (adjacent_removelast (cut_between max_chars)); [|assumption].
  intros c next [H|[H _]]; lia.
Qed.

Lemma chunk_fixed_size_witness :
  1 <= 2 <= 1001
  /\ exists chunks : list str,
       _chunk_text (lit "abcde") 2 = Some chunks
       /\ concat chunks = lit "abcde"
       /\ Forall (fun c => len c = 2) (removelast chunks)
       /\ Forall (fun c => len c <= 2) chunks.
Proof.
  split; [lia|].
  apply (chunk_fixed_size (lit "abcde") 2). lia.
Defined.

Lemma sum_len_upper (max_chars : Z) (chunks : list str) :
  Forall (fun c => len c <= max_chars) chunks ->
  fold_right (fun c n => len c + n) 0 chunks <= len chunks * max_chars.
Proof.
  unfold len at 3.
  induction 1 as [|c rest Hc _ IH]; [simpl; lia|].
  simpl fold_right. simpl length. lia.
Qed.

Lemma sum_len_lower (max_chars : Z) (chunks : list str) :
  chunks <> [] ->
  adjacent (cut_between max_chars) chunks ->
  Z.min max_chars 1001 * (len chunks - 1)
  <= fold_right (fun c n => len c + n) 0 chunks.
Proof.
  unfold len at 1.
  induction chunks as [|c [|d rest] IH]; intros Hne Hadj.
  - congruence.
  - simpl. pose proof (len_nonneg c). lia.
  - destruct Hadj as [Hcd Hadj].
    specialize (IH ltac:(discriminate) Hadj).
    assert (Hc : Z.min max_chars 1001 <= len c)
      by (destruct Hcd as [H|[H _]]; lia).
    simpl fold_right in *. simpl length in *. nia.
Qed.

(** X12.  How many chunks.  For [max_chars >= 1] the number [n] of chunks of
    [_chunk_text] satisfies [len(text) <= n * max_chars], the chunks being
    bounded, and [min(max_chars, 1001) * (n - 1) <= len(text)], every chunk
    but the last having at least that many characters.  With the default
    [max_chars = 9000] there are at most [len(text) / 1001 + 1] chunks. *)
Theorem chunk_count (text : str) (max_chars : Z) :
  1 <= max_chars ->
  exists chunks : list str,
    _chunk_text text max_chars = Some chunks
    /\ 1 <= len chunks
    /\ len text <= len chunks * max_chars
    /\ Z.min max_chars 1001 * (len chunks - 1) <= len text
    /\ (1001 <= max_chars -> len chunks <= len text / 1001 + 1).
Proof.
  intros Hpos.
  destruct (chunk_text_facts text max_chars Hpos)
    as (chunks & Hres & Hne & Hcat & Hlens & Hadj).
  exists chunks.
  pose proof (sum_len_upper _ _ Hlens) as Hup.
  pose proof (sum_len_lower _ _ Hne Hadj) as Hlow.
  rewrite <- len_concat, Hcat in Hup, Hlow.
  refine (conj Hres (conj _ (conj Hup (conj Hlow _)))).
  - destruct chunks; [congruence | unfold len; simpl; lia].
  - intros Hbig. replace (Z.min max_chars 1001) with 1001 in Hlow by lia.
    Z.div_mod_to_equations. lia.
Qed.

Lemma chunk_count_witness :
  1 <= 2
  /\ exists chunks : list str,
       _chunk_text (lit "abcde") 2 = Some chunks /\ 1 <= len chunks.
Proof.
  split; [lia|].
  destruct (chunk_count (lit "abcde") 2 ltac:(lia)) as (chunks & H & H1 & _).
  exists chunks. auto.
Defined.

(** X13.  [max_chars = 0] on a non-empty text: the cut stays at [start], so
    the loop of [_chunk_text] runs on whatever the number of iterations
    allowed, and the function does not return. *)
Theorem chunk_text_zero (text : str) :
  text <> [] ->
  (forall fuel : nat, chunk_text_fuel fuel text 0 = None)
  /\ _chunk_text text 0 = None.
Proof.
  intros Hne.
  assert (H : forall fuel : nat, chunk_text_fuel fuel text 0 = None).
  { intros fuel. unfold chunk_text_fuel.
    assert (Hlen : 0 < len text)
      by (destruct text; [congruence | unfold len; simpl; lia]).
    destruct (Z.leb_spec (len text) 0); [lia|].
    now rewrite chunk_loop_zero_runs_on. }
  split; [exact H | apply H].
Qed.

Lemma chunk_text_zero_witness :
  lit "ab" <> [] /\ _chunk_text (lit "ab") 0 = None.
Proof.
  assert (Hne : lit "ab" <> []) by discriminate.
  split; [exact Hne|].
  exact (proj2 (chunk_text_zero (lit "ab") Hne)).
Defined.

(** ** Errors and cost of [summarize_whatsapp_hybrid] *)

Lemma map_requests_nth (person_name purpose tone channel model : str) (n : Z)
  (chunks : list str) :
  forall (i : Z) (idx : nat),
    nth_error
      (map_requests person_name purpose tone channel model n chunks i) idx
    = option_map
        (map_request person_name purpose tone channel model n
           (i + Z.of_nat idx))
        (nth_error chunks idx).
Proof.
  induction chunks as [|ch rest IH]; intros i idx.
  - destruct idx; reflexivity.
  - destruct idx as [|idx].
    + simpl. now rewrite Z.add_0_r.
    + cbn [map_requests nth_error]. rewrite IH.
      replace (i + 1 + Z.of_nat idx) with (i + Z.of_nat (S idx)) by lia.
      reflexivity.
Qed.

Section MapStageRuns.

Variable api_key : option str.
Variable provider : trace -> request -> option str.
Variables person_name purpose tone channel model key : str.
Variable n : Z.
Hypothesis key_set : _get_client api_key = Return key.

Lemma call_answer (system_prompt user_content : str) (tr : trace) :
  let req := mk_request model (lit "0.3") system_prompt user_content in
  _call_openai_json api_key provider system_prompt user_content model tr
  = (answer provider tr req, tr ++ [req]).
Proof.
  apply (call_with_key api_key provider system_prompt user_content model key
           tr key_set).
Qed.

(** When the provider answers every request of the map stage with text that
    parses, the stage returns the summaries in order. *)
Lemma map_stage_answered (chunks : list str) :
  forall (i : Z) (acc summaries : list Json.value) (tr : trace),
    answered provider tr
      (map_requests person_name purpose tone channel model n chunks i)
      summaries ->
    map_stage api_key provider person_name purpose tone channel model n
      chunks i acc tr
    = (Return (acc ++ summaries),
       tr ++ map_requests person_name purpose tone channel model n chunks i).
Proof.
  induction chunks as [|ch rest IH]; intros i acc summaries tr Hans.
  - destruct summaries; [|contradiction].
    simpl. unfold ret. now rewrite !app_nil_r.
  - cbn [map_requests] in *.
    destruct summaries as [|v summaries]; [contradiction|].
    destruct Hans as [(content & Hprov & Hparse) Hans].
    rewrite map_stage_cons, call_answer. cbv zeta.
    change (mk_request model (lit "0.3") CHUNK_PROMPT
              (chunk_payload person_name purpose tone channel i n ch))
      with (map_request person_name purpose tone channel model n i ch).
    unfold answer at 1. rewrite Hprov, Hparse.
    rewrite (IH _ _ _ _ Hans). now rewrite <- !app_assoc.
Qed.

(** When the answer to the request of chunk [j] does not parse, or the call
    raises, the stage raises that error at once. *)
Lemma map_stage_fails (chunks : list str) :
  forall (i : Z) (acc summaries : list Json.value) (tr : trace) (j : nat)
         (req : request) (e : exn),
    let reqs :=
      map_requests person_name purpose tone channel model n chunks i in
    answered provider tr (firstn j reqs) summaries ->
    nth_error reqs j = Some req ->
    answer provider (tr ++ firstn j reqs) req = Raise e ->
    map_stage api_key provider person_name purpose tone channel model n
      chunks i acc tr
    = (Raise e, tr ++ firstn j reqs ++ [req]).
Proof.
  induction chunks as [|ch rest IH];
    intros i acc summaries tr j req e reqs Hans Hnth Hfail; subst reqs.
  - destruct j; discriminate.
  - cbn [map_requests] in *.
    rewrite map_stage_cons, call_answer. cbv zeta.
    change (mk_request model (lit "0.3") CHUNK_PROMPT
              (chunk_payload person_name purpose tone channel i n ch))
      with (map_request person_name purpose tone channel model n i ch).
    destruct j as [|j].
    + injection Hnth as <-. simpl in Hfail. rewrite app_nil_r in Hfail.
      now rewrite Hfail.
    + cbn [firstn nth_error] in *.
      destruct summaries as [|v summaries]; [contradiction|].
      destruct Hans as [(content & Hprov & Hparse) Hans].
      unfold answer at 1. rewrite Hprov, Hparse.
      rewrite (IH (i + 1) (acc ++ [v]) summaries _ j req e Hans Hnth).
      * now rewrite <- !app_assoc.
      * now rewrite <- app_assoc.
Qed.

End MapStageRuns.

Lemma key_set_client (api_key : option str) (key : str) :
  api_key = Some key -> key <> [] -> _get_client api_key = Return key.
Proof. intros -> Hne. destruct key; [congruence | reflexivity]. Qed.

(** X14.  The map stage fails fast.  With the key set: when the provider has
    answered the requests of the first [j] chunks with text that parses and
    the answer to the request of the next chunk does not parse, or that call
    raises, [summarize_whatsapp_hybrid] raises this very error; the request
    was the last one sent, no later chunk and no reduce request follow, and
    the summaries obtained so far are dropped. *)
Theorem summarize_fails_fast
  (provider : trace -> request -> option str) (json_dumps : Json.value -> str)
  (key clean_text person_name purpose tone channel model : str) (tr0 : trace)
  (chunks : list str) (summaries : list Json.value) (j : nat) (req : request)
  (e : exn) :
  key <> [] ->
  _chunk_text clean_text 9000 = Some chunks ->
  let reqs :=
    map_requests person_name purpose tone channel model (len chunks) chunks 1
  in
  answered provider tr0 (firstn j reqs) summaries ->
  nth_error reqs j = Some req ->
  answer provider (tr0 ++ firstn j reqs) req = Raise e ->
  summarize_whatsapp_hybrid (Some key) provider json_dumps clean_text
    person_name purpose tone channel model tr0
  = (Raise e, tr0 ++ firstn j reqs ++ [req]).
Proof.
  intros Hne Hchunks reqs Hans Hnth Hfail.
  unfold summarize_whatsapp_hybrid, bind. rewrite Hchunks.
  rewrite (map_stage_fails (Some key) provider person_name purpose tone
             channel model key (len chunks)
             (key_set_client _ _ eq_refl Hne) chunks 1 [] summaries tr0 j
             req e Hans Hnth Hfail).
  reflexivity.
Qed.

Lemma summarize_fails_fast_witness :
  let refusing : trace -> request -> option str :=
    fun _ _ => Some (lit "I cannot help with that.") in
  let req :=
    map_request (lit "Ann") (lit "Catch up") (lit "Warm") (lit "WhatsApp")
      (lit "gpt-4.1-mini") 1 1 (lit "hi") in
  summarize_whatsapp_hybrid (Some (lit "sk-test")) refusing
    (fun _ => lit "{}") (lit "hi") (lit "Ann") (lit "Catch up") (lit "Warm")
    (lit "WhatsApp") (lit "gpt-4.1-mini") []
  = (Raise (ValueError (lit "Model did not return valid JSON:
I cannot help with that.")), [req]).
Proof.
  intros refusing req.
  apply (summarize_fails_fast refusing (fun _ => lit "{}") (lit "sk-test")
           (lit "hi") (lit "Ann") (lit "Catch up") (lit "Warm")
           (lit "WhatsApp") (lit "gpt-4.1-mini") [] [lit "hi"] [] O req).
  - discriminate.
  - reflexivity.
  - exact I.
  - reflexivity.
  - reflexivity.
Defined.

(** X15.  The reduce answer decides.  With the key set: when the provider
    answers the requests of all chunks with text that parses, the reduce
    request is sent after them with the summaries in chunk order, and what
    [summarize_whatsapp_hybrid] returns or raises is what the JSON recovery
    makes of the answer to that request; a malformed reduce answer raises
    after all requests have been sent. *)
Theorem summarize_reduce_decides
  (provider : trace -> request -> option str) (json_dumps : Json.value -> str)
  (key clean_text person_name purpose tone channel model : str) (tr0 : trace)
  (chunks : list str) (summaries : list Json.value) :
  key <> [] ->
  _chunk_text clean_text 9000 = Some chunks ->
  let reqs :=
    map_requests person_name purpose tone channel model (len chunks) chunks 1
  in
  let reduce :=
    {| req_model := model;
       req_temperature := lit "0.3";
       req_system := REDUCE_PROMPT;
       req_user :=
         json_dumps
           (Json.Object
              [(Json.points (lit "chunk_summaries"),
                Json.Array summaries)]) |} in
  answered provider tr0 reqs summaries ->
  summarize_whatsapp_hybrid (Some key) provider json_dumps clean_text
    person_name purpose tone channel model tr0
  = (answer provider (tr0 ++ reqs) reduce, tr0 ++ reqs ++ [reduce]).
Proof.
  intros Hne Hchunks reqs reduce Hans.
  pose proof (key_set_client (Some key) key eq_refl Hne) as Hkey.
  unfold summarize_whatsapp_hybrid, bind. rewrite Hchunks.
  rewrite (map_stage_answered (Some key) provider person_name purpose tone
             channel model key (len chunks) Hkey chunks 1 [] summaries tr0
             Hans).
  cbn [app].
  rewrite (call_answer (Some key) provider model key Hkey).
  cbv zeta. fold reqs.
  change (mk_request model (lit "0.3") REDUCE_PROMPT
            (json_dumps (reduce_object summaries))) with reduce.
  now rewrite <- app_assoc.
Qed.

Lemma summarize_reduce_decides_witness :
  let echo : trace -> request -> option str :=
    fun tr _ => Some (str_of_int (len tr + 7)) in
  let dumps : Json.value -> str :=
    fun v =>
      match v with
      | Json.Object [(_, Json.Array [Json.Int n])] => str_of_int n
      | _ => lit "?"
      end in
  let reqs :=
    map_requests (lit "Ann") (lit "Catch up") (lit "Warm") (lit "WhatsApp")
      (lit "gpt-4.1-mini") 1 [lit "hi"] 1 in
  let reduce :=
    {| req_model := lit "gpt-4.1-mini";
       req_temperature := lit "0.3";
       req_system := REDUCE_PROMPT;
       req_user := lit "7" |} in
  summarize_whatsapp_hybrid (Some (lit "sk-test")) echo dumps (lit "hi")
    (lit "Ann") (lit "Catch up") (lit "Warm") (lit "WhatsApp")
    (lit "gpt-4.1-mini") []
  = (Return (Json.Int 8), reqs ++ [reduce]).
Proof.
  intros echo dumps reqs reduce.
  apply (summarize_reduce_decides echo dumps (lit "sk-test") (lit "hi")
           (lit "Ann") (lit "Catch up") (lit "Warm") (lit "WhatsApp")
           (lit "gpt-4.1-mini") [] [lit "hi"] [Json.Int 7]).
  - discriminate.
  - reflexivity.
  - simpl. split; [|exact I].
    exists (lit "7"). split; reflexivity.
Defined.

Lemma chunk_text_short (text : str) (max_chars : Z) :
  len text <= max_chars -> _chunk_text text max_chars = Some [text].
Proof.
  intros Hshort. unfold _chunk_text, chunk_text_fuel.
  destruct (Z.leb_spec (len text) max_chars); [reflexivity | lia].
Qed.

Lemma default_chunks_number (text : str) (chunks : list str) :
  _chunk_text text 9000 = Some chunks ->
  concat chunks = text
  /\ 1 <= len chunks <= len text / 1001 + 1
  /\ (len text <= 9000 -> len chunks = 1).
Proof.
  intros Hchunks.
  destruct (chunk_text_facts text 9000 ltac:(lia))
    as (chunks' & Hres & Hne & Hcat & Hlens & Hadj).
  assert (chunks' = chunks) by congruence. subst chunks'.
  pose proof (sum_len_lower _ _ Hne Hadj) as Hlow.
  rewrite <- len_concat, Hcat in Hlow.
  change (Z.min 9000 1001) with 1001 in Hlow.
  refine (conj Hcat (conj _ _)).
  - split.
    + destruct chunks; [congruence | unfold len; simpl; lia].
    + Z.div_mod_to_equations. lia.
  - intros Hshort. rewrite (chunk_text_short _ _ Hshort) in Hchunks.
    now injection Hchunks as <-.
Qed.

(** X16.  What a summary costs.  Whatever the key and the provider's
    answers, a run of [summarize_whatsapp_hybrid] only appends requests to
    those already sent, at most [len(clean_text) / 1001 + 2] of them: one
    per chunk and the reduce request.  For a cleaned text of at most 9000
    characters it sends at most two requests. *)
Theorem summarize_request_bound
  (api_key : option str) (provider : trace -> request -> option str)
  (json_dumps : Json.value -> str)
  (clean_text person_name purpose tone channel model : str) (tr0 : trace) :
  exists sent : trace,
    snd (summarize_whatsapp_hybrid api_key provider json_dumps clean_text
           person_name purpose tone channel model tr0) = tr0 ++ sent
    /\ len sent <= len clean_text / 1001 + 2
    /\ (len clean_text <= 9000 -> len sent <= 2).
Proof.
  destruct (summarize_trace api_key provider json_dumps clean_text
              person_name purpose tone channel model tr0)
    as (chunks & Hchunks & _ & Hrest).
  cbv zeta in Hrest. destruct Hrest as (Hlen & _ & Hrun).
  destruct (default_chunks_number _ _ Hchunks) as (_ & Hcount & Hshort).
  destruct Hrun as [(k & e & Hk & Hrun) | (sums & _ & _ & Hsnd & _)].
  - eexists. rewrite Hrun. cbn [snd]. split; [reflexivity|].
    unfold len in *. rewrite length_firstn. split; [lia|].
    intros Hs. specialize (Hshort Hs). lia.
  - eexists. rewrite Hsnd. split; [reflexivity|].
    unfold len in *. rewrite length_app. cbn [length]. split; [lia|].
    intros Hs. specialize (Hshort Hs). lia.
Qed.

(** X17.  What is sent.  In every run of [summarize_whatsapp_hybrid] the
    chunks of the cleaned text concatenate to the text itself, and the
    request at position [idx] below the number [n] of chunks is the map
    request of chunk [idx], labelled [idx + 1] of [n], under the chunk
    prompt, for the model given and at temperature 0.3.  At most one more
    request is sent, and it carries the reduce prompt. *)
Theorem summarize_sends_text
  (api_key : option str) (provider : trace -> request -> option str)
  (json_dumps : Json.value -> str)
  (clean_text person_name purpose tone channel model : str) (tr0 : trace) :
  exists (chunks : list str) (sent : trace),
    _chunk_text clean_text 9000 = Some chunks
    /\ concat chunks = clean_text
    /\ snd (summarize_whatsapp_hybrid api_key provider json_dumps clean_text
              person_name purpose tone channel model tr0) = tr0 ++ sent
    /\ (length sent <= length chunks + 1)%nat
    /\ (forall (idx : nat) (req : request),
           (idx < length chunks)%nat ->
           nth_error sent idx = Some req ->
           exists ch : str,
             nth_error chunks idx = Some ch
             /\ req =
                {| req_model := model;
                   req_temperature := lit "0.3";
                   req_system := CHUNK_PROMPT;
                   req_user :=
                     chunk_payload person_name purpose tone channel
                       (Z.of_nat idx + 1) (len chunks) ch |})
    /\ (forall req : request,
           nth_error sent (length chunks) = Some req ->
           req_system req = REDUCE_PROMPT /\ req_model req = model).
Proof.
  destruct (summarize_trace api_key provider json_dumps clean_text
              person_name purpose tone channel model tr0)
    as (chunks & Hchunks & _ & Hrest).
  cbv zeta in Hrest. destruct Hrest as (Hlen & _ & Hrun).
  destruct (default_chunks_number _ _ Hchunks) as (Hcat & _ & _).
  set (reqs := map_requests person_name purpose tone channel model
                 (len chunks) chunks 1) in *.
  assert (Hmap : forall idx req,
             nth_error reqs idx = Some req ->
             exists ch : str,
               nth_error chunks idx = Some ch
               /\ req =
                  mk_request model (lit "0.3") CHUNK_PROMPT
                    (chunk_payload person_name purpose tone channel
                       (Z.of_nat idx + 1) (len chunks) ch)).
  { intros idx req Hreq. subst reqs. rewrite map_requests_nth in Hreq.
    destruct (nth_error chunks idx) as [ch|]; [|discriminate].
    injection Hreq as <-. exists ch. split; [reflexivity|].
    unfold map_request. now rewrite Z.add_comm. }
  exists chunks.
  destruct Hrun as [(k & e & Hk & Hrun) | (sums & _ & _ & Hsnd & _)].
  - exists (firstn k reqs). rewrite Hrun. cbn [snd].
    refine (conj Hchunks (conj Hcat (conj eq_refl (conj _ (conj _ _))))).
    + rewrite length_firstn. lia.
    + intros idx req Hidx Hreq. apply Hmap.
      destruct (Nat.lt_ge_cases idx k) as [Hlt|Hge].
      * now rewrite nth_error_firstn, (proj2 (Nat.ltb_lt _ _) Hlt) in Hreq.
      * assert (Hnone : nth_error (firstn k reqs) idx = None).
        { apply nth_error_None. rewrite length_firstn. lia. }
        congruence.
    + intros req Hreq.
      assert (Hnone : nth_error (firstn k reqs) (length chunks) = None).
      { apply nth_error_None. rewrite length_firstn. lia. }
      congruence.
  - eexists. rewrite Hsnd.
    refine (conj Hchunks (conj Hcat (conj eq_refl (conj _ (conj _ _))))).
    + rewrite length_app. cbn [length]. lia.
    + intros idx req Hidx Hreq. apply Hmap.
      now rewrite nth_error_app1 in Hreq by lia.
    + intros req Hreq.
      rewrite nth_error_app2, Hlen, Nat.sub_diag in Hreq by lia.
      injection Hreq as <-. split; reflexivity.
Qed.

(** ** Masking and chunking together *)

(** A pattern that is not found in a text is not found in a part of it. *)
Lemma search_part (p : Re.pattern) (before part after : str) :
  Re.search p (before ++ part ++ after) = None -> Re.search p part = None.
Proof.
  intros Hwhole. rewrite search_None in Hwhole. apply search_None.
  intros k.
  destruct (Re.match_here p (skipn k part)) as [n|] eqn:E; [|reflexivity].
  exfalso.
  destruct (match_here_sound p _ _ E) as [_ Hm].
  apply (match_here_complete p _ Hm
           (skipn n (skipn k part) ++ skipn (k - length part) after)).
  rewrite app_assoc, firstn_skipn, <- skipn_app.
  specialize (Hwhole (length before + k)%nat).
  rewrite skipn_app in Hwhole.
  rewrite (skipn_all2 before) in Hwhole by lia.
  now replace (length before + k - length before)%nat with k in Hwhole
    by lia.
Qed.

Lemma in_concat_part {A} (c : list A) (chunks : list (list A)) :
  In c chunks ->
  exists before after, concat chunks = before ++ c ++ after.
Proof.
  intros Hin. apply in_split in Hin. destruct Hin as (l1 & l2 & ->).
  exists (concat l1), (concat l2).
  now rewrite concat_app.
Qed.

(** X18.  Masked text stays masked in the chunks.  When the text is cleaned
    with [pii_mask] on and then cut by [_chunk_text] with [max_chars >= 1],
    no chunk contains an email-like or a phone-like token, wherever the cuts
    fall: the chunker brings no token back. *)
Theorem masked_chunks_clean (raw : str) (k : Z) (rs ra : bool)
  (max_chars : Z) :
  1 <= max_chars ->
  exists chunks : list str,
    _chunk_text (fst (clean_whatsapp_text raw k rs ra true)) max_chars
    = Some chunks
    /\ Forall (fun ch => Re.search EMAIL_RE ch = None
                         /\ Re.search PHONE_RE ch = None) chunks.
Proof.
  intros Hpos.
  rewrite clean_whatsapp_text_unfold. cbn [fst].
  set (text := join NL (map strip (filter (kept_line rs ra)
                                     (window k (splitlines raw))))).
  destruct (chunk_text_facts (mask_pii text) max_chars Hpos)
    as (chunks & Hres & _ & Hcat & _).
  exists chunks. split; [exact Hres|].
  apply Forall_forall. intros ch Hin.
  destruct (in_concat_part _ _ Hin) as (before & after & Hparts).
  rewrite Hcat in Hparts.
  split; apply (search_part _ before ch after); rewrite <- Hparts;
    unfold mask_pii.
  - apply sub_phone_keeps_email_clean, sub_email_clean.
  - apply sub_phone_clean.
Qed.

Lemma masked_chunks_clean_witness :
  1 <= 12
  /\ exists chunks : list str,
       _chunk_text
         (fst (clean_whatsapp_text (lit "mail ann@example.org now") 800 true
                 true true)) 12
       = Some chunks
       /\ Forall (fun ch => Re.search EMAIL_RE ch = None
                            /\ Re.search PHONE_RE ch = None) chunks.
Proof.
  split; [lia|].
  apply (masked_chunks_clean (lit "mail ann@example.org now") 800 true true
           12).
  lia.
Defined.

(** ** What the JSON recovery can give *)

Lemma members_object (fuel : nat) :
  forall (s : str) (acc : list (list Z * Json.value)) (v : Json.value)
         (rest : str),
    Json.members fuel s acc = Json.Ok (v, rest) ->
    exists members, v = Json.Object members.
Proof.
  induction fuel as [|fuel IH]; intros s acc v rest; [discriminate|].
  rewrite members_S.
  destruct s as [|q s1]; [discriminate|].
  destruct (eqb_char q "034"); [|discriminate].
  destruct (Json.scanstring s1 []) as [[key s2]|]; [|discriminate].
  destruct (Json.skip_ws s2) as [|colon s3]; [discriminate|].
  destruct (eqb_char colon ":"); [|discriminate].
  destruct (Json.scan_once fuel (Json.skip_ws s3)) as [[x s4]| |];
    try discriminate.
  destruct (Json.skip_ws s4) as [|d s5]; [discriminate|].
  destruct (eqb_char d "}").
  - intros [= <- _]. eauto.
  - destruct (eqb_char d ","); [apply IH | discriminate].
Qed.

(** A document that opens with a brace decodes to an object or not at all. *)
Lemma loads_object (s : str) (v : Json.value) :
  Json.loads ("{"%char :: s) = Json.Ok v ->
  exists members, v = Json.Object members.
Proof.
  unfold Json.loads.
  change (Json.skip_ws ("{"%char :: s)) with ("{"%char :: s).
  rewrite scan_once_S.
  change (eqb_char "{" "034") with false.
  change (eqb_char "{" "{") with true. cbv iota.
  destruct (Json.skip_ws s) as [|d rest] eqn:Hs; [discriminate|].
  destruct (eqb_char d "}").
  - destruct (is_empty (Json.skip_ws rest)); [|discriminate].
    intros [= <-]. eauto.
  - destruct (Json.members _ (d :: rest) []) as [[x r]| |] eqn:Hm;
      try discriminate.
    destruct (is_empty (Json.skip_ws r)); [|discriminate].
    intros [= <-]. eapply members_object, Hm.
Qed.

(** X19.  The span decides.  When the trimmed output is no JSON document
    and has a span from its first [{] through its last [}], the outcome of
    [parse_model_output] is decided by the decoding of the span alone.  When
    the span decodes, its value is returned, and it is an object, the span
    opening with a brace.  When the decoder rejects the span, its error
    leaves [_call_openai_json] carrying the span: the second [json.loads]
    is not guarded, and the [ValueError] with the trimmed text is not
    raised. *)
Theorem parse_model_output_span (content : str) (i n : nat) :
  let txt := strip content in
  let span := firstn n (skipn i txt) in
  Json.loads txt = Json.Fail ->
  braces_span txt = Some (i, n) ->
  (exists rest, span = "{"%char :: rest)
  /\ (forall v : Json.value,
         Json.loads span = Json.Ok v ->
         parse_model_output content = Return v
         /\ exists members, v = Json.Object members)
  /\ (Json.loads span = Json.Fail ->
      parse_model_output content = Raise (JSONDecodeError span)).
Proof.
  intros txt span Hfirst Hspan.
  assert (Hhead : exists rest, span = "{"%char :: rest).
  { destruct (braces_span_spec _ _ _ Hspan) as (Hopen & _ & Hn & _).
    apply nth_error_split in Hopen.
    destruct Hopen as (l1 & l2 & Heq & Hl1).
    subst span. rewrite Heq, skipn_app, skipn_all2, Hl1, Nat.sub_diag by lia.
    destruct n as [|n]; [lia|]. simpl. eauto. }
  assert (Hrun : parse_model_output content
                 = match Json.loads span with
                   | Json.Ok v => Return v
                   | Json.Fail => Raise (JSONDecodeError span)
                   | Json.OutOfFuel => Diverge
                   end).
  { unfold parse_model_output. fold txt.
    rewrite Hfirst, search_braces, Hspan. reflexivity. }
  refine (conj Hhead (conj _ _)).
  - intros v Hv. rewrite Hrun, Hv. split; [reflexivity|].
    destruct Hhead as (rest & Hrest). rewrite Hrest in Hv.
    exact (loads_object _ _ Hv).
  - intros Hbad. now rewrite Hrun, Hbad.
Qed.

Lemma parse_model_output_span_witness :
  parse_model_output (lit "Here: {1} ")
  = Raise (JSONDecodeError (lit "{1}")).
Proof.
  assert (Hfirst : Json.loads (strip (lit "Here: {1} ")) = Json.Fail)
    by (vm_compute; reflexivity).
  assert (Hspan : braces_span (strip (lit "Here: {1} ")) = Some (6, 3)%nat)
    by (vm_compute; reflexivity).
  destruct (parse_model_output_span (lit "Here: {1} ") 6 3 Hfirst Hspan)
    as (_ & _ & Hbad).
  apply Hbad. vm_compute. reflexivity.
Defined.

Lemma lstrip_app_solid (a : str) (c : ascii) (s : str) :
  isspace c = false -> lstrip (a ++ c :: s) = lstrip a ++ c :: s.
Proof.
  intros Hc. induction a as [|x a IH]; simpl.
  - now rewrite Hc.
  - destruct (isspace x); [assumption | reflexivity].
Qed.

Lemma rstrip_app_solid (s : str) (c : ascii) (a : str) :
  isspace c = false -> rstrip (s ++ c :: a) = s ++ c :: rstrip a.
Proof.
  intros Hc. unfold rstrip.
  rewrite rev_app_distr. simpl rev. rewrite <- app_assoc. simpl app.
  rewrite (lstrip_app_solid _ _ _ Hc), rev_app_distr. simpl rev.
  now rewrite rev_involutive, <- app_assoc.
Qed.

Lemma rstrip_incl (c : ascii) (s : str) : In c (rstrip s) -> In c s.
Proof.
  unfold rstrip. intros H.
  now apply in_rev, lstrip_incl, in_rev in H.
Qed.

Lemma first_occ_at (c : ascii) (p s : str) :
  ~ In c p -> first_occ [c] (p ++ c :: s) = Some (length p).
Proof.
  induction p as [|a p IH]; intros Hno; cbn [app first_occ startswith].
  - unfold eqb_char. now rewrite Ascii.eqb_refl.
  - unfold eqb_char. destruct (Ascii.eqb_spec c a) as [->|Hne].
    + exfalso. apply Hno. now left.
    + cbn [andb]. rewrite IH; [reflexivity|].
      intros Hin. apply Hno. now right.
Qed.

Lemma last_occ_absent (c : ascii) (s : str) :
  ~ In c s -> last_occ [c] s = None.
Proof.
  intros Hno. destruct (last_occ [c] s) as [k|] eqn:E; [|reflexivity].
  exfalso. apply Hno. apply last_occ_char in E.
  now apply nth_error_In in E.
Qed.

Lemma last_occ_at (c : ascii) (p s : str) :
  ~ In c s -> last_occ [c] (p ++ c :: s) = Some (length p).
Proof.
  intros Hno. induction p as [|a p IH]; cbn [app last_occ].
  - rewrite (last_occ_absent _ _ Hno). cbn [startswith].
    unfold eqb_char. now rewrite Ascii.eqb_refl.
  - now rewrite IH.
Qed.

(** X20.  An object wrapped in prose or in a code fence is recovered.  When
    the model output is an object text, from its [{] to its [}], with text
    before it that has no [{] and text after it that has no [}], and the
    output as a whole is no JSON document, [parse_model_output] returns what
    the object text alone decodes to. *)
Theorem parse_model_output_wrapped (before inner after : str)
  (v : Json.value) :
  let obj := "{"%char :: inner ++ ["}"%char] in
  ~ In "{"%char before ->
  ~ In "}"%char after ->
  Json.loads (strip (before ++ obj ++ after)) = Json.Fail ->
  Json.loads obj = Json.Ok v ->
  parse_model_output (before ++ obj ++ after) = Return v.
Proof.
  intros obj Hbefore Hafter Hfail Hobj.
  assert (Hstrip : strip (before ++ obj ++ after)
                   = lstrip before ++ "{"%char :: inner
                     ++ "}"%char :: rstrip after).
  { unfold strip, obj. cbn [app]. rewrite <- app_assoc. cbn [app].
    rewrite lstrip_app_solid by reflexivity.
    change (lstrip before ++ "{"%char :: inner ++ "}"%char :: after)
      with (lstrip before ++ ("{"%char :: inner) ++ "}"%char :: after).
    rewrite app_assoc, rstrip_app_solid by reflexivity.
    now rewrite <- app_assoc. }
  unfold parse_model_output. rewrite Hfail, search_braces, Hstrip.
  unfold braces_span.
  change (lit "{") with ["{"%char]. change (lit "}") with ["}"%char].
  rewrite first_occ_at
    by (intros Hin; apply Hbefore; now apply lstrip_incl in Hin).
  change (lstrip before ++ "{"%char :: inner ++ "}"%char :: rstrip after)
    with (lstrip before ++ ("{"%char :: inner) ++ "}"%char :: rstrip after).
  rewrite app_assoc, last_occ_at
    by (intros Hin; apply Hafter; now apply rstrip_incl in Hin).
  rewrite length_app. cbn [length].
  destruct (Nat.ltb_spec (length (lstrip before))
              (length (lstrip before) + S (length inner))) as [_|Hge];
    [|lia].
  unfold Re.group0. cbn [fst snd].
  rewrite <- app_assoc, skipn_app, skipn_all, Nat.sub_diag. cbn [skipn app].
  replace (length (lstrip before) + S (length inner)
           - length (lstrip before) + 1)%nat
    with (length obj)
    by (unfold obj; cbn [length]; rewrite length_app; simpl; lia).
  change ("{"%char :: inner ++ "}"%char :: rstrip after)
    with (("{"%char :: inner) ++ ["}"%char] ++ rstrip after).
  rewrite app_assoc.
  change (("{"%char :: inner) ++ ["}"%char]) with obj.
  rewrite firstn_app, firstn_all, Nat.sub_diag. cbn [firstn].
  now rewrite app_nil_r, Hobj.
Qed.

Lemma parse_model_output_wrapped_witness :
  let inner := ["034"; "a"; "034"; ":"; " "; "1"]%char in
  parse_model_output
    (lit "```json
" ++ ("{"%char :: inner ++ ["}"%char]) ++ lit "
```")
  = Return (Json.Object [([97], Json.Int 1)]).
Proof.
  intros inner.
  apply (parse_model_output_wrapped (lit "```json
") inner (lit "
```") (Json.Object [([97], Json.Int 1)])).
  - intros [H|[H|[H|[H|[H|[H|[H|[H|[]]]]]]]]]; discriminate H.
  - intros [H|[H|[H|[H|[]]]]]; discriminate H.
  - vm_compute. reflexivity.
  - vm_compute. reflexivity.
Defined.

(** ** The errors of a run *)

Lemma parse_model_output_error (content : str) (e : exn) :
  parse_model_output content = Raise e -> call_error e.
Proof.
  unfold parse_model_output.
  destruct (Json.loads (strip content)); try discriminate.
  destruct (Re.search BRACES_RE (strip content)) as [m|].
  - destruct (Json.loads (Re.group0 (strip content) m)); try discriminate.
    intros [= <-]. exact I.
  - intros [= <-]. exact I.
Qed.

Lemma answer_outcome (provider : trace -> request -> option str)
  (tr : trace) (req : request) :
  match answer provider tr req with
  | Return _ => True
  | Raise e => call_error e
  | Diverge => False
  end.
Proof.
  unfold answer. destruct (provider tr req) as [content|]; [|exact I].
  pose proof (parse_model_output_total content) as Htotal.
  pose proof (parse_model_output_error content) as Herr.
  destruct (parse_model_output content); auto.
Qed.

Lemma map_stage_outcome (api_key : option str)
  (provider : trace -> request -> option str)
  (person_name purpose tone channel model key : str) (n : Z) :
  _get_client api_key = Return key ->
  forall (chunks : list str) (i : Z) (acc : list Json.value) (tr : trace),
    match
      fst (map_stage api_key provider person_name purpose tone channel model
             n chunks i acc tr)
    with
    | Return _ => True
    | Raise e => call_error e
    | Diverge => False
    end.
Proof.
  intros Hkey. induction chunks as [|ch rest IH]; intros i acc tr.
  - exact I.
  - rewrite map_stage_cons, (call_answer api_key provider model key Hkey).
    cbv zeta.
    pose proof (answer_outcome provider tr
                  (mk_request model (lit "0.3") CHUNK_PROMPT
                     (chunk_payload person_name purpose tone channel i n
                        ch))) as Hans.
    destruct (answer provider tr _); [apply IH | exact Hans | exact Hans].
Qed.

Lemma summarize_outcome (api_key : option str)
  (provider : trace -> request -> option str)
  (json_dumps : Json.value -> str)
  (clean_text person_name purpose tone channel model key : str)
  (tr0 : trace) :
  _get_client api_key = Return key ->
  match
    fst (summarize_whatsapp_hybrid api_key provider json_dumps clean_text
           person_name purpose tone channel model tr0)
  with
  | Return _ => True
  | Raise e => call_error e
  | Diverge => False
  end.
Proof.
  intros Hkey.
  destruct (chunk_text_default clean_text) as (chunks & Hchunks & _).
  unfold summarize_whatsapp_hybrid, bind. rewrite Hchunks.
  pose proof (map_stage_outcome api_key provider person_name purpose tone
                channel model key (len chunks) Hkey chunks 1 [] tr0)
    as Hstage.
  destruct (map_stage api_key provider person_name purpose tone channel
              model (len chunks) chunks 1 [] tr0) as [[sums|e|] tr1];
    cbn [fst] in *; [|exact Hstage|exact Hstage].
  rewrite (call_answer api_key provider model key Hkey). cbv zeta.
  cbn [fst]. apply answer_outcome.
Qed.

(** X21.  With the key set the first chunk is always sent.  When the key is
    set, [summarize_whatsapp_hybrid] does not raise the error of
    [_get_client], and whatever the provider answers the requests it has
    sent begin with the request of the first chunk, labelled 1 of [n]: with
    the case of the missing key, a run sends nothing exactly when the key is
    missing. *)
Theorem summarize_key_set_sends
  (provider : trace -> request -> option str)
  (json_dumps : Json.value -> str)
  (key clean_text person_name purpose tone channel model : str)
  (tr0 : trace) :
  key <> [] ->
  let run :=
    summarize_whatsapp_hybrid (Some key) provider json_dumps clean_text
      person_name purpose tone channel model tr0 in
  exists (ch : str) (rest : list str) (later : trace),
    _chunk_text clean_text 9000 = Some (ch :: rest)
    /\ snd run
       = tr0
         ++ {| req_model := model;
               req_temperature := lit "0.3";
               req_system := CHUNK_PROMPT;
               req_user :=
                 chunk_payload person_name purpose tone channel 1
                   (len (ch :: rest)) ch |}
            :: later
    /\ fst run <> Raise (RuntimeError (lit "OPENAI_API_KEY is not set.")).
Proof.
  intros Hne run.
  pose proof (key_set_client (Some key) key eq_refl Hne) as Hkey.
  destruct (chunk_text_default clean_text) as (chunks & Hchunks & Hsome).
  destruct chunks as [|ch rest]; [congruence|].
  exists ch, rest.
  assert (Hfst : fst run
                 <> Raise (RuntimeError (lit "OPENAI_API_KEY is not set."))).
  { pose proof (summarize_outcome (Some key) provider json_dumps clean_text
                  person_name purpose tone channel model key tr0 Hkey) as H.
    fold run in H. intros Heq. rewrite Heq in H. exact H. }
  assert (Hsnd : exists later,
             snd run
             = tr0
               ++ mk_request model (lit "0.3") CHUNK_PROMPT
                    (chunk_payload person_name purpose tone channel 1
                       (len (ch :: rest)) ch)
                  :: later).
  { subst run. unfold summarize_whatsapp_hybrid, bind. rewrite Hchunks.
    rewrite map_stage_cons, (call_answer (Some key) provider model key Hkey).
    cbv zeta.
    set (req := mk_request model (lit "0.3") CHUNK_PROMPT
                  (chunk_payload person_name purpose tone channel 1
                     (len (ch :: rest)) ch)).
    destruct (answer provider tr0 req) as [v|e|].
    - pose proof (map_stage_spec (Some key) provider person_name purpose
                    tone channel model (len (ch :: rest)) rest (1 + 1)
                    ([] ++ [v]) (tr0 ++ [req])) as Hstage.
      cbv zeta in Hstage.
      destruct (map_stage (Some key) provider person_name purpose tone
                  channel model (len (ch :: rest)) rest (1 + 1) ([] ++ [v])
                  (tr0 ++ [req])) as [[sums|e|] tr1].
      + destruct Hstage as (-> & _).
        rewrite (call_answer (Some key) provider model key Hkey).
        cbv zeta. cbn [snd]. eexists.
        rewrite <- !app_assoc. cbn [app]. reflexivity.
      + destruct Hstage as (k & _ & ->). cbn [snd]. eexists.
        rewrite <- app_assoc. cbn [app]. reflexivity.
      + contradiction.
    - exists []. reflexivity.
    - exists []. reflexivity. }
  destruct Hsnd as (later & Hsnd).
  exists later. refine (conj Hchunks (conj Hsnd Hfst)).
Qed.

Lemma summarize_key_set_sends_witness :
  exists later : trace,
    snd (summarize_whatsapp_hybrid (Some (lit "sk-test"))
           (fun _ _ => None) (fun _ => lit "{}") (lit "hi") (lit "Ann")
           (lit "Catch up") (lit "Warm") (lit "WhatsApp")
           (lit "gpt-4.1-mini") [])
    = map_request (lit "Ann") (lit "Catch up") (lit "Warm")
        (lit "WhatsApp") (lit "gpt-4.1-mini") 1 1 (lit "hi")
      :: later.
Proof.
  destruct (summarize_key_set_sends (fun _ _ => None) (fun _ => lit "{}")
              (lit "sk-test") (lit "hi") (lit "Ann") (lit "Catch up")
              (lit "Warm") (lit "WhatsApp") (lit "gpt-4.1-mini") []
              ltac:(discriminate))
    as (ch & rest & later & Hchunks & Hsnd & _).
  exists later.
  assert (Hone : Some [lit "hi"] = Some (ch :: rest)) by exact Hchunks.
  injection Hone as <- <-. exact Hsnd.
Defined.

(** ** app.py: the summarize button *)


(** ** app.py: the preview *)

Lemma join_firstn_prefix (sep : str) (n : nat) :
  forall ls : list str,
    exists rest, join sep ls = join sep (firstn n ls) ++ rest.
Proof.
  induction n as [|n IH]; intros ls.
  - exists (join sep ls). reflexivity.
  - destruct ls as [|p [|q tl]].
    + exists []. reflexivity.
    + exists []. cbn [firstn]. rewrite firstn_nil. cbn [join].
      now rewrite app_nil_r.
    + destruct (IH (q :: tl)) as (rest & Hrest).
      rewrite join_cons2, Hrest. cbn [firstn].
      destruct n as [|n].
      * exists (sep ++ join sep [] ++ rest). cbn [firstn join].
        reflexivity.
      * cbn [firstn]. rewrite join_cons2.
        exists rest. now rewrite <- !app_assoc.
Qed.

(** X23.  The preview of a text cleaned without masking shows its first 60
    lines as they are: it is a prefix of the cleaned text, it is the whole
    text when that has at most 60 lines, and it splits into exactly the
    first 60 kept lines. *)
Theorem preview_clean (raw : str) (k : Z) (rs ra : bool) :
  let text := fst (clean_whatsapp_text raw k rs ra false) in
  (exists rest, text = preview text ++ rest)
  /\ (len (splitlines text) <= 60 -> preview text = text)
  /\ splitlines (preview text) = firstn 60 (splitlines text).
Proof.
  cbv zeta. rewrite clean_whatsapp_text_unfold. cbn [fst].
  set (lines := window k (splitlines raw)).
  set (out := map strip (filter (kept_line rs ra) lines)).
  assert (Hone : Forall one_line lines) by apply window_one_line.
  destruct (kept_lines_clean rs ra lines Hone) as (Hclean & _ & _).
  fold out in Hclean.
  assert (Hsplit : splitlines (join NL out) = out).
  { apply splitlines_join.
    - eapply Forall_impl; [|exact Hclean]. simpl. tauto.
    - eapply Forall_impl; [|exact Hclean]. simpl. tauto. }
  unfold preview. rewrite Hsplit.
  refine (conj (join_firstn_prefix NL 60 out) (conj _ _)).
  - intros Hfew. rewrite firstn_all2; [reflexivity|]. unfold len in Hfew. lia.
  - apply splitlines_join.
    + apply Forall_forall. intros l Hin.
      rewrite Forall_forall in Hclean.
      assert (Hin' : In l out).
      { rewrite <- (firstn_skipn 60 out). apply in_or_app. now left. }
      now destruct (Hclean l Hin') as (_ & _ & H).
    + apply Forall_forall. intros l Hin.
      rewrite Forall_forall in Hclean.
      assert (Hin' : In l out).
      { rewrite <- (firstn_skipn 60 out). apply in_or_app. now left. }
      now destruct (Hclean l Hin') as (H & _ & _).
Qed.
